(** * URL module of the manager API: location parsing, query-parameter
      store and args/URL synchronisation

    Shallow embedding of [lib/api/src/modules/url.ts] (args codec,
    [initialUrlSupport], the [SubAPI] and the event handlers registered by
    [initModule]) together with the properties of its natural-language
    specification.

    JavaScript values are embedded as a first-order data type; an object
    is the list of its own enumerable properties in [Object.keys] order.
    Module-level and store state is passed explicitly, exceptions are
    results, and calls into the router or the store are recorded as
    effects. *)

From Stdlib Require Import String Ascii List ZArith Bool Lia Permutation.
From stdpp Require Import base option gmap strings pretty.
Import ListNotations.
Local Open Scope string_scope.
Local Open Scope list_scope.

(** ** JavaScript values *)

(** Plain data as found in story args and query objects.  Numbers are the
    integers (the module never does arithmetic; only [String(n)] and [===]
    are used on them); what is said of [String(n)] holds for the safe
    integers, see [safe_numbers].  A string is the sequence of the bytes
    of its UTF-8 encoding. *)
#[local] Unset Elimination Schemes.
Inductive value : Type :=
| VUndefined
| VNull
| VBool (b : bool)
| VNum (n : Z)
| VStr (s : string)
| VArr (xs : list value)
| VObj (kvs : list (string * value)).
#[local] Set Elimination Schemes.

(** An object: own enumerable string-keyed properties, in insertion order.
    (JavaScript enumerates property names that are array indices first;
    the order of an object only shows in the order of the pairs of an
    encoded fragment, and nothing below depends on where such names
    come.)  Objects are plain: their prototype is [Object.prototype], and
    reading [o[k]] is reading an own property. *)
Abbreviation obj := (list (string * value)).

(** Induction over nested values. *)
Section ValueInd.
Variable P : value -> Prop.
Hypothesis Hundef : P VUndefined.
Hypothesis Hnull : P VNull.
Hypothesis Hbool : forall b, P (VBool b).
Hypothesis Hnum : forall n, P (VNum n).
Hypothesis Hstr : forall s, P (VStr s).
Hypothesis Harr : forall xs, Forall P xs -> P (VArr xs).
Hypothesis Hobj : forall kvs, Forall (fun kv => P (snd kv)) kvs -> P (VObj kvs).

Fixpoint value_ind (v : value) : P v :=
  match v with
  | VUndefined => Hundef
  | VNull => Hnull
  | VBool b => Hbool b
  | VNum n => Hnum n
  | VStr s => Hstr s
  | VArr xs =>
      Harr xs ((fix elems (l : list value) : Forall P l :=
                  match l with
                  | [] => List.Forall_nil P
                  | x :: l' => @List.Forall_cons _ P x l' (value_ind x) (elems l')
                  end) xs)
  | VObj kvs =>
      Hobj kvs ((fix props (l : list (string * value)) :
                     Forall (fun kv => P (snd kv)) l :=
                   match l with
                   | [] => List.Forall_nil _
                   | kv :: l' => @List.Forall_cons _ (fun kv => P (snd kv)) kv l' (value_ind (snd kv)) (props l')
                   end) kvs)
  end.
End ValueInd.

(** JavaScript truthiness ([if (x)], [x || y], [x && y], [!x]). *)
Definition truthy (v : value) : bool :=
  match v with
  | VUndefined | VNull => false
  | VBool b => b
  | VNum n => negb (n =? 0)%Z
  | VStr s => negb (s =? "")%string
  | VArr _ | VObj _ => true
  end.

(** [a === b] on primitives (objects compare by identity and are never
    compared with [===] against a literal in this module). *)
Definition is_str (v : value) (s : string) : bool :=
  match v with VStr t => (t =? s)%string | _ => false end.

(** ** Objects *)

(** [Object.prototype.hasOwnProperty.call(o, k)]. *)
Fixpoint has_own (k : string) (o : obj) : bool :=
  match o with
  | [] => false
  | (k', _) :: o' => if (k' =? k)%string then true else has_own k o'
  end.

(** Lookup of an own property. *)
Fixpoint get_own (k : string) (o : obj) : option value :=
  match o with
  | [] => None
  | (k', v) :: o' => if (k' =? k)%string then Some v else get_own k o'
  end.

(** [o[k]]: the own property, [undefined] when there is none. *)
Definition prop (k : string) (o : obj) : value :=
  match get_own k o with Some v => v | None => VUndefined end.

(** [o[k] = v]: an existing property keeps its position, a new one is
    appended. *)
Fixpoint set_prop (k : string) (v : value) (o : obj) : obj :=
  match o with
  | [] => [(k, v)]
  | (k', v') :: o' =>
      if (k' =? k)%string then (k', v) :: o' else (k', v') :: set_prop k v o'
  end.

(** [{...a, ...b}]: the properties of [a], then those of [b] assigned over
    them. *)
Definition assign_all (target source : obj) : obj :=
  fold_left (fun acc kv => set_prop (fst kv) (snd kv) acc) source target.

Definition spread (a b : obj) : obj := assign_all (assign_all [] a) b.

(** [const {k1, ..., kn, ...rest} = o]: the properties not named. *)
Definition rest_without (names : list string) (o : obj) : obj :=
  List.filter (fun kv => negb (existsb (String.eqb (fst kv)) names)) o.

(** Representation invariant: property names are unique, at every depth. *)
Fixpoint nodup_keys (ks : list string) : bool :=
  match ks with
  | [] => true
  | k :: ks' => negb (existsb (String.eqb k) ks') && nodup_keys ks'
  end.

Fixpoint wf_value (v : value) : bool :=
  match v with
  | VArr xs => forallb wf_value xs
  | VObj kvs => nodup_keys (map fst kvs) && forallb (fun kv => wf_value (snd kv)) kvs
  | _ => true
  end.

Definition wf_obj (o : obj) : bool := wf_value (VObj o).

(** ** Exceptions *)

Inductive exn : Type :=
| TypeError (msg : string)
| Error (msg : string).

Inductive result (A : Type) : Type :=
| Ok (a : A)
| Throw (e : exn).
Arguments Ok {A} a.
Arguments Throw {A} e.

(** ** fast-deep-equal *)

Section All2.
Context {A B : Type} (f : A -> B -> bool).
(** Index-wise comparison of two arrays, up to the shorter one. *)
Fixpoint all2 (xs : list A) (ys : list B) : bool :=
  match xs, ys with
  | x :: xs', y :: ys' => f x y && all2 xs' ys'
  | _, _ => true
  end.
End All2.

(** Deep structural equality of plain data: primitives by [===], arrays
    by length and index, objects by number of keys, presence of every key
    of [a] in [b], and recursively equal property values.  This is the
    relation that the specification calls deep-equal, and it is what
    [deepEqual(a, b)] computes on objects without own property
    [constructor], [valueOf] or [toString] ([fast_deep_equal_plain]
    below), such as the objects that [qs.parse] and [queryFromLocation]
    yield; the memo of the parser uses it as such.  The calls on args
    and on maps that callers build are modelled by [fast_deep_equal]. *)
Fixpoint deepEqual (a b : value) : bool :=
  match a, b with
  | VUndefined, VUndefined => true
  | VNull, VNull => true
  | VBool x, VBool y => Bool.eqb x y
  | VNum x, VNum y => (x =? y)%Z
  | VStr x, VStr y => (x =? y)%string
  | VArr xs, VArr ys =>
      (length xs =? length ys)%nat &&
      (fix elems (xs ys : list value) : bool :=
         match xs, ys with
         | x :: xs', y :: ys' => deepEqual x y && elems xs' ys'
         | _, _ => true
         end) xs ys
  | VObj xs, VObj ys =>
      (length xs =? length ys)%nat &&
      forallb (fun kv => has_own (fst kv) ys) xs &&
      forallb (fun kv => deepEqual (snd kv) (prop (fst kv) ys)) xs
  | _, _ => false
  end.

(** [a === b] for two values that are not one and the same object. *)
Definition strict_equal (a b : value) : bool :=
  match a, b with
  | VUndefined, VUndefined => true
  | VNull, VNull => true
  | VBool x, VBool y => Bool.eqb x y
  | VNum x, VNum y => (x =? y)%Z
  | VStr x, VStr y => (x =? y)%string
  | _, _ => false
  end.

(** [a.constructor === b.constructor] for two objects that are no arrays:
    an own property [constructor] hides the inherited [Object]. *)
Definition same_constructor (xs ys : obj) : bool :=
  match get_own "constructor" xs, get_own "constructor" ys with
  | None, None => true
  | Some x, Some y => strict_equal x y
  | _, _ => false
  end.

Section Equal.
(** The recursive call of [equal] on an element or a property value. *)
Variable equal : value -> value -> result bool.

(** [for (i = length; i-- !== 0;) if (!equal(a[i], b[i])) return false]:
    the elements are compared from the last to the first. *)
Fixpoint equal_items (xs ys : list value) : result bool :=
  match xs, ys with
  | x :: xs', y :: ys' =>
      match equal_items xs' ys' with
      | Ok true => equal x y
      | r => r
      end
  | _, _ => Ok true
  end.

(** The same loop over the keys of [a]. *)
Fixpoint equal_props (xs ys : obj) : result bool :=
  match xs with
  | kv :: xs' =>
      match equal_props xs' ys with
      | Ok true => equal (snd kv) (prop (fst kv) ys)
      | r => r
      end
  | [] => Ok true
  end.
End Equal.

(** [deepEqual(a, b)] of fast-deep-equal 3 on plain data.  Two objects
    that differ in their constructor are unequal; an object [a] with an
    own property [valueOf] or [toString] (which is data, not a function)
    makes the library call it, and throw; otherwise objects are compared
    key by key.  Objects met at the same place of [a] and [b] are taken
    to be two objects, so that the first test [a === b] decides on
    primitives only; where a handler compares an object with itself, the
    handler says so.  On values without own property [constructor],
    [valueOf] or [toString] the answer is that of [deepEqual], whether or
    not [a] and [b] share objects. *)
Fixpoint fast_deep_equal (a b : value) : result bool :=
  match a, b with
  | VArr xs, VArr ys =>
      if negb (length xs =? length ys)%nat then Ok false
      else equal_items fast_deep_equal xs ys
  | VObj xs, VObj ys =>
      if negb (same_constructor xs ys) then Ok false
      else if has_own "valueOf" xs
           then Throw (TypeError "a.valueOf is not a function")
      else if has_own "toString" xs
           then Throw (TypeError "a.toString is not a function")
      else if negb (length xs =? length ys)%nat then Ok false
      else if negb (forallb (fun kv => has_own (fst kv) ys) xs) then Ok false
      else equal_props fast_deep_equal xs ys
  | _, _ => Ok (strict_equal a b)
  end.

(** ** Strings *)

(** [s.split(c)] for a one-character separator. *)
Fixpoint split_on (c : ascii) (s : string) : list string :=
  match s with
  | EmptyString => [EmptyString]
  | String a s' =>
      if Ascii.eqb a c then EmptyString :: split_on c s'
      else match split_on c s' with
           | p :: ps => String a p :: ps
           | [] => [String a EmptyString]
           end
  end.

(** [s.replace(c, d)] for one-character strings: only the first occurrence
    is replaced. *)
Fixpoint replace_first (c d : ascii) (s : string) : string :=
  match s with
  | EmptyString => EmptyString
  | String a s' =>
      if Ascii.eqb a c then String d s' else String a (replace_first c d s')
  end.

(** [s.replace(/c/g, d)]. *)
Fixpoint replace_all (c d : ascii) (s : string) : string :=
  match s with
  | EmptyString => EmptyString
  | String a s' => String (if Ascii.eqb a c then d else a) (replace_all c d s')
  end.

(** [s.indexOf(c) > -1]. *)
Fixpoint contains (c : ascii) (s : string) : bool :=
  match s with
  | EmptyString => false
  | String a s' => Ascii.eqb a c || contains c s'
  end.

(** [s.indexOf(c)], [None] for [-1]. *)
Fixpoint index_of (c : ascii) (s : string) : option nat :=
  match s with
  | EmptyString => None
  | String a s' =>
      if Ascii.eqb a c then Some 0
      else match index_of c s' with Some i => Some (S i) | None => None end
  end.

(** [s.indexOf(c1 + c2)], [None] for [-1]. *)
Fixpoint index_of2 (c1 c2 : ascii) (s : string) : option nat :=
  match s with
  | EmptyString => None
  | String a s' =>
      if Ascii.eqb a c1 &&
         match s' with String b _ => Ascii.eqb b c2 | EmptyString => false end
      then Some 0
      else match index_of2 c1 c2 s' with Some i => Some (S i) | None => None end
  end.

(** [s.slice(0, n)] and [s.slice(n)]. *)
Fixpoint slice_to (n : nat) (s : string) : string :=
  match n, s with
  | S n', String a s' => String a (slice_to n' s')
  | _, _ => EmptyString
  end.

Fixpoint slice_from (n : nat) (s : string) : string :=
  match n, s with
  | S n', String _ s' => slice_from n' s'
  | _, _ => s
  end.

(** ** The [qs] library (6.9), as configured by [argsParseOptions] *)

(** [String(b)] for a boolean.  [String(n)] for a safe integer is its
    decimal notation, [pretty n]. *)
Definition string_of_bool (b : bool) : string := if b then "true" else "false".

(** The recursive worker of [qs.stringify] with [allowDots: true],
    [encode: false] and the default [indices] array format: the list of
    [key=value] pairs that the value stored under [prefix] contributes.
    [undefined] contributes nothing, [null] prints as the empty string, a
    primitive as [String(v)]; an array element is addressed as
    [prefix[i]], an object property as [prefix.key]. *)
Fixpoint stringify_value (prefix : string) (v : value) : list string :=
  match v with
  | VUndefined => []
  | VNull => [prefix +:+ "="]
  | VBool b => [prefix +:+ "=" +:+ string_of_bool b]
  | VNum n => [prefix +:+ "=" +:+ pretty n]
  | VStr s => [prefix +:+ "=" +:+ s]
  | VArr xs =>
      (fix elems (i : nat) (xs : list value) : list string :=
         match xs with
         | [] => []
         | x :: xs' =>
             stringify_value (prefix +:+ "[" +:+ pretty i +:+ "]") x ++ elems (S i) xs'
         end) 0%nat xs
  | VObj kvs =>
      flat_map (fun kv => stringify_value (prefix +:+ "." +:+ fst kv) (snd kv)) kvs
  end.

(** [qs.stringify(o, {allowDots: true, delimiter: ';', encode: false})]. *)
Definition qs_stringify (o : obj) : string :=
  String.concat ";" (flat_map (fun kv => stringify_value (fst kv) (snd kv)) o).

(** The own property names of [Object.prototype]; [qs.parse] drops a key
    with a segment that is one of them ([allowPrototypes] is off). *)
Definition object_prototype_names : list string :=
  [ "constructor"; "__defineGetter__"; "__defineSetter__"; "hasOwnProperty";
    "__lookupGetter__"; "__lookupSetter__"; "isPrototypeOf";
    "propertyIsEnumerable"; "toString"; "valueOf"; "__proto__";
    "toLocaleString" ].

(** [utils.combine(a, b)], i.e. [[].concat(a, b)]: how a repeated key
    collects its values. *)
Definition combine_values (a b : value) : value :=
  match a with
  | VArr xs => VArr (xs ++ [b])
  | _ => VArr [a; b]
  end.

(** *** [decodeURIComponent] *)

(** A string is the sequence of the bytes of its UTF-8 encoding.
    [decodeURIComponent] replaces every escape [%XX] by the byte it names
    and throws a [URIError] ([None]) when a [%] is not followed by two
    hexadecimal digits, or when the bytes named by consecutive escapes are
    not the UTF-8 encoding of a code point. *)
Definition hex_value (c : ascii) : option N :=
  let n := N_of_ascii c in
  if (48 <=? n)%N && (n <=? 57)%N then Some (n - 48)%N
  else if (65 <=? n)%N && (n <=? 70)%N then Some (n - 55)%N
  else if (97 <=? n)%N && (n <=? 102)%N then Some (n - 87)%N
  else None.

Inductive uri_token : Type :=
| Literal (c : ascii)
| Escape (byte : N).

Fixpoint uri_tokens (s : string) : option (list uri_token) :=
  match s with
  | EmptyString => Some []
  | String c rest =>
      if Ascii.eqb c "%" then
        match rest with
        | String h (String l rest') =>
            match hex_value h, hex_value l with
            | Some a, Some b => cons (Escape (16 * a + b)) <$> uri_tokens rest'
            | _, _ => None
            end
        | _ => None
        end
      else cons (Literal c) <$> uri_tokens rest
  end.

(** The escapes of a multi-byte character: [need] continuation bytes are
    still expected, the next one within [lo..hi] (the bounds exclude
    overlong forms, surrogates and code points above U+10FFFF). *)
Fixpoint well_formed_utf8 (need : nat) (lo hi : N) (ts : list uri_token) : bool :=
  match ts with
  | [] => (need =? 0)%nat
  | Literal _ :: ts' => (need =? 0)%nat && well_formed_utf8 0 128 191 ts'
  | Escape b :: ts' =>
      match need with
      | O =>
          if (b <? 128)%N then well_formed_utf8 0 128 191 ts'
          else if (194 <=? b)%N && (b <=? 223)%N then well_formed_utf8 1 128 191 ts'
          else if (b =? 224)%N then well_formed_utf8 2 160 191 ts'
          else if (b =? 237)%N then well_formed_utf8 2 128 159 ts'
          else if (225 <=? b)%N && (b <=? 239)%N then well_formed_utf8 2 128 191 ts'
          else if (b =? 240)%N then well_formed_utf8 3 144 191 ts'
          else if (241 <=? b)%N && (b <=? 243)%N then well_formed_utf8 3 128 191 ts'
          else if (b =? 244)%N then well_formed_utf8 3 128 143 ts'
          else false
      | S need' => (lo <=? b)%N && (b <=? hi)%N && well_formed_utf8 need' 128 191 ts'
      end
  end.

Definition token_char (t : uri_token) : ascii :=
  match t with Literal c => c | Escape b => ascii_of_N b end.

Definition decodeURIComponent (s : string) : option string :=
  ts ← uri_tokens s;
  if well_formed_utf8 0 128 191 ts
  then Some (string_of_list_ascii (map token_char ts)) else None.

(** The default decoder of [qs.parse] ([utils.decode]): [+] becomes a
    space, then [decodeURIComponent] is applied; when that throws, the
    string with its spaces is the result. *)
Definition qs_decode (s : string) : string :=
  let strWithoutPlus := replace_all "+" " " s in
  match decodeURIComponent strWithoutPlus with
  | Some decoded => decoded
  | None => strWithoutPlus
  end.

(** *** [parseValues] *)

(** One [key=value] part: the position of the separator is that of the
    first [=], or of the [=] of the first "]=" when there is one; a part
    without separator is a key with the empty string as value. *)
Definition parse_part (part : string) : string * value :=
  let pos :=
    match index_of2 "]" "=" part with
    | Some i => Some (S i)
    | None => index_of "=" part
    end in
  match pos with
  | None => (qs_decode part, VStr "")
  | Some p =>
      (qs_decode (slice_to p part), VStr (qs_decode (slice_from (S p) part)))
  end.

(** The parts are read from left to right into a temporary object; a key
    that comes again collects its values in an array.  Assigning a string
    to [obj['__proto__']] leaves the object as it is. *)
Fixpoint parse_values (parts : list string) (tempObj : obj) : obj :=
  match parts with
  | [] => tempObj
  | part :: parts' =>
      let (key, val) := parse_part part in
      parse_values parts'
        (if (key =? "__proto__")%string then tempObj
         else if has_own key tempObj
         then set_prop key (combine_values (prop key tempObj) val) tempObj
         else set_prop key val tempObj)
  end.

(** *** [Object.keys] of the temporary object *)

(** The value of a string of decimal digits. *)
Fixpoint digits_value (acc : N) (s : string) : option N :=
  match s with
  | EmptyString => Some acc
  | String c s' =>
      let n := N_of_ascii c in
      if (48 <=? n)%N && (n <=? 57)%N
      then digits_value (10 * acc + (n - 48))%N s' else None
  end.

(** A canonical numeric string: the decimal notation of a natural number,
    without leading zero. *)
Definition canonical_index (s : string) : option N :=
  match s with
  | EmptyString => None
  | String c s' =>
      if Ascii.eqb c "0" && negb (s' =? "")%string then None else digits_value 0 s
  end.

(** Property names that are array indices are enumerated first, in
    ascending order; the other names follow in insertion order. *)
Definition array_index (k : string) : option N :=
  match canonical_index k with
  | Some n => if (n <? 4294967295)%N then Some n else None
  | None => None
  end.

Definition is_array_index (k : string) : bool :=
  match array_index k with Some _ => true | None => false end.

Definition index_le (k1 k2 : string) : bool :=
  match array_index k1, array_index k2 with
  | Some a, Some b => (a <=? b)%N
  | _, _ => true
  end.

Fixpoint insert_indexed (kv : string * value) (l : obj) : obj :=
  match l with
  | [] => [kv]
  | kv' :: l' =>
      if index_le (fst kv) (fst kv') then kv :: l else kv' :: insert_indexed kv l'
  end.

Definition own_keys_order (o : obj) : obj :=
  fold_right insert_indexed [] (List.filter (fun kv => is_array_index (fst kv)) o)
  ++ List.filter (fun kv => negb (is_array_index (fst kv))) o.

(** *** [parseKeys] *)

(** [givenKey.replace(/\.([^.[]+)/g, '[$1]')] ([allowDots]): a dot that
    is followed by at least one character other than [.] and [[] opens a
    bracket, closed where the run of such characters ends.  [in_run] tells
    whether such a run is being read. *)
Definition ends_run (c : ascii) : bool := Ascii.eqb c "." || Ascii.eqb c "[".

Fixpoint dots_to_brackets (in_run : bool) (s : string) : string :=
  match s with
  | EmptyString => if in_run then "]" else ""
  | String c rest =>
      let outside :=
        if Ascii.eqb c "." then
          match rest with
          | String c' _ =>
              if ends_run c' then String "." (dots_to_brackets false rest)
              else String "[" (dots_to_brackets true rest)
          | EmptyString => String "." (dots_to_brackets false rest)
          end
        else String c (dots_to_brackets false rest) in
      if in_run then
        if ends_run c then String "]" outside
        else String c (dots_to_brackets true rest)
      else outside
  end.

(** The matches of [/(\[[^[\]]*])/g] in a key, with the text between
    them: [opened] holds what was read since the last [[] that may still
    start a match. *)
Inductive piece : Type :=
| Text (c : ascii)
| Segment (content : string).

Definition texts (s : string) : list piece := map Text (list_ascii_of_string s).

Fixpoint bracket_pieces (opened : option string) (s : string) : list piece :=
  match s with
  | EmptyString =>
      match opened with
      | Some read => Text "[" :: texts read
      | None => []
      end
  | String c rest =>
      match opened with
      | None =>
          if Ascii.eqb c "[" then bracket_pieces (Some "") rest
          else Text c :: bracket_pieces None rest
      | Some read =>
          if Ascii.eqb c "]" then Segment read :: bracket_pieces None rest
          else if Ascii.eqb c "[" then
            Text "[" :: texts read ++ bracket_pieces (Some "") rest
          else bracket_pieces (Some (read +:+ String c "")) rest
      end
  end.

Definition piece_text (p : piece) : string :=
  match p with
  | Text c => String c ""
  | Segment content => "[" +:+ content +:+ "]"
  end.

(** [key.slice(0, segment.index)] for the first match, the whole key when
    there is none. *)
Fixpoint parent_of (ps : list piece) : string :=
  match ps with
  | Text c :: ps' => String c (parent_of ps')
  | _ => EmptyString
  end.

Definition is_prototype_name (k : string) : bool :=
  existsb (String.eqb k) object_prototype_names.

(** The child segments, at most [depth] of them; what follows is kept as
    one last key.  [None]: a segment names a property of
    [Object.prototype], and the key is dropped. *)
Fixpoint child_keys (depth : nat) (ps : list piece) : option (list string) :=
  match ps with
  | [] => Some []
  | Text _ :: ps' => child_keys depth ps'
  | Segment content :: ps' =>
      match depth with
      | O => Some ["[" +:+ String.concat "" (map piece_text ps) +:+ "]"]
      | S depth' =>
          if is_prototype_name content then None
          else cons ("[" +:+ content +:+ "]") <$> child_keys depth' ps'
      end
  end.

(** *** [parseObject] *)

Fixpoint without_last (s : string) : string :=
  match s with
  | EmptyString => EmptyString
  | String c s' =>
      match s' with
      | EmptyString => EmptyString
      | _ => String c (without_last s')
      end
  end.

Fixpoint last_is (c : ascii) (s : string) : bool :=
  match s with
  | EmptyString => false
  | String a s' =>
      match s' with
      | EmptyString => Ascii.eqb a c
      | _ => last_is c s'
      end
  end.

(** [root.charAt(0) === '[' && root.charAt(root.length - 1) === ']'
     ? root.slice(1, -1) : root]. *)
Definition clean_root (root : string) : string :=
  match root with
  | String a inner =>
      if Ascii.eqb a "[" && last_is "]" inner then without_last inner else root
  | EmptyString => root
  end.

(** The array index that a bracketed segment names: a canonical numeric
    string up to [arrayLimit] (20). *)
Definition small_index (cleanRoot : string) : option nat :=
  match canonical_index cleanRoot with
  | Some n => if (n <=? 20)%N then Some (N.to_nat n) else None
  | None => None
  end.

(** The chain is wrapped around the leaf from its last segment to its
    first.  An array that was assigned at one index only has holes before
    it: a hole is an element [VUndefined] (no other element of an array is
    ever [undefined] here). *)
Fixpoint parse_object (chain : list string) (leaf : value) : value :=
  match chain with
  | [] => leaf
  | root :: chain' =>
      let leaf := parse_object chain' leaf in
      if (root =? "[]")%string then
        match leaf with VArr xs => VArr xs | _ => VArr [leaf] end
      else
        let cleanRoot := clean_root root in
        match small_index cleanRoot with
        | Some index =>
            if negb (root =? cleanRoot)%string
            then VArr (repeat VUndefined index ++ [leaf])
            else VObj [(cleanRoot, leaf)]
        | None => VObj [(cleanRoot, leaf)]
        end
  end.

(** [parseKeys]; [VUndefined] when the key is dropped. *)
Definition parse_keys (givenKey : string) (val : value) : value :=
  if (givenKey =? "")%string then VUndefined
  else
    let key := dots_to_brackets false givenKey in
    let ps := bracket_pieces None key in
    let parent := parent_of ps in
    if is_prototype_name parent then VUndefined
    else
      match child_keys 5 ps with
      | None => VUndefined
      | Some children =>
          parse_object ((if (parent =? "")%string then [] else [parent]) ++ children) val
      end.

(** *** [utils.merge] and [utils.compact] *)

Definition is_hole (v : value) : bool :=
  match v with VUndefined => true | _ => false end.

(** [x && typeof x === 'object']. *)
Definition is_object (v : value) : bool :=
  match v with VArr _ | VObj _ => true | _ => false end.

(** [has.call(array, i)]. *)
Definition has_index (i : nat) (xs : list value) : bool :=
  match nth_error xs i with
  | Some x => negb (is_hole x)
  | None => false
  end.

(** [array[i] = v]: the array grows, with holes, when [i] lies beyond its
    end. *)
Fixpoint set_index (i : nat) (v : value) (xs : list value) : list value :=
  match i, xs with
  | O, [] => [v]
  | O, _ :: xs' => v :: xs'
  | S i', [] => VUndefined :: set_index i' v []
  | S i', x :: xs' => x :: set_index i' v xs'
  end.

(** [String(v)] for a primitive. *)
Definition to_string (v : value) : string :=
  match v with
  | VStr s => s
  | VBool b => string_of_bool b
  | VNum n => pretty n
  | VNull => "null"
  | _ => "undefined"
  end.

(** [utils.arrayToObject]. *)
Definition arrayToObject (xs : list value) : obj :=
  (fix each (i : nat) (xs : list value) : obj :=
     match xs with
     | [] => []
     | x :: xs' =>
         if is_hole x then each (S i) xs' else (pretty i, x) :: each (S i) xs'
     end) 0%nat xs.

Section Merge.
(** The recursive call of [merge] on an item of the source. *)
Variable merge : value -> value -> value.

(** [source.forEach] over an array source, into an array target: holes
    are skipped; an occupied index merges two objects and otherwise pushes
    the item; a free index is assigned. *)
Fixpoint merge_items (i : nat) (items ts : list value) : list value :=
  match items with
  | [] => ts
  | item :: items' =>
      merge_items (S i) items'
        (if is_hole item then ts
         else if has_index i ts then
           let targetItem := nth i ts VUndefined in
           if is_object targetItem && is_object item
           then set_index i (merge targetItem item) ts
           else ts ++ [item]
         else set_index i item ts)
  end.

(** [Object.keys(source).reduce] over an array source, into an object. *)
Fixpoint merge_indices (i : nat) (items : list value) (acc : obj) : obj :=
  match items with
  | [] => acc
  | item :: items' =>
      merge_indices (S i) items'
        (if is_hole item then acc
         else if has_own (pretty i) acc
         then set_prop (pretty i) (merge (prop (pretty i) acc) item) acc
         else set_prop (pretty i) item acc)
  end.

(** [Object.keys(source).reduce] over an object source. *)
Fixpoint merge_props (skvs : obj) (acc : obj) : obj :=
  match skvs with
  | [] => acc
  | kv :: skvs' =>
      merge_props skvs'
        (if has_own (fst kv) acc
         then set_prop (fst kv) (merge (prop (fst kv) acc) (snd kv)) acc
         else set_prop (fst kv) (snd kv) acc)
  end.
End Merge.

(** [utils.merge(target, source)]. *)
Fixpoint merge (target source : value) {struct source} : value :=
  if negb (truthy source) then target
  else
    match source with
    | VArr items =>
        match target with
        | VArr ts => VArr (merge_items merge 0 items ts)
        | VObj tkvs => VObj (merge_indices merge 0 items tkvs)
        | _ => VArr (target :: items)
        end
    | VObj skvs =>
        match target with
        | VArr ts => VObj (merge_props merge skvs (arrayToObject ts))
        | VObj tkvs => VObj (merge_props merge skvs tkvs)
        | _ => VArr [target; source]
        end
    | _ =>
        match target with
        | VArr ts => VArr (ts ++ [source])
        | VObj tkvs =>
            if is_prototype_name (to_string source) then target
            else VObj (set_prop (to_string source) (VBool true) tkvs)
        | _ => VArr [target; source]
        end
    end.

(** [utils.compact]: the holes of every array are removed. *)
Fixpoint compact (v : value) : value :=
  match v with
  | VArr xs =>
      VArr ((fix each (xs : list value) : list value :=
               match xs with
               | [] => []
               | x :: xs' => if is_hole x then each xs' else compact x :: each xs'
               end) xs)
  | VObj kvs => VObj (map (fun kv => (fst kv, compact (snd kv))) kvs)
  | _ => v
  end.

(** [qs.parse(str, {allowDots: true, delimiter: ';'})]: at most 1000
    parts ([parameterLimit]) are read. *)
Definition qs_parse (str : string) : obj :=
  if (str =? "")%string then []
  else
    let tempObj := parse_values (firstn 1000 (split_on ";" str)) [] in
    let obj :=
      fold_left (fun obj kv => merge obj (parse_keys (fst kv) (snd kv)))
                (own_keys_order tempObj) (VObj []) in
    match compact obj with
    | VObj o => o
    | _ => []
    end.

(** ** ArgsCodec: [parseArgs] and [stringifyArgs] *)

Definition parseArgs (argsString : string) : obj :=
  qs_parse (String.concat ";" (map (replace_first ":" "=") (split_on ";" argsString))).

Definition stringifyArgs (args : obj) : string :=
  String.concat ";" (map (replace_first "=" ":") (split_on ";" (qs_stringify args))).

(** ** QueryLocationParser: [initialUrlSupport] *)

(** The [Additions] that the parser fills in ([selectedPanel] and
    [viewMode] of the interface are never assigned on [addition]). *)
Record Additions : Type := mkAdditions {
  isFullscreen : option bool;
  showPanel : option bool;
  panelPosition : option value;
  showNav : option bool
}.

Definition no_additions : Additions := mkAdditions None None None None.

Definition set_isFullscreen (b : bool) (a : Additions) : Additions :=
  mkAdditions (Some b) (showPanel a) (panelPosition a) (showNav a).
Definition set_showPanel (b : bool) (a : Additions) : Additions :=
  mkAdditions (isFullscreen a) (Some b) (panelPosition a) (showNav a).
Definition set_panelPosition (p : value) (a : Additions) : Additions :=
  mkAdditions (isFullscreen a) (showPanel a) (Some p) (showNav a).
Definition set_showNav (b : bool) (a : Additions) : Additions :=
  mkAdditions (isFullscreen a) (showPanel a) (panelPosition a) (Some b).

(** The keys that the destructuring of [query] names; every other key goes
    to [otherParams]. *)
Definition known_keys : list string :=
  [ "full"; "panel"; "nav"; "addons"; "panelRight"; "stories"; "addonPanel";
    "selectedKind"; "selectedStory"; "path" ].

(** Lines 82-105: the layout rules, in source order. *)
Definition layout_of (query : obj) : Additions :=
  let full := prop "full" query in
  let panel := prop "panel" query in
  let nav := prop "nav" query in
  let addons := prop "addons" query in
  let panelRight := prop "panelRight" query in
  let stories := prop "stories" query in
  let addition := no_additions in
  let addition :=
    if is_str full "1" then set_isFullscreen true addition else addition in
  let addition :=
    if truthy panel then
      if is_str panel "right" || is_str panel "bottom"
      then set_panelPosition panel addition
      else if is_str panel "0" then set_showPanel false addition
      else addition
    else addition in
  let addition :=
    if is_str nav "0" then set_showNav false addition else addition in
  (* Legacy URLs *)
  let addition :=
    if is_str addons "0" then set_showPanel false addition else addition in
  let addition :=
    if is_str panelRight "1"
    then set_panelPosition (VStr "right") addition else addition in
  let addition :=
    if is_str stories "0" then set_showNav false addition else addition in
  addition.

(** An object together with its identity: [addr] is the allocation that
    created it.  The module never mutates a passthrough map, so the
    content travels with the reference. *)
Record objref : Type := mkRef { addr : nat; content : obj }.

(** The module-level [let prevParams] and the allocator of fresh objects. *)
Record ParserState : Type := mkParserState {
  prevParams : option objref;
  next_addr : nat
}.

Section Parser.
(** External collaborators: [queryFromLocation] of the router package,
    [toId] and [sanitize] of the csf package (either may throw). *)
Variable Location : Type.
Variable queryFromLocation : Location -> obj.
Variable toId : value -> value -> result string.
Variable sanitize : value -> result string.

(** The [state] part of [ModuleArgs] that [initialUrlSupport] reads. *)
Record UrlInput : Type := mkUrlInput {
  in_location : Location;
  in_path : value;
  in_viewMode : value;
  in_storyId : value
}.

Record InitialState : Type := mkInitialState {
  viewMode : value;
  layout : Additions;
  selectedPanel : value;
  location : Location;
  path : value;
  customQueryParams : objref;
  storyId : value
}.

(** Lines 113-120: identifier resolution. *)
Definition resolve_storyId (storyIdFromUrl selectedKind selectedStory : value)
  : result value :=
  if negb (truthy storyIdFromUrl) then
    if truthy selectedKind && truthy selectedStory then
      match toId selectedKind selectedStory with
      | Ok id => Ok (VStr id)
      | Throw e => Throw e
      end
    else if truthy selectedKind then
      match sanitize selectedKind with
      | Ok id => Ok (VStr id)
      | Throw e => Throw e
      end
    else Ok storyIdFromUrl
  else Ok storyIdFromUrl.

(** Lines 123-124: the single-slot memo.  [otherParams] is a fresh
    object, so [deepEqual] never succeeds by identity; with [prevParams]
    still [undefined] it fails. *)
Definition memoize (prev : option objref) (otherParams : objref) : objref :=
  match prev with
  | Some p =>
      if deepEqual (VObj (content p)) (VObj (content otherParams))
      then p else otherParams
  | None => otherParams
  end.

Definition initialUrlSupport (st : ParserState) (i : UrlInput)
  : result InitialState * ParserState :=
  let query := queryFromLocation (in_location i) in
  let addonPanel := prop "addonPanel" query in
  let selectedKind := prop "selectedKind" query in
  let selectedStory := prop "selectedStory" query in
  let otherParams := mkRef (next_addr st) (rest_without known_keys query) in
  let st := mkParserState (prevParams st) (S (next_addr st)) in
  let addition := layout_of query in
  let selectedPanel := if truthy addonPanel then addonPanel else VUndefined in
  match resolve_storyId (in_storyId i) selectedKind selectedStory with
  | Throw e => (Throw e, st)
  | Ok storyId =>
      let customQueryParams := memoize (prevParams st) otherParams in
      (Ok (mkInitialState (in_viewMode i) addition selectedPanel
             (in_location i) (in_path i) customQueryParams storyId),
       mkParserState (Some customQueryParams) (next_addr st))
  end.
End Parser.

Arguments mkUrlInput {Location}.
Arguments in_location {Location}.
Arguments in_path {Location}.
Arguments in_viewMode {Location}.
Arguments in_storyId {Location}.
Arguments viewMode {Location}.
Arguments layout {Location}.
Arguments selectedPanel {Location}.
Arguments location {Location}.
Arguments path {Location}.
Arguments customQueryParams {Location}.
Arguments storyId {Location}.

(** ** QueryParamStore, NavigationBridge and ArgsSyncEngine: [init] *)

(** Calls that leave the module. *)
Inductive effect : Type :=
| SetState (customQueryParams : obj)
    (* store.setState({ customQueryParams: update }) *)
| NavigateRouter (url options : value)
    (* navigate of the routing library *)
| QueryNavigate (url : string) (replace : bool)
    (* navigate of the router package, with { replace } *)
| UpdateStoryArgs (id : string) (args : obj)
    (* fullAPI.updateStoryArgs(data, args) *)
| Navigate (to : string).
    (* navigate of ModuleArgs *)

(** What a handler reads and writes: the store fields [customQueryParams]
    and [path] (the only field of [getUrlState()] that a handler uses),
    and the [initialArgs] record of [initModule].  A baseline entry holds
    an args object or [undefined].  [store.setState] is taken to have
    updated the store when the next call reads it. *)
Record State : Type := mkState {
  store_customQueryParams : option obj;
  store_path : string;
  initialArgs : gmap string (option obj)
}.

(** [fullAPI.getCurrentStoryData()]: a story with its args, or another kind
    of item; [isStory] of [lib/stories] decides which, and its verdict is
    carried by the item.  [args] is only read on a story. *)
Record Item : Type := mkItem {
  id : string;
  isStory : bool;
  args : obj
}.

(** The outcome of running a handler or an API call: the state it leaves,
    the calls it made, and the exception it ended with, if any. *)
Record Outcome : Type := mkOutcome {
  out_state : State;
  out_effects : list effect;
  out_thrown : option exn
}.

(** [api.getQueryParam(key)].  (For a key that is not stored and names a
    member of [Object.prototype], the code reads that member.) *)
Definition getQueryParam (st : State) (key : string) : value :=
  match store_customQueryParams st with
  | Some customQueryParams => prop key customQueryParams
  | None => VUndefined
  end.

(** The reducer of [setQueryParams]: entries whose value is [null] are
    skipped.  [acc[key] = value] writes a property of [acc] for every key
    but [__proto__], which the properties about this reducer leave out. *)
Definition non_null_entries (input : obj) : obj :=
  fold_left
    (fun acc kv => match snd kv with
                   | VNull => acc
                   | v => set_prop (fst kv) v acc
                   end)
    input [].

(** [{...customQueryParams}] where [customQueryParams] may be [undefined]. *)
Definition stored_entries (st : State) : obj :=
  match store_customQueryParams st with Some o => o | None => [] end.

Definition stored_value (st : State) : value :=
  match store_customQueryParams st with Some o => VObj o | None => VUndefined end.

(** [api.setQueryParams(input)]; an exception of [deepEqual] leaves the
    call before anything is committed.  The values that [update] takes
    from the stored map are the stored values themselves; on plain values,
    which the properties of this call assume, [deepEqual] answers the same
    for a value and for a copy of it. *)
Definition setQueryParams (st : State) (input : obj) : Outcome :=
  let update := spread (stored_entries st) (non_null_entries input) in
  match fast_deep_equal (stored_value st) (VObj update) with
  | Throw e => mkOutcome st [] (Some e)
  | Ok equal =>
      if negb equal
      then mkOutcome (mkState (Some update) (store_path st) (initialArgs st))
                     [SetState update] None
      else mkOutcome st [] None
  end.

(** [api.navigateUrl(url, options)]. *)
Definition navigateUrl (st : State) (url options : value) : Outcome :=
  mkOutcome st [NavigateRouter url options] None.

(** [initialArgs[id]]: [undefined] for an id that was never written.
    (An id that names a member of [Object.prototype] would read that
    member; no identifier that [toId] builds does.) *)
Definition baseline (st : State) (id : string) : option obj :=
  match initialArgs st !! id with
  | Some b => b
  | None => None
  end.

(** [initialArgs[id][key]]: reading a property of [undefined] throws. *)
Definition baseline_prop (b : option obj) (key : string) : result value :=
  match b with
  | Some o => Ok (prop key o)
  | None => Throw (TypeError "Cannot read property of undefined")
  end.

(** The reducer shared by the two diffing handlers:
    [if (!deepEqual(value, initialArgs[id][key])) acc[key] = value].
    The current value is the first argument of [deepEqual].  The write is
    a property write for every key but [__proto__]. *)
Fixpoint customized (entries : obj) (b : option obj) (acc : obj) : result obj :=
  match entries with
  | [] => Ok acc
  | (key, v) :: entries' =>
      match baseline_prop b key with
      | Throw e => Throw e
      | Ok bv =>
          match fast_deep_equal v bv with
          | Throw e => Throw e
          | Ok equal =>
              customized entries' b (if negb equal then set_prop key v acc else acc)
          end
      end
  end.

(** Lines 205-207 and 217-219: encode the diff and replace the location. *)
Definition navigate_with (st : State) (customizedArgs : obj) : effect :=
  let argsString := stringifyArgs customizedArgs in
  let argsParam :=
    if (String.length argsString =? 0)%nat then "" else "&args=" +:+ argsString in
  QueryNavigate (store_path st +:+ argsParam) true.

Definition storyArgs_of (data : Item) : option obj :=
  if isStory data then Some (args data) else None.

(** The [SET_STORIES] handler. *)
Definition on_SET_STORIES (st : State) (data : Item) : Outcome :=
  let storyArgs := storyArgs_of data in
  let st := mkState (store_customQueryParams st) (store_path st)
                    (<[id data := storyArgs]> (initialArgs st)) in
  let queryArgs :=
    let q := getQueryParam st "args" in if truthy q then q else VStr "" in
  match queryArgs with
  | VStr argsString =>
      let args := parseArgs argsString in
      mkOutcome st
        [UpdateStoryArgs (id data)
           (match storyArgs with
            | Some sa => spread sa args
            | None => args
            end)]
        None
  | _ => mkOutcome st [] (Some (TypeError "argsString.split is not a function"))
  end.

(** The [SET_CURRENT_STORY] handler.  When the call itself captures the
    baseline, [initialArgs[data.id]] is the object [storyArgs]: the
    reducer compares every value with itself, [deepEqual] answers [true]
    on its first test ([a === b]), and nothing is customized. *)
Definition on_SET_CURRENT_STORY (st : State) (data : Item) : Outcome :=
  let storyArgs := storyArgs_of data in
  let captured := baseline st (id data) in
  let kept :=
    match captured with
    | Some b => Some b
    | None => storyArgs
    end in
  let st := mkState (store_customQueryParams st) (store_path st)
                    (<[id data := kept]> (initialArgs st)) in
  let customizedArgs :=
    match captured with
    | Some _ =>
        customized (match storyArgs with Some sa => sa | None => [] end)
                   (baseline st (id data)) []
    | None => Ok []
    end in
  match customizedArgs with
  | Throw e => mkOutcome st [] (Some e)
  | Ok customizedArgs => mkOutcome st [navigate_with st customizedArgs] None
  end.

(** The [STORY_ARGS_UPDATED] handler. *)
Definition on_STORY_ARGS_UPDATED (st : State) (storyId : string) (args : obj)
  : Outcome :=
  match customized args (baseline st storyId) [] with
  | Throw e => mkOutcome st [] (Some e)
  | Ok customizedArgs => mkOutcome st [navigate_with st customizedArgs] None
  end.

(** The events [initModule] subscribes to, with what the handler reads
    from its environment when it runs. *)
Inductive event : Type :=
| NAVIGATE_URL (url options : value)
| SET_STORIES (data : Item)
| SET_CURRENT_STORY (data : Item)
| STORY_ARGS_UPDATED (storyId : string) (args : obj).

Definition handle (st : State) (e : event) : Outcome :=
  match e with
  | NAVIGATE_URL url options => navigateUrl st url options
  | SET_STORIES data => on_SET_STORIES st data
  | SET_CURRENT_STORY data => on_SET_CURRENT_STORY st data
  | STORY_ARGS_UPDATED storyId args => on_STORY_ARGS_UPDATED st storyId args
  end.

(** A session: events are handled one after the other; an exception ends
    one handler, not the session. *)
Definition run (st : State) (es : list event) : State :=
  fold_left (fun st e => out_state (handle st e)) es st.

(** [initModule]: [initialArgs] starts empty; the release notes are shown
    when asked for. *)
Definition initModule (customQueryParams : option obj) (path : string)
    (showReleaseNotesOnLaunch : bool) : Outcome :=
  mkOutcome (mkState customQueryParams path ∅)
            (if showReleaseNotesOnLaunch then [Navigate "/settings/release-notes"] else [])
            None.

(** ** Vocabulary of the specification *)

(** [s] contains none of the characters [cs]. *)
Definition free_of (cs : list ascii) (s : string) : bool :=
  forallb (fun c => negb (contains c s)) cs.

(** The args maps on which the codec round-trips: at most 1000 entries
    ([parameterLimit]); keys that are non-empty, are not a property name of
    [Object.prototype] and contain neither a delimiter of the fragment
    ([;], [:], [=]), nor a nesting character ([.], [[], []]), nor a
    character the decoder rewrites ([+], [%]); values that are strings
    free of [;], [+] and [%] and of the sequence "]=". *)
Definition codec_safe_key (k : string) : bool :=
  negb (k =? "")%string
  && free_of [";"; ":"; "="; "."; "["; "]"; "+"; "%"]%char k
  && negb (existsb (String.eqb k) object_prototype_names).

Definition codec_safe_value (v : value) : bool :=
  match v with
  | VStr s =>
      free_of [";"; "+"; "%"]%char s
      && match index_of2 "]" "=" s with None => true | Some _ => false end
  | _ => false
  end.

Definition codec_safe (a : obj) : bool :=
  (length a <=? 1000)%nat
  && nodup_keys (map fst a)
  && forallb (fun kv => codec_safe_key (fst kv) && codec_safe_value (snd kv)) a.






Definition safe_entry (kv : string * value) : Prop :=
  codec_safe_key (fst kv) = true /\ codec_safe_value (snd kv) = true.

(** Stand-ins for the external collaborators of the parser, to run it on
    examples: a location that is its own query object, and identifier
    functions that join their arguments unchanged. *)
Definition query_itself (query : obj) : obj := query.

Definition join_toId (kind name : value) : result string :=
  match kind, name with
  | VStr k, VStr n => Ok (k +:+ "--" +:+ n)
  | _, _ => Throw (TypeError "string.toLowerCase is not a function")
  end.

Definition join_sanitize (kind : value) : result string :=
  match kind with
  | VStr k => Ok k
  | _ => Throw (TypeError "string.toLowerCase is not a function")
  end.

(** [v === null]. *)
Definition is_null (v : value) : bool :=
  match v with VNull => true | _ => false end.

(** The entry is not deep-equal to its baseline. *)
Definition differs (b : obj) (kv : string * value) : bool :=
  negb (deepEqual (snd kv) (prop (fst kv) b)).

(** The location that [navigate_with] asks for, given the fragment. *)
Definition target_url (path fragment : string) : string :=
  if (fragment =? "")%string then path else path +:+ "&args=" +:+ fragment.



(** ** Vocabulary of the further properties *)

(** What the memo slot holds between two calls of the parser: nothing, or
    a well-formed map without any of the keys the parser recognises. *)
Definition memo_inv (st : ParserState) : Prop :=
  match prevParams st with
  | Some p =>
      wf_obj (content p) = true
      /\ forall k, In k known_keys -> has_own k (content p) = false
  | None => True
  end.

(** The parser called on one location after the other; the memo is
    threaded from call to call. *)
Fixpoint parse_all {Location : Type} (queryFromLocation : Location -> obj)
    (toId : value -> value -> result string) (sanitize : value -> result string)
    (st : ParserState) (inputs : list (UrlInput Location))
  : list (result (InitialState Location)) :=
  match inputs with
  | [] => []
  | i :: inputs' =>
      let out := initialUrlSupport Location queryFromLocation toId sanitize st i in
      fst out :: parse_all queryFromLocation toId sanitize (snd out) inputs'
  end.

(** The string that the codec gives back for a primitive: what
    [qs.stringify] printed for it. *)
Definition printed (v : value) : value :=
  match v with
  | VNull => VStr ""
  | VBool b => VStr (string_of_bool b)
  | VNum n => VStr (pretty n)
  | _ => v
  end.

Definition as_decoded (a : obj) : obj :=
  map (fun kv => (fst kv, printed (snd kv))) a.

(** A request of the handlers: a replacing navigation to [path], bare or
    followed by a non-empty args fragment.  Other effects are not
    constrained. *)
Definition replaces_within (path : string) (eff : effect) : Prop :=
  match eff with
  | QueryNavigate url replace =>
      replace = true
      /\ (url = path
          \/ exists fragment, fragment <> "" /\ url = path +:+ "&args=" +:+ fragment)
  | _ => True
  end.

(** ** Vocabulary of the codec on nested values *)

(** A step below a top-level key: into a property or into an array
    element. *)
Inductive step : Type :=
| Key (k : string)
| Index (i : nat).

(** How [qs.stringify] writes a step, and the path to a leaf. *)
Definition step_text (s : step) : string :=
  match s with
  | Key k => "." +:+ k
  | Index i => "[" +:+ pretty i +:+ "]"
  end.

Fixpoint steps_text (p : list step) : string :=
  match p with
  | [] => ""
  | s :: p' => step_text s +:+ steps_text p'
  end.

(** The same step in bracket notation. *)
Definition step_name (s : step) : string :=
  match s with
  | Key k => k
  | Index i => pretty i
  end.

Definition under (s : step) (ps : list (list step * string))
  : list (list step * string) :=
  map (fun p => (s :: fst p, snd p)) ps.

Section Leaves.
Variable leaves : value -> list (list step * string).

Fixpoint leaves_elems (i : nat) (xs : list value) : list (list step * string) :=
  match xs with
  | [] => []
  | x :: xs' => under (Index i) (leaves x) ++ leaves_elems (S i) xs'
  end.

Definition leaves_props (kvs : obj) : list (list step * string) :=
  flat_map (fun kv => under (Key (fst kv)) (leaves (snd kv))) kvs.
End Leaves.

(** The pairs that [qs.stringify] prints for a value: the path to each
    primitive other than [undefined], with the text of the primitive. *)
Fixpoint leaves (v : value) : list (list step * string) :=
  match v with
  | VUndefined => []
  | VNull => [([], "")]
  | VBool b => [([], string_of_bool b)]
  | VNum n => [([], pretty n)]
  | VStr s => [([], s)]
  | VArr xs => leaves_elems leaves 0 xs
  | VObj kvs => leaves_props leaves kvs
  end.

(** What [parseObject] builds for the steps of one pair. *)
Fixpoint chain_value (p : list step) (leaf : value) : value :=
  match p with
  | [] => leaf
  | Key k :: p' => VObj [(k, chain_value p' leaf)]
  | Index i :: p' => VArr (repeat VUndefined i ++ [chain_value p' leaf])
  end.

(** One pair merged into what the pairs before it built. *)
Definition graft (acc : value) (p : list step * string) : value :=
  merge acc (chain_value (fst p) (VStr (snd p))).

(** Strings in non-empty arrays and non-empty objects with unique keys. *)
Fixpoint string_tree (v : value) : bool :=
  match v with
  | VStr _ => true
  | VArr xs => negb (length xs =? 0)%nat && forallb string_tree xs
  | VObj kvs =>
      negb (length kvs =? 0)%nat && nodup_keys (map fst kvs)
      && forallb (fun kv => string_tree (snd kv)) kvs
  | _ => false
  end.

(** The text of a path from the top of an args map: the top-level key,
    then the steps. *)
Definition path_text (p : list step) : string :=
  match p with
  | Key k :: p' => k +:+ steps_text p'
  | _ => steps_text p
  end.

(** A printed pair, with [sep] between path and value. *)
Definition pair_text (sep : ascii) (p : list step * string) : string :=
  path_text (fst p) +:+ String sep (snd p).

(** What [parseValues] stores for a pair. *)
Definition pair_entry (p : list step * string) : string * value :=
  (path_text (fst p), VStr (snd p)).

(** The steps in bracket notation. *)
Fixpoint brackets_text (p : list step) : string :=
  match p with
  | [] => ""
  | s :: p' => "[" +:+ step_name s +:+ "]" +:+ brackets_text p'
  end.

(** Strings on which the codec round-trips: free of [;] and of the
    sequence "]=", and left as they are by the decoder (no [+], and no [%]
    unless [decodeURIComponent] rejects the string). *)
Definition codec_safe_string (s : string) : bool :=
  negb (contains ";" s) && (qs_decode s =? s)%string
  && match index_of2 "]" "=" s with None => true | Some _ => false end.

(** Values below a top-level key on which the codec round-trips: strings,
    in arrays of 1 to 21 elements ([arrayLimit]) and in non-empty objects,
    nested at most [depth] levels; the keys of a nested object are unique,
    are safe keys, and are no array index up to 20. *)
Fixpoint codec_safe_nested (depth : nat) (v : value) : bool :=
  match v with
  | VStr s => codec_safe_string s
  | VArr xs =>
      match depth with
      | O => false
      | S depth' =>
          negb (length xs =? 0)%nat && (length xs <=? 21)%nat
          && forallb (codec_safe_nested depth') xs
      end
  | VObj kvs =>
      match depth with
      | O => false
      | S depth' =>
          negb (length kvs =? 0)%nat && nodup_keys (map fst kvs)
          && forallb (fun kv =>
                        codec_safe_key (fst kv)
                        && match small_index (fst kv) with None => true | Some _ => false end
                        && codec_safe_nested depth' (snd kv)) kvs
      end
  | _ => false
  end.

(** The args maps on which the codec round-trips: at most 1000 strings in
    all ([parameterLimit]), under unique safe top-level keys, nested at
    most five levels below them ([depth]). *)
Definition codec_safe_args (a : obj) : bool :=
  (length (flat_map (fun kv => stringify_value (fst kv) (snd kv)) a) <=? 1000)%nat
  && nodup_keys (map fst a)
  && forallb (fun kv => codec_safe_key (fst kv) && codec_safe_nested 5 (snd kv)) a.

(** An entry that [Object.keys] of the temporary object moves to the
    front: a string under an array index. *)
Definition is_flat_index (kv : string * value) : bool :=
  is_array_index (fst kv) && negb (is_object (snd kv)).

(** The order in which the entries of an args map are read back. *)
Definition read_order (a : obj) : obj :=
  fold_right insert_indexed [] (List.filter is_flat_index a)
  ++ List.filter (fun kv => negb (is_flat_index kv)) a.


(** What is known of a name on a path that the codec reads back:
    it is not empty, holds none of the characters that the fragment or
    [qs] give a meaning to, and names no property of
    [Object.prototype]. *)
Definition name_ok (n : string) : Prop :=
  n <> "" /\ free_of [";"; ":"; "="; "."; "["; "]"; "+"; "%"]%char n = true
  /\ is_prototype_name n = false.

(** A step that is read back as it was written: a property name that is
    no array index up to 20, or such an index. *)
Definition step_ok (s : step) : Prop :=
  name_ok (step_name s)
  /\ match s with
     | Key k => small_index k = None
     | Index i => small_index (pretty i) = Some i
     end.

Definition leaf_ok (s : string) : Prop :=
  contains ";" s = false /\ qs_decode s = s /\ index_of2 "]" "=" s = None.

Definition steps_ok (depth : nat) (p : list step * string) : Prop :=
  Forall step_ok (fst p) /\ (length (fst p) <= depth)%nat /\ leaf_ok (snd p).

(** A pair of a map that round-trips. *)
Definition pair_ok (p : list step * string) : Prop :=
  exists top steps,
    fst p = Key top :: steps /\ name_ok top /\ Forall step_ok steps
    /\ (length steps <= 5)%nat /\ leaf_ok (snd p).

Definition entry_ok (kv : string * value) : Prop :=
  name_ok (fst kv) /\ codec_safe_nested 5 (snd kv) = true.

(** ** Vocabulary of the comparisons *)


Definition is_primitive (v : value) : bool :=
  match v with VArr _ | VObj _ => false | _ => true end.

(** The property names on which fast-deep-equal departs from a comparison
    key by key. *)
Definition compared_names : list string := ["constructor"; "valueOf"; "toString"].

(** No object inside the value owns a property named [constructor],
    [valueOf] or [toString]. *)
Fixpoint plain_value (v : value) : bool :=
  match v with
  | VArr xs => forallb plain_value xs
  | VObj kvs =>
      forallb (fun kv => negb (existsb (String.eqb (fst kv)) compared_names)
                         && plain_value (snd kv)) kvs
  | _ => true
  end.

(** Args whose values are plain. *)
Definition plain_args (o : obj) : bool :=
  forallb (fun kv => plain_value (snd kv)) o.

(** A map whose values are plain and whose own property [constructor],
    if it has one, is a primitive.  The map itself may own [valueOf] or
    [toString]. *)
Definition plain_map (o : obj) : bool :=
  forallb (fun kv => plain_value (snd kv)
                     && (negb (fst kv =? "constructor")%string
                         || is_primitive (snd kv))) o.

(** The numbers of the value are safe integers: those that a double
    holds exactly and that [String(n)] prints in decimal notation. *)
Fixpoint safe_numbers (v : value) : bool :=
  match v with
  | VNum n => (Z.abs n <? 2 ^ 53)%Z
  | VArr xs => forallb safe_numbers xs
  | VObj kvs => forallb (fun kv => safe_numbers (snd kv)) kvs
  | _ => true
  end.


(** * Properties *)

(** ** Objects and deep equality *)

Lemma deepEqual_arr xs ys :
  deepEqual (VArr xs) (VArr ys)
  = (length xs =? length ys)%nat && all2 deepEqual xs ys.
Proof. reflexivity. Qed.

Lemma deepEqual_obj xs ys :
  deepEqual (VObj xs) (VObj ys)
  = (length xs =? length ys)%nat
    && forallb (fun kv => has_own (fst kv) ys) xs
    && forallb (fun kv => deepEqual (snd kv) (prop (fst kv) ys)) xs.
Proof. reflexivity. Qed.

Lemma existsb_eqb_In (k : string) (ks : list string) :
  existsb (String.eqb k) ks = true <-> In k ks.
Proof.
  rewrite existsb_exists. split.
  - intros (x & Hin & Heq). apply String.eqb_eq in Heq. now subst.
  - intros Hin. exists k. split; [assumption | apply String.eqb_refl].
Qed.

Lemma nodup_keys_NoDup (ks : list string) :
  nodup_keys ks = true <-> List.NoDup ks.
Proof.
  induction ks as [|k ks IH]; simpl.
  - split; [constructor | reflexivity].
  - rewrite andb_true_iff, negb_true_iff, IH. split.
    + intros [Hk Hks]. constructor; [|assumption].
      intros Hin. apply existsb_eqb_In in Hin. congruence.
    + intros Hnd. inversion Hnd as [|? ? Hk Hks]; subst. split; [|assumption].
      destruct (existsb (String.eqb k) ks) eqn:E; [|reflexivity].
      apply existsb_eqb_In in E. contradiction.
Qed.

Lemma has_own_get (k : string) (o : obj) :
  has_own k o = match get_own k o with Some _ => true | None => false end.
Proof.
  induction o as [|[k' v] o IH]; simpl; [reflexivity|].
  destruct (k' =? k)%string; [reflexivity | exact IH].
Qed.

Lemma get_own_In (k : string) (v : value) (o : obj) :
  get_own k o = Some v -> In (k, v) o.
Proof.
  induction o as [|[k' v'] o IH]; simpl; [discriminate|].
  destruct (k' =? k)%string eqn:E.
  - apply String.eqb_eq in E. intros [= ->]. subst. now left.
  - intros H. right. auto.
Qed.

Lemma In_get_own (k : string) (v : value) (o : obj) :
  List.NoDup (map fst o) -> In (k, v) o -> get_own k o = Some v.
Proof.
  induction o as [|[k' v'] o IH]; simpl; [contradiction|].
  intros Hnd Hin. inversion Hnd as [|? ? Hk Hnd']; subst.
  destruct Hin as [[= -> ->] | Hin].
  - now rewrite String.eqb_refl.
  - destruct (k' =? k)%string eqn:E; [|auto].
    apply String.eqb_eq in E. subst. exfalso. apply Hk.
    apply in_map_iff. now exists (k, v).
Qed.

Lemma has_own_prop_In (k : string) (o : obj) :
  has_own k o = true -> In (k, prop k o) o.
Proof.
  rewrite has_own_get. unfold prop.
  destruct (get_own k o) as [v|] eqn:E; [|discriminate].
  intros _. now apply get_own_In.
Qed.

Lemma all2_refl (xs : list value) :
  Forall (fun v => deepEqual v v = true) xs -> all2 deepEqual xs xs = true.
Proof.
  induction 1 as [|x xs Hx _ IH]; simpl; [reflexivity|].
  now rewrite Hx, IH.
Qed.

(** [deepEqual] is reflexive on well-formed values. *)
Lemma deepEqual_refl (v : value) : wf_value v = true -> deepEqual v v = true.
Proof.
  induction v as [ | | b | n | s | xs IH | kvs IH ] using value_ind;
    intros Hwf; try reflexivity.
  - apply Bool.eqb_reflx.
  - apply Z.eqb_refl.
  - apply String.eqb_refl.
  - rewrite deepEqual_arr, Nat.eqb_refl. simpl.
    apply all2_refl. simpl in Hwf. rewrite forallb_forall in Hwf.
    rewrite List.Forall_forall in IH |- *. auto.
  - rewrite deepEqual_obj, Nat.eqb_refl. simpl in Hwf.
    apply andb_true_iff in Hwf as [Hnd Hwf].
    apply nodup_keys_NoDup in Hnd. rewrite forallb_forall in Hwf.
    rewrite List.Forall_forall in IH. simpl.
    apply andb_true_iff. split; apply forallb_forall; intros [k v] Hin; simpl.
    + rewrite has_own_get, (In_get_own k v kvs Hnd Hin). reflexivity.
    + unfold prop. rewrite (In_get_own k v kvs Hnd Hin).
      apply (IH (k, v) Hin). apply (Hwf (k, v) Hin).
Qed.

Lemma all2_trans (xs : list value) :
  Forall (fun a => forall b c, deepEqual a b = true -> deepEqual b c = true ->
                               deepEqual a c = true) xs ->
  forall ys zs, length xs = length ys ->
    all2 deepEqual xs ys = true -> all2 deepEqual ys zs = true ->
    all2 deepEqual xs zs = true.
Proof.
  induction 1 as [|x xs Hx _ IH]; intros ys zs Hlen Hxy Hyz; [reflexivity|].
  destruct ys as [|y ys]; [discriminate|]. destruct zs as [|z zs]; [reflexivity|].
  simpl in *. apply andb_true_iff in Hxy as [? ?]. apply andb_true_iff in Hyz as [? ?].
  apply andb_true_iff. split; [eapply Hx; eassumption|].
  eapply IH; [|eassumption|eassumption]. congruence.
Qed.

(** [deepEqual] is transitive. *)
Lemma deepEqual_trans (a : value) :
  forall b c, deepEqual a b = true -> deepEqual b c = true ->
              deepEqual a c = true.
Proof.
  induction a as [ | | x | x | x | xs IH | xs IH ] using value_ind;
    intros b c Hab Hbc;
    destruct b as [ | | y | y | y | ys | ys ]; try discriminate Hab;
    destruct c as [ | | z | z | z | zs | zs ]; try discriminate Hbc;
    try reflexivity.
  - simpl in *. apply Bool.eqb_prop in Hab. now subst.
  - simpl in *. apply Z.eqb_eq in Hab. now subst.
  - simpl in *. apply String.eqb_eq in Hab. now subst.
  - rewrite deepEqual_arr in *.
    apply andb_true_iff in Hab as [Hl1 Hab]. apply andb_true_iff in Hbc as [Hl2 Hbc].
    apply Nat.eqb_eq in Hl1, Hl2.
    apply andb_true_iff. split; [apply Nat.eqb_eq; congruence|].
    eapply all2_trans; eassumption.
  - rewrite deepEqual_obj in *.
    apply andb_true_iff in Hab as [Hab Hv1]. apply andb_true_iff in Hab as [Hl1 Hk1].
    apply andb_true_iff in Hbc as [Hbc Hv2]. apply andb_true_iff in Hbc as [Hl2 Hk2].
    apply Nat.eqb_eq in Hl1, Hl2.
    rewrite forallb_forall in Hk1, Hv1, Hk2, Hv2.
    rewrite List.Forall_forall in IH.
    assert (Hstep : forall kv, In kv xs ->
              has_own (fst kv) zs = true /\
              deepEqual (snd kv) (prop (fst kv) zs) = true).
    { intros kv Hin.
      pose proof (has_own_prop_In _ _ (Hk1 kv Hin)) as Hmid.
      split; [apply (Hk2 _ Hmid)|].
      eapply (IH kv Hin); [apply (Hv1 kv Hin) | apply (Hv2 _ Hmid)]. }
    repeat (apply andb_true_iff; split).
    + apply Nat.eqb_eq. congruence.
    + apply forallb_forall. intros kv Hin. apply (Hstep kv Hin).
    + apply forallb_forall. intros kv Hin. apply (Hstep kv Hin).
Qed.

(** ** Strings *)

Lemma append_cons (c : ascii) (s t : string) :
  String c s +:+ t = String c (s +:+ t).
Proof. reflexivity. Qed.

Lemma append_nil_l (s : string) : "" +:+ s = s.
Proof. reflexivity. Qed.

Lemma append_nil_r (s : string) : s +:+ "" = s.
Proof.
  induction s as [|a s IH]; [reflexivity|].
  change (String a s +:+ "") with (String a (s +:+ "")). now rewrite IH.
Qed.

Lemma append_assoc (a b c : string) : (a +:+ b) +:+ c = a +:+ (b +:+ c).
Proof.
  induction a as [|x a IH]; [reflexivity|].
  change (String x ((a +:+ b) +:+ c) = String x (a +:+ (b +:+ c))). now rewrite IH.
Qed.

Lemma length_append (s t : string) :
  String.length (s +:+ t) = (String.length s + String.length t)%nat.
Proof.
  induction s as [|c s IH]; [reflexivity|]. rewrite append_cons. simpl. now rewrite IH.
Qed.

Lemma contains_app (c : ascii) (x y : string) :
  contains c (x +:+ y) = contains c x || contains c y.
Proof.
  induction x as [|a x IH]; simpl; [reflexivity|].
  now rewrite IH, orb_assoc.
Qed.

Lemma split_on_free (c : ascii) (s : string) :
  contains c s = false -> split_on c s = [s].
Proof.
  induction s as [|a s IH]; simpl; [reflexivity|].
  intros H. apply orb_false_iff in H as [Ha Hs].
  now rewrite Ha, (IH Hs).
Qed.

Lemma split_on_app (c : ascii) (x rest : string) :
  contains c x = false ->
  split_on c (x +:+ String c rest) = x :: split_on c rest.
Proof.
  induction x as [|a x IH]; simpl; intros H.
  - now rewrite Ascii.eqb_refl.
  - apply orb_false_iff in H as [Ha Hx]. now rewrite Ha, (IH Hx).
Qed.

Lemma concat_cons2 (sep x y : string) (l : list string) :
  String.concat sep (x :: y :: l) = x +:+ sep +:+ String.concat sep (y :: l).
Proof. reflexivity. Qed.

(** Splitting a joined list gives the list back when no part holds the
    separator. *)
Lemma split_on_concat (c : ascii) (parts : list string) :
  parts <> [] ->
  Forall (fun p => contains c p = false) parts ->
  split_on c (String.concat (String c "") parts) = parts.
Proof.
  intros Hne Hall. induction Hall as [|p parts Hp Hall IH]; [contradiction|].
  destruct parts as [|q parts].
  - simpl. now apply split_on_free.
  - rewrite concat_cons2.
    change (String c "" +:+ String.concat (String c "") (q :: parts))
      with (String c (String.concat (String c "") (q :: parts))).
    rewrite (split_on_app c p _ Hp), IH; [reflexivity | discriminate].
Qed.

Lemma concat_nonempty (sep p : string) (parts : list string) :
  p <> "" -> String.concat sep (p :: parts) <> "".
Proof.
  intros Hp. destruct parts as [|q parts]; [exact Hp|].
  rewrite concat_cons2. destruct p; [contradiction | discriminate].
Qed.

Lemma replace_first_app (c d : ascii) (x rest : string) :
  contains c x = false ->
  replace_first c d (x +:+ String c rest) = x +:+ String d rest.
Proof.
  induction x as [|a x IH]; simpl; intros H.
  - now rewrite Ascii.eqb_refl.
  - apply orb_false_iff in H as [Ha Hx]. now rewrite Ha, (IH Hx).
Qed.



Lemma replace_all_free (c d : ascii) (s : string) :
  contains c s = false -> replace_all c d s = s.
Proof.
  induction s as [|a s IH]; simpl; [reflexivity|].
  intros H. apply orb_false_iff in H as [Ha Hs]. now rewrite Ha, (IH Hs).
Qed.

Lemma slice_to_app (x rest : string) :
  slice_to (String.length x) (x +:+ rest) = x.
Proof. induction x as [|a x IH]; simpl; [now destruct rest | now rewrite IH]. Qed.

Lemma slice_from_after (c : ascii) (x rest : string) :
  slice_from (S (String.length x)) (x +:+ String c rest) = rest.
Proof. induction x as [|a x IH]; [reflexivity | exact IH]. Qed.

Lemma free_of_In (cs : list ascii) (s : string) (c : ascii) :
  free_of cs s = true -> In c cs -> contains c s = false.
Proof.
  unfold free_of. rewrite forallb_forall. intros H Hin.
  apply negb_true_iff. now apply H.
Qed.

(** ** ArgsCodec *)

Lemma has_own_app (k : string) (o o' : obj) :
  has_own k (o ++ o') = has_own k o || has_own k o'.
Proof.
  induction o as [|[k' v] o IH]; simpl; [reflexivity|].
  destruct (k' =? k)%string; [reflexivity | exact IH].
Qed.

Lemma has_own_In_keys (k : string) (o : obj) :
  has_own k o = true <-> In k (map fst o).
Proof.
  induction o as [|[k' v] o IH]; simpl; [split; [discriminate | contradiction]|].
  destruct (k' =? k)%string eqn:E.
  - apply String.eqb_eq in E. split; auto.
  - apply String.eqb_neq in E. rewrite IH. split; [auto | intros [?|?]; [contradiction | assumption]].
Qed.

Lemma set_prop_fresh (k : string) (v : value) (o : obj) :
  has_own k o = false -> set_prop k v o = o ++ [(k, v)].
Proof.
  induction o as [|[k' v'] o IH]; simpl; [reflexivity|].
  destruct (k' =? k)%string; [discriminate|]. intros H. now rewrite IH.
Qed.

(** ** Rebuilding a value from its pairs *)

Lemma leaves_arr xs : leaves (VArr xs) = leaves_elems leaves 0 xs.
Proof. reflexivity. Qed.

Lemma leaves_obj kvs : leaves (VObj kvs) = leaves_props leaves kvs.
Proof. reflexivity. Qed.

Lemma merge_obj_key (t : obj) (k : string) (v : value) :
  merge (VObj t) (VObj [(k, v)])
  = VObj (if has_own k t then set_prop k (merge (prop k t) v) t else set_prop k v t).
Proof. reflexivity. Qed.

Lemma merge_arr_arr (ts items : list value) :
  merge (VArr ts) (VArr items) = VArr (merge_items merge 0 items ts).
Proof. reflexivity. Qed.

Lemma merge_items_holes (n i : nat) (item : value) (ts : list value) :
  merge_items merge i (repeat VUndefined n ++ [item]) ts
  = merge_items merge (n + i) [item] ts.
Proof.
  revert i. induction n as [|n IH]; intros i; [reflexivity|].
  simpl repeat. cbn [app merge_items is_hole]. rewrite IH.
  now replace (n + S i)%nat with (S n + i)%nat by lia.
Qed.

Lemma has_index_length (ts : list value) : has_index (length ts) ts = false.
Proof.
  unfold has_index. now rewrite (proj2 (nth_error_None ts (length ts))) by lia.
Qed.

Lemma set_index_length (v : value) (ts : list value) :
  set_index (length ts) v ts = ts ++ [v].
Proof. induction ts as [|t ts IH]; simpl; [reflexivity | now rewrite IH]. Qed.

Lemma has_index_last (ts : list value) (x : value) :
  is_hole x = false -> has_index (length ts) (ts ++ [x]) = true.
Proof.
  intros Hx. unfold has_index. rewrite nth_error_app2 by lia.
  rewrite Nat.sub_diag. simpl. now rewrite Hx.
Qed.

Lemma nth_last (ts : list value) (x : value) :
  nth (length ts) (ts ++ [x]) VUndefined = x.
Proof. rewrite app_nth2 by lia. now rewrite Nat.sub_diag. Qed.

Lemma set_index_last (ts : list value) (x y : value) :
  set_index (length ts) y (ts ++ [x]) = ts ++ [y].
Proof. induction ts as [|t ts IH]; simpl; [reflexivity | now rewrite IH]. Qed.

Lemma is_object_merge (a s : value) :
  is_object a = true -> is_object s = true -> is_object (merge a s) = true.
Proof. destruct a, s; try discriminate; reflexivity. Qed.

Lemma is_object_not_hole (v : value) : is_object v = true -> is_hole v = false.
Proof. now destruct v. Qed.

(** The first pair of an entry is assigned, the following ones are merged
    into what is there. *)
Lemma graft_key_fresh (t : obj) (k : string) (p : list step * string) :
  has_own k t = false ->
  graft (VObj t) (Key k :: fst p, snd p)
  = VObj (t ++ [(k, chain_value (fst p) (VStr (snd p)))]).
Proof.
  intros Hk. unfold graft. cbn [fst snd chain_value].
  rewrite merge_obj_key, Hk. now rewrite set_prop_fresh.
Qed.

Lemma has_own_last (t : obj) (k : string) (v : value) :
  has_own k (t ++ [(k, v)]) = true.
Proof. rewrite has_own_app. simpl. rewrite String.eqb_refl. apply orb_true_r. Qed.

Lemma get_own_app_fresh (t : obj) (k : string) (v : value) :
  has_own k t = false -> get_own k (t ++ [(k, v)]) = Some v.
Proof.
  induction t as [|[k' v'] t IH]; simpl; [now rewrite String.eqb_refl|].
  destruct (k' =? k)%string; [discriminate | exact IH].
Qed.

Lemma set_prop_last (t : obj) (k : string) (v w : value) :
  has_own k t = false -> set_prop k w (t ++ [(k, v)]) = t ++ [(k, w)].
Proof.
  induction t as [|[k' v'] t IH]; simpl; [now rewrite String.eqb_refl|].
  destruct (k' =? k)%string; [discriminate|]. intros H. now rewrite IH.
Qed.

Lemma graft_key_again (t : obj) (k : string) (a : value) (p : list step * string) :
  has_own k t = false ->
  graft (VObj (t ++ [(k, a)])) (Key k :: fst p, snd p)
  = VObj (t ++ [(k, graft a p)]).
Proof.
  intros Hk. unfold graft. cbn [fst snd chain_value].
  rewrite merge_obj_key, has_own_last. unfold prop.
  rewrite get_own_app_fresh by exact Hk. now rewrite set_prop_last.
Qed.

Lemma plant_under_key (t : obj) (k : string) (ps : list (list step * string)) :
  has_own k t = false ->
  forall a,
  fold_left graft (under (Key k) ps) (VObj (t ++ [(k, a)]))
  = VObj (t ++ [(k, fold_left graft ps a)]).
Proof.
  intros Hk. induction ps as [|p ps IH]; intros a; [reflexivity|].
  simpl. rewrite graft_key_again by exact Hk. apply IH.
Qed.

Lemma graft_index_fresh (ts : list value) (p : list step * string) :
  graft (VArr ts) (Index (length ts) :: fst p, snd p)
  = VArr (ts ++ [chain_value (fst p) (VStr (snd p))]).
Proof.
  unfold graft. cbn [fst snd chain_value].
  rewrite merge_arr_arr, merge_items_holes, Nat.add_0_r.
  cbn [merge_items].
  assert (Hh : is_hole (chain_value (fst p) (VStr (snd p))) = false)
    by (destruct (fst p) as [|[]]; reflexivity).
  now rewrite Hh, has_index_length, set_index_length.
Qed.

Lemma graft_index_again (ts : list value) (a : value) (p : list step * string) :
  is_object a = true -> fst p <> [] ->
  graft (VArr (ts ++ [a])) (Index (length ts) :: fst p, snd p)
  = VArr (ts ++ [graft a p]).
Proof.
  intros Ha Hp. unfold graft. cbn [fst snd chain_value].
  rewrite merge_arr_arr, merge_items_holes, Nat.add_0_r.
  cbn [merge_items].
  assert (Ho : is_object (chain_value (fst p) (VStr (snd p))) = true)
    by (destruct (fst p) as [|[]]; [contradiction | reflexivity | reflexivity]).
  rewrite (is_object_not_hole _ Ho), (has_index_last _ _ (is_object_not_hole _ Ha)).
  cbv zeta. rewrite nth_last, Ha, Ho. cbn [andb].
  now rewrite set_index_last.
Qed.

Lemma is_object_graft (a : value) (p : list step * string) :
  is_object a = true -> fst p <> [] -> is_object (graft a p) = true.
Proof.
  intros Ha Hp. apply is_object_merge; [exact Ha|].
  destruct (fst p) as [|[]]; [contradiction | reflexivity | reflexivity].
Qed.

Lemma plant_under_index (ts : list value) (ps : list (list step * string)) :
  Forall (fun p => fst p <> []) ps ->
  forall a, is_object a = true ->
  fold_left graft (under (Index (length ts)) ps) (VArr (ts ++ [a]))
  = VArr (ts ++ [fold_left graft ps a]).
Proof.
  induction 1 as [|p ps Hp _ IH]; intros a Ha; [reflexivity|].
  simpl. rewrite graft_index_again by assumption.
  apply IH. now apply is_object_graft.
Qed.

(** Every pair of an array or of an object has at least one step. *)
Lemma leaves_steps (v : value) :
  is_object v = true -> Forall (fun p => fst p <> []) (leaves v).
Proof.
  destruct v as [ | | | | | xs | kvs ]; try discriminate; intros _.
  - rewrite leaves_arr. generalize 0%nat.
    induction xs as [|x xs IH]; intros i; [constructor|].
    simpl. apply Forall_app. split; [|apply IH].
    apply List.Forall_forall. intros p Hin.
    apply in_map_iff in Hin as (q & <- & _). discriminate.
  - rewrite leaves_obj. unfold leaves_props.
    apply List.Forall_forall. intros p Hin.
    apply in_flat_map in Hin as (kv & _ & Hin).
    apply in_map_iff in Hin as (q & <- & _). discriminate.
Qed.

(** A tree of strings is rebuilt from its pairs: the first one is what
    [parseObject] builds for it, the others are merged into it in
    order. *)
Lemma plant_leaves (v : value) :
  string_tree v = true ->
  exists p ps, leaves v = p :: ps
    /\ fold_left graft ps (chain_value (fst p) (VStr (snd p))) = v.
Proof.
  induction v as [ | | b | n | s | xs IH | kvs IH ] using value_ind;
    intros Hv; try discriminate.
  - exists ([], s), []. split; reflexivity.
  - (* arrays *)
    simpl in Hv. apply andb_true_iff in Hv as [Hne Hall].
    assert (Hgen : forall ts, 
      fold_left graft (leaves_elems leaves (length ts) xs) (VArr ts) = VArr (ts ++ xs)).
    { clear Hne. induction IH as [|x xs Hx _ IHxs]; intros ts.
      - simpl. now rewrite app_nil_r.
      - simpl in Hall. apply andb_true_iff in Hall as [Hvx Hall].
        destruct (Hx Hvx) as (p & ps & Hl & Hfold).
        cbn [leaves_elems]. rewrite fold_left_app, Hl.
        cbn [under map fold_left]. rewrite graft_index_fresh.
        assert (Hrest : fold_left graft (under (Index (length ts)) ps)
                  (VArr (ts ++ [chain_value (fst p) (VStr (snd p))]))
                = VArr (ts ++ [x])).
        { destruct ps as [|q ps]; [cbn [under map fold_left] in *; now subst x|].
          assert (Hobj : is_object x = true).
          { destruct x; try discriminate; try reflexivity.
            all: simpl in Hl; discriminate. }
          pose proof (leaves_steps x Hobj) as Hsteps. rewrite Hl in Hsteps.
          apply List.Forall_cons_iff in Hsteps as [Hp Hps].
          rewrite plant_under_index; [now rewrite Hfold | exact Hps |].
          destruct (fst p) as [|[]]; [contradiction | reflexivity | reflexivity]. }
        change (map (fun p0 => (Index (length ts) :: fst p0, snd p0)) ps)
          with (under (Index (length ts)) ps).
        rewrite Hrest.
        replace (S (length ts)) with (length (ts ++ [x])) by (rewrite length_app; simpl; lia).
        rewrite IHxs by exact Hall. now rewrite <- app_assoc. }
    destruct xs as [|x xs]; [discriminate|].
    specialize (Hgen []). cbn [length app] in Hgen.
    rewrite leaves_arr.
    destruct (leaves_elems leaves 0 (x :: xs)) as [|p ps] eqn:E.
    + exfalso. inversion IH as [|? ? Hx _]; subst. simpl in Hall.
      apply andb_true_iff in Hall as [Hvx _].
      destruct (Hx Hvx) as (p & ps & Hl & _). simpl in E. rewrite Hl in E. discriminate.
    + exists p, ps. split; [reflexivity|].
      rewrite <- Hgen. simpl.
      assert (Hp : exists q, p = (Index 0 :: fst q, snd q)).
      { inversion IH as [|? ? Hx _]; subst. simpl in Hall.
        apply andb_true_iff in Hall as [Hvx _].
        destruct (Hx Hvx) as (q & qs & Hl & _). simpl in E. rewrite Hl in E.
        simpl in E. injection E as <- _. now exists q. }
      destruct Hp as (q & ->).
      pose proof (graft_index_fresh [] q) as Hg. cbn [length app] in Hg.
      now rewrite Hg.
  - (* objects *)
    simpl in Hv. apply andb_true_iff in Hv as [Hv Hall].
    apply andb_true_iff in Hv as [Hne Hnd]. apply nodup_keys_NoDup in Hnd.
    assert (Hgen : forall t,
      (forall k, In k (map fst kvs) -> has_own k t = false) ->
      fold_left graft (leaves_props leaves kvs) (VObj t) = VObj (t ++ kvs)).
    { clear Hne. induction IH as [|[k x] kvs Hx _ IHkvs]; intros t Hfresh.
      - simpl. now rewrite app_nil_r.
      - simpl in Hall. apply andb_true_iff in Hall as [Hvx Hall].
        inversion Hnd as [|? ? Hk Hnd']; subst. cbn [snd] in Hx.
        destruct (Hx Hvx) as (p & ps & Hl & Hfold).
        unfold leaves_props. cbn [flat_map fst snd]. rewrite fold_left_app, Hl.
        cbn [under map fold_left].
        assert (Hkt : has_own k t = false) by (apply Hfresh; now left).
        rewrite graft_key_fresh by exact Hkt.
        change (map (fun p0 => (Key k :: fst p0, snd p0)) ps) with (under (Key k) ps).
        rewrite plant_under_key by exact Hkt. rewrite Hfold.
        fold (leaves_props leaves kvs).
        rewrite IHkvs; [now rewrite <- app_assoc | exact Hnd' | exact Hall |].
        intros k' Hk'. rewrite has_own_app. simpl.
        rewrite (Hfresh k') by (now right). simpl.
        destruct (String.eqb_spec k k') as [->|_]; [contradiction | reflexivity]. }
    destruct kvs as [|[k x] kvs]; [discriminate|].
    specialize (Hgen [] (fun _ _ => eq_refl)). cbn [app] in Hgen.
    rewrite leaves_obj.
    inversion IH as [|? ? Hx _]; subst. simpl in Hall. cbn [snd] in Hx.
    apply andb_true_iff in Hall as [Hvx _].
    destruct (Hx Hvx) as (q & qs & Hl & _).
    unfold leaves_props in *. cbn [flat_map fst snd] in *. rewrite Hl in *.
    cbn [under map app] in *.
    eexists _, _. split; [reflexivity|].
    rewrite <- Hgen. cbn [fold_left].
    now rewrite (graft_key_fresh [] k q eq_refl).
Qed.

(** ** Reading a printed path *)

Lemma dots_plain (x rest : string) :
  contains "." x = false ->
  dots_to_brackets false (x +:+ rest) = x +:+ dots_to_brackets false rest.
Proof.
  induction x as [|c x IH]; intros H; [reflexivity|].
  simpl in H. apply orb_false_iff in H as [Hc Hx].
  rewrite !append_cons. cbn [dots_to_brackets]. rewrite Hc. now rewrite IH.
Qed.

Lemma dots_run (n rest : string) :
  contains "." n = false -> contains "[" n = false ->
  dots_to_brackets true (n +:+ rest) = n +:+ dots_to_brackets true rest.
Proof.
  induction n as [|c n IH]; intros H1 H2; [reflexivity|].
  simpl in H1, H2. apply orb_false_iff in H1 as [Hc1 Hn1].
  apply orb_false_iff in H2 as [Hc2 Hn2].
  rewrite !append_cons. cbn [dots_to_brackets]. unfold ends_run.
  rewrite Hc1, Hc2. cbn [orb]. now rewrite IH.
Qed.

Lemma dots_open (n rest : string) :
  n <> "" -> contains "." n = false -> contains "[" n = false ->
  dots_to_brackets false ("." +:+ n +:+ rest)
  = "[" +:+ n +:+ dots_to_brackets true rest.
Proof.
  intros Hne H1 H2. destruct n as [|c n]; [contradiction|].
  simpl in H1, H2. apply orb_false_iff in H1 as [Hc1 Hn1].
  apply orb_false_iff in H2 as [Hc2 Hn2].
  change ("." +:+ String c n +:+ rest) with (String "." (String c (n +:+ rest))).
  cbn [dots_to_brackets]. unfold ends_run. rewrite Hc1, Hc2.
  cbn [Ascii.eqb Bool.eqb orb andb]. cbv iota.
  now rewrite (dots_run n rest Hn1 Hn2).
Qed.

Lemma dots_close (s : string) :
  match s with EmptyString => True | String c _ => ends_run c = true end ->
  dots_to_brackets true s = "]" +:+ dots_to_brackets false s.
Proof.
  destruct s as [|c s]; [reflexivity|]. intros Hc.
  cbn [dots_to_brackets]. now rewrite Hc.
Qed.

Lemma steps_text_head (p : list step) :
  match steps_text p with EmptyString => True | String c _ => ends_run c = true end.
Proof. destruct p as [|[k|i] p]; simpl; auto. Qed.

Lemma name_ok_free (n : string) (c : ascii) :
  name_ok n -> In c [";"; ":"; "="; "."; "["; "]"; "+"; "%"]%char ->
  contains c n = false.
Proof. intros (_ & H & _) Hin. eapply free_of_In; eassumption. Qed.

Lemma dots_steps (p : list step) :
  Forall (fun s => name_ok (step_name s)) p ->
  dots_to_brackets false (steps_text p) = brackets_text p.
Proof.
  induction 1 as [|s p Hs _ IH]; [reflexivity|].
  cbn [steps_text brackets_text]. destruct s as [k|i]; cbn [step_text step_name] in *.
  - rewrite append_assoc, dots_open;
      [| apply Hs | apply (name_ok_free _ _ Hs); simpl; tauto
       | apply (name_ok_free _ _ Hs); simpl; tauto].
    rewrite dots_close by apply steps_text_head. now rewrite IH.
  - rewrite !append_assoc, append_cons, append_nil_l. cbn [dots_to_brackets].
    cbn [Ascii.eqb Bool.eqb andb]. cbv iota.
    rewrite dots_plain by (apply (name_ok_free _ _ Hs); simpl; tauto).
    rewrite append_cons, append_nil_l. cbn [dots_to_brackets].
    cbn [Ascii.eqb Bool.eqb andb]. cbv iota. now rewrite IH.
Qed.

Lemma pieces_text (x rest : string) :
  contains "[" x = false ->
  bracket_pieces None (x +:+ rest) = texts x ++ bracket_pieces None rest.
Proof.
  induction x as [|c x IH]; intros H; [reflexivity|].
  simpl in H. apply orb_false_iff in H as [Hc Hx].
  rewrite append_cons. cbn [bracket_pieces]. rewrite Hc. now rewrite IH.
Qed.

Lemma pieces_segment (n read rest : string) :
  contains "[" n = false -> contains "]" n = false ->
  bracket_pieces (Some read) (n +:+ String "]" rest)
  = Segment (read +:+ n) :: bracket_pieces None rest.
Proof.
  revert read. induction n as [|c n IH]; intros read H1 H2.
  - rewrite append_nil_l, append_nil_r. reflexivity.
  - simpl in H1, H2. apply orb_false_iff in H1 as [Hc1 Hn1].
    apply orb_false_iff in H2 as [Hc2 Hn2].
    rewrite append_cons. cbn [bracket_pieces]. rewrite Hc1, Hc2.
    rewrite IH by assumption. now rewrite append_assoc.
Qed.

Lemma pieces_steps (p : list step) :
  Forall (fun s => name_ok (step_name s)) p ->
  bracket_pieces None (brackets_text p) = map (fun s => Segment (step_name s)) p.
Proof.
  induction 1 as [|s p Hs _ IH]; [reflexivity|].
  cbn [brackets_text map]. rewrite append_cons, append_nil_l.
  cbn [bracket_pieces]. cbn [Ascii.eqb Bool.eqb andb]. cbv iota.
  rewrite append_cons, append_nil_l.
  rewrite pieces_segment by (apply (name_ok_free _ _ Hs); simpl; tauto).
  now rewrite IH.
Qed.

Lemma parent_of_texts (x : string) (ps : list piece) :
  match ps with Text _ :: _ => False | _ => True end ->
  parent_of (texts x ++ ps) = x.
Proof.
  intros Hps. induction x as [|c x IH].
  - simpl. destruct ps as [|[]]; [reflexivity | contradiction | reflexivity].
  - change (texts (String c x)) with (Text c :: texts x). simpl. now rewrite IH.
Qed.

Lemma child_keys_texts (depth : nat) (x : string) (ps : list piece) :
  child_keys depth (texts x ++ ps) = child_keys depth ps.
Proof.
  induction x as [|c x IH]; [reflexivity|].
  change (texts (String c x)) with (Text c :: texts x). exact IH.
Qed.

Lemma child_keys_steps (p : list step) (depth : nat) :
  Forall (fun s => name_ok (step_name s)) p ->
  (length p <= depth)%nat ->
  child_keys depth (map (fun s => Segment (step_name s)) p)
  = Some (map (fun s => "[" +:+ step_name s +:+ "]") p).
Proof.
  intros Hall. revert depth.
  induction Hall as [|s p Hs _ IH]; intros depth Hlen; [reflexivity|].
  simpl in Hlen. destruct depth as [|depth]; [lia|].
  cbn [map child_keys]. destruct Hs as (_ & _ & Hproto). rewrite Hproto.
  rewrite IH by lia. reflexivity.
Qed.

Lemma last_is_app (c : ascii) (n : string) : last_is c (n +:+ String c "") = true.
Proof.
  induction n as [|a n IH]; [apply Ascii.eqb_refl|].
  rewrite append_cons. cbn [last_is].
  destruct (n +:+ String c "") eqn:E; [destruct n; discriminate | exact IH].
Qed.

Lemma without_last_app (c : ascii) (n : string) :
  without_last (n +:+ String c "") = n.
Proof.
  induction n as [|a n IH]; [reflexivity|].
  rewrite append_cons. cbn [without_last].
  destruct (n +:+ String c "") eqn:E; [destruct n; discriminate|].
  now rewrite IH.
Qed.

Lemma clean_root_bracketed (n : string) : clean_root ("[" +:+ n +:+ "]") = n.
Proof.
  rewrite append_cons, append_nil_l. unfold clean_root.
  cbn [Ascii.eqb Bool.eqb andb]. rewrite last_is_app. cbv iota.
  apply without_last_app.
Qed.

Lemma last_is_contains (c : ascii) (s : string) :
  last_is c s = true -> contains c s = true.
Proof.
  induction s as [|a s IH]; [discriminate|]. simpl.
  destruct s as [|b s]; [intros ->; reflexivity|].
  intros H. rewrite (IH H). apply orb_true_r.
Qed.

Lemma clean_root_plain (k : string) :
  contains "]" k = false -> clean_root k = k.
Proof.
  intros Hk. destruct k as [|a k]; [reflexivity|]. unfold clean_root.
  destruct (Ascii.eqb a "[" && last_is "]" k) eqn:E; [|reflexivity].
  apply andb_true_iff in E as [_ E]. apply last_is_contains in E.
  simpl in Hk. apply orb_false_iff in Hk as [_ Hk]. congruence.
Qed.

Lemma bracketed_differs (n : string) : (("[" +:+ n +:+ "]") =? n)%string = false.
Proof.
  apply String.eqb_neq. intros H.
  apply (f_equal String.length) in H.
  rewrite !length_append in H. simpl in H. lia.
Qed.

Lemma parse_object_steps (p : list step) (leaf : value) :
  Forall step_ok p ->
  parse_object (map (fun s => "[" +:+ step_name s +:+ "]") p) leaf
  = chain_value p leaf.
Proof.
  induction 1 as [|s p [Hn Hs] _ IH]; [reflexivity|].
  cbn [map parse_object]. rewrite IH.
  assert (Hne : (("[" +:+ step_name s +:+ "]") =? "[]")%string = false).
  { apply String.eqb_neq. intros H. destruct Hn as (Hne & _).
    apply (f_equal String.length) in H. rewrite !length_append in H.
    destruct (step_name s); [contradiction | simpl in H; lia]. }
  rewrite Hne, clean_root_bracketed, bracketed_differs.
  destruct s as [k|i]; cbn [step_name] in *; now rewrite Hs.
Qed.

Lemma parse_keys_path (top : string) (p : list step) (val : value) :
  name_ok top -> Forall step_ok p -> (length p <= 5)%nat ->
  parse_keys (top +:+ steps_text p) val = chain_value (Key top :: p) val.
Proof.
  intros Htop Hp Hlen.
  assert (Hnames : Forall (fun s => name_ok (step_name s)) p).
  { eapply List.Forall_impl; [|exact Hp]. now intros s [H _]. }
  unfold parse_keys.
  assert (Hne : ((top +:+ steps_text p) =? "")%string = false).
  { apply String.eqb_neq. destruct Htop as (Hne & _).
    destruct top; [contradiction | discriminate]. }
  rewrite Hne. cbv zeta.
  rewrite dots_plain by (apply (name_ok_free _ _ Htop); simpl; tauto).
  rewrite (dots_steps p Hnames).
  rewrite pieces_text by (apply (name_ok_free _ _ Htop); simpl; tauto).
  rewrite (pieces_steps p Hnames).
  rewrite parent_of_texts by (destruct p; exact I).
  rewrite child_keys_texts, (child_keys_steps p 5 Hnames Hlen).
  destruct Htop as (Htne & Hfree & Hproto). rewrite Hproto.
  apply String.eqb_neq in Htne. rewrite Htne. cbn [app parse_object].
  rewrite (parse_object_steps p val Hp).
  assert (Hq : (top =? "[]")%string = false).
  { apply String.eqb_neq. intros ->. discriminate Hfree. }
  rewrite Hq, clean_root_plain, String.eqb_refl
    by (eapply free_of_In; [exact Hfree | simpl; tauto]).
  cbn [negb chain_value]. now destruct (small_index top).
Qed.

(** ** What [qs.stringify] prints, pair by pair *)

Lemma stringify_value_leaves (v : value) (prefix : string) :
  stringify_value prefix v
  = map (fun p => prefix +:+ steps_text (fst p) +:+ String "=" (snd p)) (leaves v).
Proof.
  revert prefix.
  induction v as [ | | b | n | s | xs IH | kvs IH ] using value_ind;
    intros prefix; try reflexivity.
  - rewrite leaves_arr. simpl. generalize 0%nat as i.
    induction IH as [|x xs Hx _ IHxs]; intros i; [reflexivity|].
    cbn [leaves_elems]. rewrite map_app, <- IHxs, Hx. f_equal.
    unfold under. rewrite map_map. apply map_ext. intros p. cbn [fst snd steps_text step_text].
    now rewrite !append_assoc.
  - rewrite leaves_obj. simpl. unfold leaves_props.
    induction IH as [|[k x] kvs Hx _ IHkvs]; [reflexivity|].
    cbn [flat_map fst snd]. rewrite map_app, <- IHkvs, Hx. f_equal.
    unfold under. rewrite map_map. apply map_ext. intros p. cbn [fst snd steps_text step_text].
    now rewrite !append_assoc.
Qed.

Lemma stringify_pairs (a : obj) :
  flat_map (fun kv => stringify_value (fst kv) (snd kv)) a
  = map (pair_text "=") (leaves (VObj a)).
Proof.
  rewrite leaves_obj. unfold leaves_props.
  induction a as [|[k v] a IH]; [reflexivity|].
  cbn [flat_map fst snd]. rewrite map_app, <- IH, stringify_value_leaves. f_equal.
  unfold under. rewrite map_map. apply map_ext. intros p.
  unfold pair_text. cbn [fst snd path_text]. now rewrite append_assoc.
Qed.

(** ** Pairs that the codec reads back *)

Lemma steps_text_free (c : ascii) (steps : list step) :
  In c [";"; ":"; "="; "+"; "%"]%char ->
  Forall step_ok steps -> contains c (steps_text steps) = false.
Proof.
  intros Hc. induction 1 as [|s steps [Hs _] _ IH]; [reflexivity|].
  assert (Hn : contains c (step_name s) = false).
  { apply (name_ok_free _ _ Hs). simpl in *. tauto. }
  cbn [steps_text]. rewrite contains_app, IH, orb_false_r.
  destruct s as [k|i]; cbn [step_text step_name] in *; rewrite !contains_app, Hn;
    simpl in *; decompose [or] Hc; subst; try contradiction; reflexivity.
Qed.

Lemma path_text_free (c : ascii) (p : list step * string) :
  In c [";"; ":"; "="; "+"; "%"]%char ->
  pair_ok p -> contains c (path_text (fst p)) = false.
Proof.
  intros Hc (top & steps & -> & Htop & Hsteps & _). cbn [path_text].
  rewrite contains_app, (steps_text_free c steps Hc Hsteps), orb_false_r.
  apply (name_ok_free _ _ Htop). simpl in *. tauto.
Qed.

Lemma pair_text_semicolon (sep : ascii) (p : list step * string) :
  Ascii.eqb sep ";" = false -> pair_ok p -> contains ";" (pair_text sep p) = false.
Proof.
  intros Hsep Hp. unfold pair_text. rewrite contains_app. simpl.
  rewrite (path_text_free ";" p) by (simpl; tauto || exact Hp). rewrite Hsep.
  destruct Hp as (_ & _ & _ & _ & _ & _ & Hl & _). now rewrite Hl.
Qed.

Lemma pair_text_nonempty (sep : ascii) (p : list step * string) :
  pair_text sep p <> "".
Proof. unfold pair_text. destruct (path_text (fst p)); discriminate. Qed.

Lemma pair_text_to_colon (p : list step * string) :
  pair_ok p -> replace_first "=" ":" (pair_text "=" p) = pair_text ":" p.
Proof. intros Hp. apply replace_first_app, path_text_free; [simpl; tauto | exact Hp]. Qed.

Lemma pair_text_to_equals (p : list step * string) :
  pair_ok p -> replace_first ":" "=" (pair_text ":" p) = pair_text "=" p.
Proof. intros Hp. apply replace_first_app, path_text_free; [simpl; tauto | exact Hp]. Qed.

(** [decodeURIComponent] leaves a string without [%] as it is. *)
Lemma uri_tokens_plain (s : string) :
  contains "%" s = false ->
  uri_tokens s = Some (map Literal (list_ascii_of_string s)).
Proof.
  induction s as [|c s IH]; [reflexivity|]. simpl. intros H.
  apply orb_false_iff in H as [Hc Hs]. now rewrite Hc, (IH Hs).
Qed.

Lemma well_formed_literals (l : list ascii) :
  well_formed_utf8 0 128 191 (map Literal l) = true.
Proof. induction l as [|c l IH]; [reflexivity | exact IH]. Qed.

Lemma decodeURIComponent_plain (s : string) :
  contains "%" s = false -> decodeURIComponent s = Some s.
Proof.
  intros H. unfold decodeURIComponent. rewrite (uri_tokens_plain s H).
  cbn [mbind option_bind]. rewrite well_formed_literals, map_map.
  cbn [token_char]. rewrite map_id. now rewrite string_of_list_ascii_of_string.
Qed.

Lemma qs_decode_plain (s : string) :
  contains "+" s = false -> contains "%" s = false -> qs_decode s = s.
Proof.
  intros Hplus Hpct. unfold qs_decode. rewrite (replace_all_free _ _ _ Hplus).
  now rewrite (decodeURIComponent_plain s Hpct).
Qed.

(** The separator of a printed pair is found where the path ends. *)
Lemma separator_position (x leaf : string) :
  contains "=" x = false -> index_of2 "]" "=" leaf = None ->
  match index_of2 "]" "=" (x +:+ String "=" leaf) with
  | Some i => Some (S i)
  | None => index_of "=" (x +:+ String "=" leaf)
  end = Some (String.length x).
Proof.
  intros Hx Hleaf. induction x as [|a x IH].
  - rewrite append_nil_l. simpl. now rewrite Hleaf.
  - simpl in Hx. apply orb_false_iff in Hx as [Ha Hx]. specialize (IH Hx).
    rewrite append_cons. cbn [index_of2 index_of]. rewrite Ha.
    destruct x as [|b x].
    + rewrite append_nil_l in *. cbn [index_of2 index_of] in *.
      destruct (Ascii.eqb a "]"); simpl; [reflexivity|].
      simpl in IH. now rewrite Hleaf.
    + rewrite append_cons in *.
      simpl in Hx. apply orb_false_iff in Hx as [Hb _].
      rewrite Hb, andb_false_r.
      destruct (index_of2 "]" "=" (String b (x +:+ String "=" leaf))) as [i|].
      * now injection IH as ->.
      * now rewrite IH.
Qed.

Lemma parse_part_pair (p : list step * string) :
  pair_ok p -> parse_part (pair_text "=" p) = pair_entry p.
Proof.
  intros Hp. unfold parse_part, pair_text, pair_entry.
  pose proof Hp as (_ & _ & _ & _ & _ & _ & _ & Hdec & Hidx).
  rewrite separator_position by (try apply path_text_free; simpl; tauto).
  rewrite slice_to_app, slice_from_after, Hdec.
  rewrite qs_decode_plain by (apply path_text_free; simpl; tauto).
  reflexivity.
Qed.

Lemma parse_keys_pair (p : list step * string) (val : value) :
  pair_ok p -> parse_keys (path_text (fst p)) val = chain_value (fst p) val.
Proof.
  intros (top & steps & -> & Htop & Hsteps & Hlen & _).
  now apply parse_keys_path.
Qed.

Lemma chain_value_inj (p q : list step) (leaf : value) :
  is_object leaf = false ->
  chain_value p leaf = chain_value q leaf -> p = q.
Proof.
  intros Hleaf. revert q. induction p as [|[k|i] p IH]; intros [|[k'|i'] q] H;
    cbn [chain_value] in H; try reflexivity;
    try (rewrite H in Hleaf; discriminate); try (rewrite <- H in Hleaf; discriminate);
    try discriminate.
  - injection H as -> H. now rewrite (IH q H).
  - injection H as H.
    assert (Hi : i = i').
    { apply (f_equal (@length value)) in H. rewrite !length_app, !repeat_length in H.
      simpl in H. lia. }
    subst i'. apply app_inv_head in H. injection H as H. now rewrite (IH q H).
Qed.

Lemma path_text_inj (p q : list step * string) :
  pair_ok p -> pair_ok q -> path_text (fst p) = path_text (fst q) -> fst p = fst q.
Proof.
  intros Hp Hq H. apply (chain_value_inj _ _ VNull eq_refl).
  now rewrite <- !parse_keys_pair, H by assumption.
Qed.

(** ** The paths of a value are distinct *)

Lemma leaves_props_head (kvs : obj) (p : list step * string) :
  In p (leaves_props leaves kvs) ->
  exists k rest, fst p = Key k :: rest /\ In k (map fst kvs).
Proof.
  unfold leaves_props. intros Hin. apply in_flat_map in Hin as ([k v] & Hkv & Hin).
  apply in_map_iff in Hin as (q & <- & _). exists k, (fst q).
  split; [reflexivity|]. now apply (in_map fst) in Hkv.
Qed.

Lemma leaves_elems_head (xs : list value) (i : nat) (p : list step * string) :
  In p (leaves_elems leaves i xs) ->
  exists j rest, fst p = Index j :: rest /\ (i <= j < i + length xs)%nat.
Proof.
  revert i. induction xs as [|x xs IH]; intros i Hin; [contradiction|].
  cbn [leaves_elems] in Hin. apply in_app_or in Hin as [Hin|Hin].
  - apply in_map_iff in Hin as (q & <- & _). exists i, (fst q). simpl. split; [reflexivity | lia].
  - apply IH in Hin as (j & rest & Hp & Hj). exists j, rest. simpl. split; [exact Hp | lia].
Qed.

Lemma under_NoDup (s : step) (ps : list (list step * string)) :
  List.NoDup (map fst ps) -> List.NoDup (map fst (under s ps)).
Proof.
  intros H. unfold under. rewrite map_map. cbn [fst].
  rewrite <- (map_map fst (cons s)).
  apply NoDup_map_NoDup_ForallPairs; [|exact H].
  intros x y _ _ E. now injection E.
Qed.

Lemma string_tree_arr (xs : list value) :
  string_tree (VArr xs) = true -> Forall (fun x => string_tree x = true) xs.
Proof.
  simpl. intros H. apply andb_true_iff in H as [_ H].
  apply List.Forall_forall. now apply forallb_forall.
Qed.

Lemma string_tree_obj (kvs : obj) :
  string_tree (VObj kvs) = true ->
  List.NoDup (map fst kvs) /\ Forall (fun kv => string_tree (snd kv) = true) kvs.
Proof.
  simpl. intros H. apply andb_true_iff in H as [H Hall].
  apply andb_true_iff in H as [_ Hnd]. split; [now apply nodup_keys_NoDup|].
  apply List.Forall_forall. now apply forallb_forall.
Qed.

Lemma leaves_props_NoDup (kvs : obj) :
  List.NoDup (map fst kvs) ->
  Forall (fun kv => List.NoDup (map fst (leaves (snd kv)))) kvs ->
  List.NoDup (map fst (leaves_props leaves kvs)).
Proof.
  intros Hnd Hall. unfold leaves_props.
  induction Hall as [|[k v] kvs Hv _ IH]; [constructor|].
  inversion Hnd as [|? ? Hk Hnd']; subst.
  cbn [flat_map fst snd] in *. rewrite map_app. apply List.NoDup_app.
  - now apply under_NoDup.
  - now apply IH.
  - intros path H1 H2.
    apply in_map_iff in H1 as (p & <- & Hp). apply in_map_iff in Hp as (q & <- & _).
    apply in_map_iff in H2 as (p' & E & Hp').
    apply (leaves_props_head kvs) in Hp' as (k' & rest & Hhead & Hk').
    rewrite E in Hhead. injection Hhead as -> _. contradiction.
Qed.

Lemma leaves_elems_NoDup (xs : list value) (i : nat) :
  Forall (fun x => List.NoDup (map fst (leaves x))) xs ->
  List.NoDup (map fst (leaves_elems leaves i xs)).
Proof.
  intros Hall. revert i. induction Hall as [|x xs Hx _ IH]; intros i; [constructor|].
  cbn [leaves_elems]. rewrite map_app. apply List.NoDup_app.
  - now apply under_NoDup.
  - apply IH.
  - intros path H1 H2.
    apply in_map_iff in H1 as (p & <- & Hp). apply in_map_iff in Hp as (q & <- & _).
    apply in_map_iff in H2 as (p' & E & Hp').
    apply leaves_elems_head in Hp' as (j & rest & Hhead & Hj).
    rewrite E in Hhead. injection Hhead as -> _. lia.
Qed.

Lemma leaves_NoDup (v : value) :
  string_tree v = true -> List.NoDup (map fst (leaves v)).
Proof.
  induction v as [ | | b | n | s | xs IH | kvs IH ] using value_ind;
    intros Hv; try discriminate.
  - repeat constructor. intros [].
  - rewrite leaves_arr. apply leaves_elems_NoDup.
    apply string_tree_arr in Hv. rewrite List.Forall_forall in *. auto.
  - rewrite leaves_obj. apply string_tree_obj in Hv as [Hnd Hall].
    apply leaves_props_NoDup; [exact Hnd|].
    rewrite List.Forall_forall in *. auto.
Qed.

Lemma path_texts_NoDup (ps : list (list step * string)) :
  Forall pair_ok ps -> List.NoDup (map fst ps) ->
  List.NoDup (map (fun p => path_text (fst p)) ps).
Proof.
  intros Hall Hnd. rewrite <- (map_map fst path_text).
  apply NoDup_map_NoDup_ForallPairs; [|exact Hnd].
  intros x y Hx Hy E.
  apply in_map_iff in Hx as (p & <- & Hp). apply in_map_iff in Hy as (q & <- & Hq).
  rewrite List.Forall_forall in Hall. apply path_text_inj; auto.
Qed.

(** ** [parseValues] on printed pairs *)

Lemma steps_text_special (steps : list step) :
  steps <> [] ->
  contains "." (steps_text steps) || contains "[" (steps_text steps) = true.
Proof.
  destruct steps as [|[k|i] steps]; [contradiction | reflexivity |]. intros _.
  apply orb_true_iff. right. cbn [steps_text step_text].
  rewrite !contains_app. reflexivity.
Qed.

Lemma path_text_plain (p : list step * string) :
  pair_ok p ->
  contains "." (path_text (fst p)) || contains "[" (path_text (fst p)) = false ->
  exists top, fst p = [Key top] /\ path_text (fst p) = top.
Proof.
  intros (top & steps & Hp & _) H. rewrite Hp in *. cbn [path_text] in *.
  destruct steps as [|s steps].
  - exists top. split; [reflexivity | apply append_nil_r].
  - exfalso. rewrite !contains_app in H.
    pose proof (steps_text_special (s :: steps) ltac:(discriminate)) as Hs.
    destruct (contains "." top), (contains "[" top),
      (contains "." (steps_text (s :: steps))), (contains "[" (steps_text (s :: steps)));
      discriminate.
Qed.

Lemma path_text_not_proto (p : list step * string) :
  pair_ok p -> (path_text (fst p) =? "__proto__")%string = false.
Proof.
  intros Hp. apply String.eqb_neq. intros E.
  destruct (path_text_plain p Hp) as (top & Hfst & Htop); [now rewrite E|].
  rewrite Htop in E. subst top.
  destruct Hp as (top' & steps & Hp & (_ & _ & Hproto) & _).
  rewrite Hp in Hfst. injection Hfst as -> _. discriminate Hproto.
Qed.

Lemma parse_values_pairs (ps : list (list step * string)) :
  Forall pair_ok ps ->
  List.NoDup (map (fun p => path_text (fst p)) ps) ->
  forall tmp,
  (forall p, In p ps -> has_own (path_text (fst p)) tmp = false) ->
  parse_values (map (pair_text "=") ps) tmp = tmp ++ map pair_entry ps.
Proof.
  induction 1 as [|p ps Hp _ IH]; intros Hnd tmp Hfresh; simpl.
  - now rewrite app_nil_r.
  - inversion Hnd as [|? ? Hnotin Hnd']; subst.
    rewrite (parse_part_pair p Hp). unfold pair_entry at 1.
    rewrite (path_text_not_proto p Hp), (Hfresh p) by now left.
    rewrite set_prop_fresh by (apply Hfresh; now left).
    rewrite (IH Hnd').
    + now rewrite <- app_assoc.
    + intros q Hq. rewrite has_own_app, (Hfresh q) by now right. simpl.
      destruct (String.eqb_spec (path_text (fst p)) (path_text (fst q))) as [E|_];
        [|reflexivity].
      exfalso. apply Hnotin. rewrite E. now apply (in_map (fun p => path_text (fst p))).
Qed.

Lemma fold_graft_pairs (ps : list (list step * string)) (acc : value) :
  Forall pair_ok ps ->
  fold_left (fun obj kv => merge obj (parse_keys (fst kv) (snd kv)))
            (map pair_entry ps) acc
  = fold_left graft ps acc.
Proof.
  intros Hall. revert acc. induction Hall as [|p ps Hp _ IH]; intros acc; [reflexivity|].
  simpl. rewrite (parse_keys_pair p _ Hp). apply IH.
Qed.

(** ** [compact] and the rebuilt map *)

Lemma compact_string_tree (v : value) : string_tree v = true -> compact v = v.
Proof.
  induction v as [ | | b | n | s | xs IH | kvs IH ] using value_ind;
    intros Hv; try discriminate; [reflexivity | |].
  - apply string_tree_arr in Hv. simpl. f_equal.
    induction IH as [|x xs Hx _ IHxs]; [reflexivity|].
    inversion Hv as [|? ? Hvx Hvxs]; subst.
    rewrite (Hx Hvx), (IHxs Hvxs). now destruct x.
  - apply string_tree_obj in Hv as [_ Hv]. simpl. f_equal.
    induction IH as [|[k x] kvs Hx _ IHkvs]; [reflexivity|].
    inversion Hv as [|? ? Hvx Hvxs]; subst. simpl in *.
    now rewrite (Hx Hvx), (IHkvs Hvxs).
Qed.

Lemma plant_args (e : obj) :
  List.NoDup (map fst e) -> Forall (fun kv => string_tree (snd kv) = true) e ->
  fold_left graft (leaves (VObj e)) (VObj []) = VObj e.
Proof.
  intros Hnd Hall. destruct e as [|kv e]; [reflexivity|].
  assert (Htree : string_tree (VObj (kv :: e)) = true).
  { cbn [string_tree length Nat.eqb negb andb]. apply andb_true_iff. split.
    - clear Hall. induction (map fst (kv :: e)) as [|k ks IH]; [reflexivity|].
      inversion Hnd as [|? ? Hk Hnd']; subst. cbn [nodup_keys].
      rewrite (IH Hnd'), andb_true_r. apply negb_true_iff.
      destruct (existsb (String.eqb k) ks) eqn:E; [|reflexivity].
      apply existsb_exists in E as (k' & Hin & E). apply String.eqb_eq in E. now subst.
    - apply forallb_forall. now apply List.Forall_forall. }
  destruct (plant_leaves _ Htree) as (p & ps & Hl & Hfold).
  rewrite Hl. cbn [fold_left].
  assert (Hp : In p (leaves_props leaves (kv :: e))) by (rewrite <- leaves_obj, Hl; now left).
  apply leaves_props_head in Hp as (k & rest & Hhead & _).
  unfold graft at 2. rewrite Hhead in *. cbn [chain_value] in *.
  now rewrite merge_obj_key.
Qed.

(** ** The maps on which the codec round-trips *)

Lemma index_step_ok (i : nat) : (i <= 20)%nat -> step_ok (Index i).
Proof.
  intros Hi. unfold step_ok, name_ok. cbn [step_name].
  do 21 (destruct i as [|i];
         [split; [split; [discriminate | split; vm_compute; reflexivity]
                 | vm_compute; reflexivity]|]).
  lia.
Qed.

Lemma codec_safe_key_ok (k : string) : codec_safe_key k = true -> name_ok k.
Proof.
  unfold codec_safe_key, name_ok. intros H.
  apply andb_true_iff in H as [H Hproto]. apply andb_true_iff in H as [Hne Hfree].
  apply negb_true_iff in Hne, Hproto. apply String.eqb_neq in Hne. auto.
Qed.

Lemma codec_safe_string_ok (s : string) : codec_safe_string s = true -> leaf_ok s.
Proof.
  unfold codec_safe_string, leaf_ok. intros H.
  apply andb_true_iff in H as [H Hidx]. apply andb_true_iff in H as [Hsemi Hdec].
  apply negb_true_iff in Hsemi. apply String.eqb_eq in Hdec.
  destruct (index_of2 "]" "=" s); [discriminate | auto].
Qed.

Lemma steps_ok_under (s : step) (depth : nat) (ps : list (list step * string)) :
  step_ok s -> Forall (steps_ok depth) ps -> Forall (steps_ok (S depth)) (under s ps).
Proof.
  intros Hs Hall. apply List.Forall_forall. intros p Hin.
  apply in_map_iff in Hin as (q & <- & Hq). rewrite List.Forall_forall in Hall.
  destruct (Hall q Hq) as (H1 & H2 & H3). unfold steps_ok. cbn [fst snd length].
  split; [now constructor | split; [lia | exact H3]].
Qed.

Lemma codec_safe_nested_ok (v : value) (depth : nat) :
  codec_safe_nested depth v = true ->
  string_tree v = true /\ Forall (steps_ok depth) (leaves v).
Proof.
  revert depth.
  induction v as [ | | b | n | s | xs IH | kvs IH ] using value_ind;
    intros depth Hv; try (destruct depth; discriminate).
  - assert (Hs : codec_safe_string s = true) by (now destruct depth).
    split; [reflexivity|]. constructor; [|constructor].
    split; [constructor | split; [simpl; lia | now apply codec_safe_string_ok]].
  - destruct depth as [|depth]; [discriminate|]. cbn [codec_safe_nested] in Hv.
    apply andb_true_iff in Hv as [Hv Hall]. apply andb_true_iff in Hv as [Hne Hlen].
    apply Nat.leb_le in Hlen. cbn [string_tree]. rewrite Hne. cbn [andb].
    rewrite leaves_arr.
    assert (Hgen : forall i, (i + length xs <= 21)%nat ->
              forallb string_tree xs = true
              /\ Forall (steps_ok (S depth)) (leaves_elems leaves i xs)).
    { clear Hne Hlen. induction IH as [|x xs Hx _ IHxs]; intros i Hi.
      - split; [reflexivity | constructor].
      - cbn [forallb] in Hall. apply andb_true_iff in Hall as [Hvx Hall].
        destruct (Hx _ Hvx) as [Htree Hleaves]. cbn [length] in Hi.
        destruct (IHxs Hall (S i)) as [Htrees Hrest]; [lia|].
        split; [cbn [forallb]; now rewrite Htree, Htrees|].
        cbn [leaves_elems]. apply Forall_app. split; [|exact Hrest].
        apply steps_ok_under; [apply index_step_ok; lia | exact Hleaves]. }
    apply (Hgen 0%nat). lia.
  - destruct depth as [|depth]; [discriminate|]. cbn [codec_safe_nested] in Hv.
    apply andb_true_iff in Hv as [Hv Hall]. apply andb_true_iff in Hv as [Hne Hnd].
    cbn [string_tree]. rewrite Hne, Hnd. cbn [andb].
    rewrite leaves_obj. unfold leaves_props. clear Hne Hnd.
    induction IH as [|[k x] kvs Hx _ IHkvs].
    + split; [reflexivity | constructor].
    + cbn [forallb fst snd] in Hall. cbn [snd] in Hx.
      apply andb_true_iff in Hall as [Hkx Hall].
      apply andb_true_iff in Hkx as [Hk Hvx]. apply andb_true_iff in Hk as [Hk Hidx].
      destruct (Hx _ Hvx) as [Htree Hleaves]. destruct (IHkvs Hall) as [Htrees Hrest].
      split; [cbn [forallb snd]; now rewrite Htree, Htrees|].
      cbn [flat_map fst snd]. apply Forall_app. split; [|exact Hrest].
      apply steps_ok_under; [|exact Hleaves].
      split; [now apply codec_safe_key_ok|].
      now destruct (small_index k).
Qed.

Lemma codec_safe_args_entries (a : obj) :
  codec_safe_args a = true ->
  (length (leaves (VObj a)) <= 1000)%nat
  /\ List.NoDup (map fst a)
  /\ Forall (fun kv => name_ok (fst kv) /\ codec_safe_nested 5 (snd kv) = true) a.
Proof.
  unfold codec_safe_args. intros H.
  apply andb_true_iff in H as [H Hall]. apply andb_true_iff in H as [Hlen Hnd].
  apply Nat.leb_le in Hlen. rewrite stringify_pairs, length_map in Hlen.
  split; [exact Hlen|]. split; [now apply nodup_keys_NoDup|].
  apply List.Forall_forall. intros kv Hin. rewrite forallb_forall in Hall.
  specialize (Hall kv Hin). apply andb_true_iff in Hall as [Hk Hv].
  split; [now apply codec_safe_key_ok | exact Hv].
Qed.

Lemma entries_pairs_ok (e : obj) :
  Forall entry_ok e -> Forall pair_ok (leaves (VObj e)).
Proof.
  rewrite leaves_obj. unfold leaves_props.
  induction 1 as [|[k v] e [Hk Hv] _ IH]; [constructor|].
  cbn [flat_map fst snd] in *. apply Forall_app. split; [|exact IH].
  destruct (codec_safe_nested_ok v 5 Hv) as [_ Hleaves].
  apply List.Forall_forall. intros p Hin. apply in_map_iff in Hin as (q & <- & Hq).
  rewrite List.Forall_forall in Hleaves. destruct (Hleaves q Hq) as (H1 & H2 & H3).
  exists k, (fst q). auto.
Qed.

Lemma entries_string_trees (e : obj) :
  Forall entry_ok e -> Forall (fun kv => string_tree (snd kv) = true) e.
Proof.
  apply List.Forall_impl. intros kv [_ Hv]. now apply codec_safe_nested_ok in Hv.
Qed.

(** ** The order in which the pairs are read back *)

Lemma digits_value_free (c : ascii) (s : string) (acc n : N) :
  (N_of_ascii c <? 48)%N || (57 <? N_of_ascii c)%N = true ->
  digits_value acc s = Some n -> contains c s = false.
Proof.
  intros Hc. revert acc. induction s as [|a s IH]; intros acc H; [reflexivity|].
  cbn [digits_value] in H. cbv zeta in H.
  destruct ((48 <=? N_of_ascii a)%N && (N_of_ascii a <=? 57)%N) eqn:E; [|discriminate].
  simpl. rewrite (IH _ H), orb_false_r.
  destruct (Ascii.eqb_spec a c) as [->|]; [|reflexivity].
  apply andb_true_iff in E as [E1 E2]. apply N.leb_le in E1, E2.
  apply orb_true_iff in Hc as [Hc|Hc]; apply N.ltb_lt in Hc; lia.
Qed.

Lemma array_index_free (c : ascii) (s : string) :
  (N_of_ascii c <? 48)%N || (57 <? N_of_ascii c)%N = true ->
  is_array_index s = true -> contains c s = false.
Proof.
  intros Hc. unfold is_array_index, array_index, canonical_index.
  destruct s as [|a s]; [discriminate|].
  destruct (Ascii.eqb a "0" && negb (s =? "")%string); [discriminate|].
  destruct (digits_value 0 (String a s)) as [n|] eqn:E; [|discriminate].
  intros _. now apply (digits_value_free c _ _ _ Hc E).
Qed.

Lemma pair_entry_index (p : list step * string) :
  pair_ok p -> is_array_index (path_text (fst p)) = true ->
  exists top, fst p = [Key top] /\ path_text (fst p) = top.
Proof.
  intros Hp Hidx. apply (path_text_plain p Hp).
  now rewrite (array_index_free "." _ eq_refl Hidx), (array_index_free "[" _ eq_refl Hidx).
Qed.

(** The pairs of an entry with a string value, and of one with an array
    or an object. *)
Lemma entry_pairs_flat (k : string) (s : string) (e : obj) :
  map pair_entry (leaves (VObj ((k, VStr s) :: e)))
  = (k, VStr s) :: map pair_entry (leaves (VObj e)).
Proof.
  rewrite !leaves_obj. unfold leaves_props. cbn [flat_map fst snd leaves under map app].
  unfold pair_entry at 1. cbn [fst snd path_text steps_text].
  now rewrite append_nil_r.
Qed.

Lemma entry_pairs_app (kv : string * value) (e : obj) :
  leaves (VObj (kv :: e)) = under (Key (fst kv)) (leaves (snd kv)) ++ leaves (VObj e).
Proof. reflexivity. Qed.

Lemma filter_all {A : Type} (f : A -> bool) (l : list A) :
  Forall (fun x => f x = true) l -> List.filter f l = l.
Proof. induction 1 as [|x l Hx _ IH]; simpl; [reflexivity | now rewrite Hx, IH]. Qed.

Lemma filter_nothing {A : Type} (f : A -> bool) (l : list A) :
  Forall (fun x => f x = false) l -> List.filter f l = [].
Proof. induction 1 as [|x l Hx _ IH]; simpl; [reflexivity | now rewrite Hx, IH]. Qed.

Lemma nested_pairs_not_index (k : string) (v : value) :
  entry_ok (k, v) -> is_object v = true ->
  Forall (fun kv => is_array_index (fst kv) = false)
         (map pair_entry (under (Key k) (leaves v))).
Proof.
  intros Hkv Hobj. apply List.Forall_forall. intros kv Hin.
  apply in_map_iff in Hin as (p & <- & Hp).
  assert (Hok : pair_ok p).
  { pose proof (entries_pairs_ok [(k, v)] (@List.Forall_cons _ entry_ok (k, v) [] Hkv (List.Forall_nil _))) as Hall.
    rewrite entry_pairs_app, app_nil_r in Hall. cbn [fst snd] in Hall.
    rewrite List.Forall_forall in Hall. now apply Hall. }
  destruct (is_array_index (fst (pair_entry p))) eqn:E; [|reflexivity]. exfalso.
  destruct (pair_entry_index p Hok E) as (top & Hfst & _).
  apply in_map_iff in Hp as (q & <- & Hq). cbn [fst] in Hfst.
  injection Hfst as _ Hnil.
  pose proof (leaves_steps v Hobj) as Hsteps. rewrite List.Forall_forall in Hsteps.
  now apply (Hsteps q Hq).
Qed.

Lemma pairs_partition (e : obj) :
  Forall entry_ok e ->
  List.filter (fun kv => is_array_index (fst kv)) (map pair_entry (leaves (VObj e)))
  = List.filter is_flat_index e
  /\ List.filter (fun kv => negb (is_array_index (fst kv))) (map pair_entry (leaves (VObj e)))
     = map pair_entry (leaves (VObj (List.filter (fun kv => negb (is_flat_index kv)) e))).
Proof.
  induction 1 as [|[k v] e Hkv _ [IH1 IH2]]; [split; reflexivity|].
  pose proof Hkv as [_ Hv]. cbn [snd] in Hv.
  destruct (is_object v) eqn:Hobj.
  - pose proof (nested_pairs_not_index k v Hkv Hobj) as Hnot.
    assert (Hflat : is_flat_index (k, v) = false).
    { unfold is_flat_index. cbn [fst snd]. now rewrite Hobj, andb_false_r. }
    rewrite entry_pairs_app, map_app, !List.filter_app. cbn [fst snd].
    pose proof (filter_nothing (fun kv => is_array_index (fst kv)) _ Hnot) as F1.
    assert (F2 : List.filter (fun kv => negb (is_array_index (fst kv)))
                   (map pair_entry (under (Key k) (leaves v)))
                 = map pair_entry (under (Key k) (leaves v))).
    { apply filter_all. eapply List.Forall_impl; [|exact Hnot]. now intros ? ->. }
    rewrite F1, F2. cbn [List.filter]. rewrite Hflat. cbn [negb app].
    rewrite IH1. split; [reflexivity|].
    now rewrite entry_pairs_app, map_app, IH2.
  - destruct v as [ | | | | s | | ]; try (destruct Hkv as [_ Hv']; discriminate).
    assert (Hflat : is_flat_index (k, VStr s) = is_array_index k).
    { unfold is_flat_index. cbn [fst snd is_object negb]. apply andb_true_r. }
    rewrite entry_pairs_flat. cbn [List.filter fst]. rewrite Hflat.
    destruct (is_array_index k); cbn [negb].
    + rewrite IH1, IH2. split; reflexivity.
    + rewrite IH1, IH2. split; [reflexivity|]. now rewrite entry_pairs_flat.
Qed.

Lemma insert_indexed_Permutation (kv : string * value) (l : obj) :
  Permutation (insert_indexed kv l) (kv :: l).
Proof.
  induction l as [|kv' l IH]; simpl; [reflexivity|].
  destruct (index_le (fst kv) (fst kv')); [reflexivity|].
  rewrite IH. apply perm_swap.
Qed.

Lemma sort_indexed_Permutation (l : obj) :
  Permutation (fold_right insert_indexed [] l) l.
Proof.
  induction l as [|kv l IH]; simpl; [reflexivity|].
  rewrite insert_indexed_Permutation. now apply perm_skip.
Qed.

Lemma filter_Permutation {A : Type} (f : A -> bool) (l : list A) :
  Permutation (List.filter f l ++ List.filter (fun x => negb (f x)) l) l.
Proof.
  induction l as [|x l IH]; simpl; [reflexivity|].
  destruct (f x); simpl; [now apply perm_skip|].
  rewrite <- Permutation_middle. now apply perm_skip.
Qed.

Lemma read_order_Permutation (a : obj) : Permutation (read_order a) a.
Proof.
  unfold read_order. rewrite sort_indexed_Permutation. apply filter_Permutation.
Qed.

Lemma flat_entries_pairs (l : obj) :
  Forall (fun kv => is_object (snd kv) = false /\ string_tree (snd kv) = true) l ->
  map pair_entry (leaves (VObj l)) = l.
Proof.
  induction 1 as [|[k v] l [Hobj Hv] _ IH]; [reflexivity|].
  destruct v; try discriminate. now rewrite entry_pairs_flat, IH.
Qed.

Lemma leaves_obj_app (l1 l2 : obj) :
  leaves (VObj (l1 ++ l2)) = leaves (VObj l1) ++ leaves (VObj l2).
Proof. rewrite !leaves_obj. unfold leaves_props. apply flat_map_app. Qed.

(** [Object.keys] of the temporary object enumerates the pairs of the map
    in its reading order. *)
Lemma own_keys_order_pairs (a : obj) :
  Forall entry_ok a ->
  own_keys_order (map pair_entry (leaves (VObj a)))
  = map pair_entry (leaves (VObj (read_order a))).
Proof.
  intros Hall. destruct (pairs_partition a Hall) as [H1 H2].
  unfold own_keys_order, read_order. rewrite H1, H2, leaves_obj_app, map_app.
  f_equal. symmetry. apply flat_entries_pairs.
  apply List.Forall_forall. intros kv Hin.
  apply (Permutation_in _ (sort_indexed_Permutation _)) in Hin.
  apply filter_In in Hin as [Hin Hflat].
  unfold is_flat_index in Hflat. apply andb_true_iff in Hflat as [_ Hobj].
  apply negb_true_iff in Hobj. split; [exact Hobj|].
  rewrite List.Forall_forall in Hall. destruct (Hall kv Hin) as [_ Hv].
  now apply codec_safe_nested_ok in Hv.
Qed.

(** ** Decoding an encoded map *)

Lemma compact_args (e : obj) :
  Forall (fun kv => string_tree (snd kv) = true) e -> compact (VObj e) = VObj e.
Proof.
  intros Hall. simpl. f_equal.
  induction Hall as [|[k v] e Hv _ IH]; [reflexivity|].
  simpl in *. now rewrite (compact_string_tree v Hv), IH.
Qed.

Lemma string_tree_leaves (v : value) : string_tree v = true -> leaves v <> [].
Proof.
  intros Hv. destruct (plant_leaves v Hv) as (p & ps & -> & _). discriminate.
Qed.

Lemma Forall_Permutation {A : Type} (P : A -> Prop) (l l' : list A) :
  Permutation l l' -> Forall P l' -> Forall P l.
Proof.
  intros Hperm Hall. rewrite List.Forall_forall in *. intros x Hin.
  apply Hall. now apply (Permutation_in _ Hperm).
Qed.

Lemma pairs_to_colon (ps : list (list step * string)) :
  Forall pair_ok ps ->
  map (replace_first "=" ":") (map (pair_text "=") ps) = map (pair_text ":") ps.
Proof.
  induction 1 as [|p ps Hp _ IH]; simpl; [reflexivity|].
  now rewrite (pair_text_to_colon p Hp), IH.
Qed.

Lemma pairs_to_equals (ps : list (list step * string)) :
  Forall pair_ok ps ->
  map (replace_first ":" "=") (map (pair_text ":") ps) = map (pair_text "=") ps.
Proof.
  induction 1 as [|p ps Hp _ IH]; simpl; [reflexivity|].
  now rewrite (pair_text_to_equals p Hp), IH.
Qed.

Lemma pairs_semicolon_free (sep : ascii) (ps : list (list step * string)) :
  Ascii.eqb sep ";" = false -> Forall pair_ok ps ->
  Forall (fun s => contains ";" s = false) (map (pair_text sep) ps).
Proof.
  intros Hsep. induction 1 as [|p ps Hp _ IH]; simpl; constructor; auto.
  now apply pair_text_semicolon.
Qed.

(** The fragment that encodes a map is the list of its pairs. *)
Lemma stringifyArgs_pairs (a : obj) :
  Forall entry_ok a ->
  stringifyArgs a = String.concat ";" (map (pair_text ":") (leaves (VObj a))).
Proof.
  intros Hall. pose proof (entries_pairs_ok a Hall) as Hok.
  unfold stringifyArgs, qs_stringify. rewrite stringify_pairs.
  destruct (leaves (VObj a)) as [|p ps] eqn:E; [reflexivity|].
  rewrite split_on_concat;
    [| discriminate | now apply pairs_semicolon_free].
  now rewrite pairs_to_colon.
Qed.

(** Decoding a fragment that lists pairs gives back the map of those
    pairs, in reading order. *)
Lemma parseArgs_pairs (a : obj) :
  (length (leaves (VObj a)) <= 1000)%nat ->
  List.NoDup (map fst a) -> Forall entry_ok a ->
  parseArgs (String.concat ";" (map (pair_text ":") (leaves (VObj a))))
  = read_order a.
Proof.
  intros Hlen Hnd Hall.
  pose proof (entries_pairs_ok a Hall) as Hok.
  pose proof (entries_string_trees a Hall) as Htrees.
  destruct a as [|kv a]; [reflexivity|].
  assert (Hne : leaves (VObj (kv :: a)) <> []).
  { rewrite entry_pairs_app. inversion Htrees as [|? ? Hv _]; subst.
    apply string_tree_leaves in Hv. destruct (leaves (snd kv)); [contradiction | discriminate]. }
  set (e := kv :: a) in *. clearbody e. 
  assert (Hsplit : forall sep, Ascii.eqb sep ";" = false ->
            split_on ";" (String.concat ";" (map (pair_text sep) (leaves (VObj e))))
            = map (pair_text sep) (leaves (VObj e))).
  { intros sep Hsep. apply split_on_concat; [|now apply pairs_semicolon_free].
    destruct (leaves (VObj e)); [contradiction | discriminate]. }
  unfold parseArgs. rewrite (Hsplit ":"%char eq_refl), (pairs_to_equals _ Hok).
  unfold qs_parse.
  destruct (String.eqb_spec (String.concat ";" (map (pair_text "=") (leaves (VObj e)))) "")
    as [E|_].
  { exfalso. revert E. destruct (leaves (VObj e)) as [|p ps]; [contradiction|].
    apply concat_nonempty, pair_text_nonempty. }
  rewrite (Hsplit "="%char eq_refl).
  rewrite firstn_all2 by now rewrite length_map.
  assert (Hpaths : List.NoDup (map (fun p => path_text (fst p)) (leaves (VObj e)))).
  { apply path_texts_NoDup; [exact Hok|].
    rewrite leaves_obj. apply leaves_props_NoDup; [exact Hnd|].
    eapply List.Forall_impl; [|exact Htrees]. intros ?. apply leaves_NoDup. }
  rewrite (parse_values_pairs _ Hok Hpaths []) by (intros; reflexivity).
  cbn [app]. rewrite (own_keys_order_pairs e Hall).
  pose proof (read_order_Permutation e) as Hperm.
  rewrite fold_graft_pairs
    by (apply entries_pairs_ok; now apply (Forall_Permutation _ _ _ Hperm)).
  rewrite plant_args;
    [| now apply (Permutation_NoDup (Permutation_map fst (Permutation_sym Hperm)))
     | now apply (Forall_Permutation _ _ _ Hperm) ].
  now rewrite compact_args by now apply (Forall_Permutation _ _ _ Hperm).
Qed.

(** On the safe maps decoding undoes encoding, up to the order of the
    entries. *)
Lemma parseArgs_stringifyArgs (a : obj) :
  codec_safe_args a = true -> parseArgs (stringifyArgs a) = read_order a.
Proof.
  intros Hsafe. destruct (codec_safe_args_entries a Hsafe) as (Hlen & Hnd & Hall).
  rewrite (stringifyArgs_pairs a Hall). now apply parseArgs_pairs.
Qed.

Lemma string_tree_wf (v : value) : string_tree v = true -> wf_value v = true.
Proof.
  induction v as [ | | b | n | s | xs IH | kvs IH ] using value_ind;
    intros Hv; try discriminate; try reflexivity.
  - apply string_tree_arr in Hv. simpl. apply forallb_forall. intros x Hin.
    rewrite List.Forall_forall in IH, Hv. auto.
  - pose proof Hv as Hv'. apply string_tree_obj in Hv' as [_ Hall].
    simpl in Hv. apply andb_true_iff in Hv as [Hv _]. apply andb_true_iff in Hv as [_ Hnd].
    simpl. rewrite Hnd. apply forallb_forall. intros x Hin.
    rewrite List.Forall_forall in IH, Hall. auto.
Qed.

Lemma NoDup_nodup_keys (ks : list string) : List.NoDup ks -> nodup_keys ks = true.
Proof.
  induction 1 as [|k ks Hk _ IH]; [reflexivity|]. simpl. rewrite IH, andb_true_r.
  apply negb_true_iff. destruct (existsb (String.eqb k) ks) eqn:E; [|reflexivity].
  apply existsb_exists in E as (k' & Hin & E). apply String.eqb_eq in E. now subst.
Qed.

(** Two maps with the same entries, in whatever order, are deep-equal. *)
Lemma deepEqual_Permutation (a b : obj) :
  Permutation a b -> wf_obj b = true -> deepEqual (VObj a) (VObj b) = true.
Proof.
  intros Hperm Hwf. unfold wf_obj in Hwf. simpl in Hwf.
  apply andb_true_iff in Hwf as [Hnd Hall]. apply nodup_keys_NoDup in Hnd.
  rewrite deepEqual_obj, (Permutation_length Hperm), Nat.eqb_refl. cbn [andb].
  apply andb_true_iff. split; apply forallb_forall; intros [k v] Hin;
    apply (Permutation_in _ Hperm) in Hin; cbn [fst snd].
  - apply has_own_In_keys. now apply (in_map fst) in Hin.
  - unfold prop. rewrite (In_get_own k v b Hnd Hin).
    apply deepEqual_refl. rewrite forallb_forall in Hall. exact (Hall _ Hin).
Qed.

Lemma codec_safe_args_wf (a : obj) : codec_safe_args a = true -> wf_obj a = true.
Proof.
  intros Hsafe. destruct (codec_safe_args_entries a Hsafe) as (_ & Hnd & Hall).
  unfold wf_obj. simpl. rewrite (NoDup_nodup_keys _ Hnd). apply forallb_forall.
  intros kv Hin. apply string_tree_wf.
  pose proof (entries_string_trees a Hall) as Htrees.
  rewrite List.Forall_forall in Htrees. auto.
Qed.


(** ** The flat maps of strings *)

Lemma codec_safe_entries (a : obj) :
  codec_safe a = true ->
  (length a <= 1000)%nat /\ List.NoDup (map fst a) /\ Forall safe_entry a.
Proof.
  unfold codec_safe. intros H.
  apply andb_true_iff in H as [H Hall]. apply andb_true_iff in H as [Hlen Hnd].
  split; [now apply Nat.leb_le|]. split; [now apply nodup_keys_NoDup|].
  apply List.Forall_forall. intros kv Hin. rewrite forallb_forall in Hall.
  specialize (Hall kv Hin). now apply andb_true_iff in Hall.
Qed.

Lemma codec_safe_value_string (v : value) :
  codec_safe_value v = true -> exists s, v = VStr s /\ codec_safe_string s = true.
Proof.
  unfold codec_safe_value. destruct v as [ | | | | s | | ]; try discriminate.
  intros H. apply andb_true_iff in H as [Hfree Hidx]. exists s. split; [reflexivity|].
  unfold codec_safe_string. rewrite Hidx, andb_true_r.
  rewrite (free_of_In _ _ ";"%char Hfree) by (simpl; tauto). cbn [negb andb].
  apply String.eqb_eq.
  apply qs_decode_plain; eapply free_of_In; try exact Hfree; simpl; tauto.
Qed.

(** A flat map of safe strings is one of the maps on which the codec
    round-trips. *)
Lemma codec_safe_args_flat (a : obj) :
  codec_safe a = true -> codec_safe_args a = true.
Proof.
  intros Hsafe. destruct (codec_safe_entries a Hsafe) as (Hlen & Hnd & Hall).
  unfold codec_safe_args. rewrite (NoDup_nodup_keys _ Hnd), andb_true_r.
  apply andb_true_iff. split.
  - apply Nat.leb_le.
    replace (length (flat_map (fun kv => stringify_value (fst kv) (snd kv)) a))
      with (length a); [exact Hlen|].
    clear Hlen Hnd Hsafe. induction Hall as [|[k v] a [_ Hv] _ IH]; [reflexivity|].
    cbn [snd] in Hv. apply codec_safe_value_string in Hv as (s & -> & _).
    simpl. now rewrite IH.
  - apply forallb_forall. intros [k v] Hin. rewrite List.Forall_forall in Hall.
    destruct (Hall _ Hin) as [Hk Hv]. cbn [fst snd] in *. rewrite Hk.
    apply codec_safe_value_string in Hv as (s & -> & Hs). exact Hs.
Qed.

Lemma codec_safe_wf (a : obj) : codec_safe a = true -> wf_obj a = true.
Proof. intros H. now apply codec_safe_args_wf, codec_safe_args_flat. Qed.

(** C1 (as amended): [parseArgs (stringifyArgs a)] is deep-equal to [a]
    for every args map [a] that is built from strings, arrays of 1 to 21
    elements and non-empty objects, nested at most five levels below a
    top-level key and holding at most 1000 strings in all, provided that
    - every key is non-empty, unique in its object, no property name of
      [Object.prototype], and free of [; : = . [ ] + %];
    - no key below the top level is an array index up to 20 (written in
      decimal without leading zero);
    - every string is free of [;] and of the sequence "]=", and is left
      as it is by the decoder of [qs]: it holds no [+], and no [%] unless
      [decodeURIComponent] rejects it. *)
Theorem C1_roundtrip_on_safe_maps (a : obj) :
  codec_safe_args a = true ->
  deepEqual (VObj (parseArgs (stringifyArgs a))) (VObj a) = true.
Proof.
  intros Hsafe. rewrite (parseArgs_stringifyArgs a Hsafe).
  apply deepEqual_Permutation; [apply read_order_Permutation|].
  now apply codec_safe_args_wf.
Qed.

Lemma C1_roundtrip_witness :
  let a := [("0", VStr "zero"); ("10", VStr "ten");
            ("label", VStr "Hello world");
            ("style",
             VObj [("size", VStr "x=1:2.5");
                   ("tags", VArr [VStr "100%"; VObj [("name", VStr "")]])])] in
  codec_safe_args a = true
  /\ stringifyArgs a
     = "0:zero;10:ten;label:Hello world;style.size:x=1:2.5;style.tags[0]:100%;style.tags[1].name:"
  /\ deepEqual (VObj (parseArgs (stringifyArgs a))) (VObj a) = true.
Proof.
  intros a. split; [vm_compute; reflexivity|]. split; [vm_compute; reflexivity|].
  apply (C1_roundtrip_on_safe_maps a). vm_compute. reflexivity.
Defined.

(** C1 (as stated) fails: the number [1] contains no delimiter, is encoded
    as [a:1] and decoded as the string ["1"], which is not deep-equal. *)
Lemma C1_number_decodes_as_string :
  let a := [("a", VNum 1)] in
  stringifyArgs a = "a:1"
  /\ parseArgs (stringifyArgs a) = [("a", VStr "1")]
  /\ deepEqual (VObj (parseArgs (stringifyArgs a))) (VObj a) = false.
Proof. repeat split; vm_compute; reflexivity. Qed.

(** Why the amended claim asks what it asks. *)
Example codec_boolean_and_null_come_back_as_strings :
  parseArgs (stringifyArgs [("on", VBool true); ("note", VNull)])
  = [("on", VStr "true"); ("note", VStr "")].
Proof. vm_compute. reflexivity. Qed.

Example codec_empty_array_is_dropped :
  parseArgs (stringifyArgs [("items", VArr []); ("style", VObj [])]) = [].
Proof. vm_compute. reflexivity. Qed.

Example codec_index_key_becomes_array :
  parseArgs (stringifyArgs [("a", VObj [("0", VStr "x")])]) = [("a", VArr [VStr "x"])].
Proof. vm_compute. reflexivity. Qed.

Example codec_sixth_level_is_one_key :
  parseArgs "a.b.c.d.e.f.g:x"
  = [("a", VObj [("b", VObj [("c", VObj [("d", VObj [("e", VObj [("f",
       VObj [("[g]", VStr "x")])])])])])])].
Proof. vm_compute. reflexivity. Qed.

Example codec_index_21_is_a_key :
  parseArgs "a[0]:x;a[21]:y" = [("a", VObj [("0", VStr "x"); ("21", VStr "y")])].
Proof. vm_compute. reflexivity. Qed.

Example codec_escape_is_decoded :
  parseArgs (stringifyArgs [("a", VStr "%41"); ("b", VStr "100%"); ("c", VStr "%E2%82%AC")])
  = [("a", VStr "A"); ("b", VStr "100%"); ("c", VStr "€")].
Proof. vm_compute. reflexivity. Qed.

Example codec_bracket_equals_moves_the_separator :
  parseArgs (stringifyArgs [("a", VStr "x]=y")]) = [("a=x]", VStr "y")].
Proof. vm_compute. reflexivity. Qed.

(** ** QueryLocationParser *)

(** Case analysis on every condition of the goal. *)
Ltac split_ifs :=
  simpl;
  repeat match goal with
         | |- context [if ?c then _ else _] => destruct c; simpl
         end.

Section ParserFacts.
Context {Location : Type}.
Variable queryFromLocation : Location -> obj.
Variable toId : value -> value -> result string.
Variable sanitize : value -> result string.

Local Abbreviation parse := (initialUrlSupport Location queryFromLocation toId sanitize).

(** What a returning call hands back and leaves in the memo. *)
Lemma initialUrlSupport_Ok st i r st' :
  parse st i = (Ok r, st') ->
  let query := queryFromLocation (in_location i) in
  layout r = layout_of query
  /\ resolve_storyId toId sanitize (in_storyId i)
       (prop "selectedKind" query) (prop "selectedStory" query)
     = Ok (storyId r)
  /\ customQueryParams r
     = memoize (prevParams st)
         (mkRef (next_addr st) (rest_without known_keys query))
  /\ prevParams st' = Some (customQueryParams r).
Proof.
  unfold initialUrlSupport. simpl.
  destruct (resolve_storyId _ _ _ _ _) as [sid|e]; [|discriminate].
  intros [= <- <-]. simpl. auto.
Qed.

Lemma layout_of_panelPosition (query : obj) :
  panelPosition (layout_of query)
  = if is_str (prop "panelRight" query) "1" then Some (VStr "right")
    else if is_str (prop "panel" query) "right"
            || is_str (prop "panel" query) "bottom"
         then Some (prop "panel" query)
         else None.
Proof.
  unfold layout_of.
  destruct (prop "panel" query) as [ | | b | n | s | xs | kvs ]; simpl;
    try (split_ifs; reflexivity).
  destruct (String.eqb_spec s "right") as [->|_]; [split_ifs; reflexivity|].
  destruct (String.eqb_spec s "bottom") as [->|_]; [split_ifs; reflexivity|].
  destruct (s =? "")%string; split_ifs; reflexivity.
Qed.

Lemma layout_of_showPanel (query : obj) :
  showPanel (layout_of query)
  = if is_str (prop "addons" query) "0" || is_str (prop "panel" query) "0"
    then Some false else None.
Proof.
  unfold layout_of.
  destruct (prop "panel" query) as [ | | b | n | s | xs | kvs ]; simpl;
    try (split_ifs; reflexivity).
  destruct (String.eqb_spec s "0") as [->|_]; [split_ifs; reflexivity|].
  destruct (s =? "")%string, (s =? "right")%string, (s =? "bottom")%string;
    split_ifs; reflexivity.
Qed.

Lemma layout_of_showNav (query : obj) :
  showNav (layout_of query)
  = if is_str (prop "stories" query) "0" || is_str (prop "nav" query) "0"
    then Some false else None.
Proof.
  unfold layout_of. split_ifs; reflexivity.
Qed.

(** C2 (as amended): when keys of both schemes target one layout field,
    the legacy rule, evaluated last, decides.  [panelRight=1] gives
    [panelPosition = "right"] whatever [panel] says, and [panel] decides
    the position only otherwise; [showPanel] is [false] as soon as
    [addons=0] or [panel=0], [showNav] is [false] as soon as [stories=0]
    or [nav=0], and neither is ever set to [true]. *)
Theorem C2_legacy_rules_decide st i r st' :
  parse st i = (Ok r, st') ->
  let query := queryFromLocation (in_location i) in
  panelPosition (layout r)
  = (if is_str (prop "panelRight" query) "1" then Some (VStr "right")
     else if is_str (prop "panel" query) "right"
             || is_str (prop "panel" query) "bottom"
          then Some (prop "panel" query)
          else None)
  /\ showPanel (layout r)
     = (if is_str (prop "addons" query) "0" || is_str (prop "panel" query) "0"
        then Some false else None)
  /\ showNav (layout r)
     = (if is_str (prop "stories" query) "0" || is_str (prop "nav" query) "0"
        then Some false else None).
Proof.
  intros H. apply initialUrlSupport_Ok in H as (-> & _).
  split; [apply layout_of_panelPosition|].
  split; [apply layout_of_showPanel | apply layout_of_showNav].
Qed.


(** C6: when the passthrough maps extracted by two successive calls are
    deep-equal, the second call returns the object (same reference) that
    the first returned, and the memo slot holds that latest result. *)
Theorem C6_memo_keeps_reference st i1 r1 st1 i2 r2 st2 :
  parse st i1 = (Ok r1, st1) ->
  parse st1 i2 = (Ok r2, st2) ->
  deepEqual
    (VObj (rest_without known_keys (queryFromLocation (in_location i1))))
    (VObj (rest_without known_keys (queryFromLocation (in_location i2))))
  = true ->
  customQueryParams r2 = customQueryParams r1
  /\ addr (customQueryParams r2) = addr (customQueryParams r1)
  /\ prevParams st2 = Some (customQueryParams r2).
Proof.
  intros H1 H2 Heq.
  apply initialUrlSupport_Ok in H1 as (_ & _ & Hr1 & Hp1).
  apply initialUrlSupport_Ok in H2 as (_ & _ & Hr2 & Hp2).
  assert (Hsame : customQueryParams r2 = customQueryParams r1).
  { rewrite Hr2, Hp1. unfold memoize at 1. cbn [content].
    assert (Hprev : deepEqual (VObj (content (customQueryParams r1)))
              (VObj (rest_without known_keys (queryFromLocation (in_location i2))))
            = true).
    { rewrite Hr1. unfold memoize.
      destruct (prevParams st) as [p|]; [|exact Heq].
      destruct (deepEqual (VObj (content p)) _) eqn:Hp; [|exact Heq].
      eapply deepEqual_trans; eassumption. }
    now rewrite Hprev. }
  split; [exact Hsame|]. split; [now rewrite Hsame | exact Hp2].
Qed.
End ParserFacts.

Lemma C2_legacy_rules_decide_witness :
  let query := [("panel", VStr "bottom"); ("panelRight", VStr "0");
                ("nav", VStr "1"); ("stories", VStr "0")] in
  let i := mkUrlInput query (VStr "/story/a--b") (VStr "story") (VStr "a--b") in
  let r := mkInitialState obj (VStr "story")
             (mkAdditions None None (Some (VStr "bottom")) (Some false))
             VUndefined query (VStr "/story/a--b") (mkRef 0 []) (VStr "a--b") in
  initialUrlSupport obj query_itself join_toId join_sanitize
    (mkParserState None 0) i
  = (Ok r, mkParserState (Some (mkRef 0 [])) 1)
  /\ panelPosition (layout r) = Some (VStr "bottom")
  /\ showPanel (layout r) = None
  /\ showNav (layout r) = Some false.
Proof.
  intros query i r. split; [reflexivity|].
  exact (C2_legacy_rules_decide query_itself join_toId join_sanitize
           (mkParserState None 0) i r _ eq_refl).
Defined.

(** C2 (as stated) fails: with [panel=bottom] and [panelRight=1] the
    returned position is the legacy one, ["right"], not ["bottom"]. *)
Lemma C2_panelRight_overrides_panel :
  let query := [("panel", VStr "bottom"); ("panelRight", VStr "1")] in
  match fst (initialUrlSupport obj query_itself join_toId join_sanitize
               (mkParserState None 0)
               (mkUrlInput query (VStr "/") VUndefined VUndefined)) with
  | Ok r => panelPosition (layout r) = Some (VStr "right")
            /\ panelPosition (layout r) <> Some (prop "panel" query)
  | Throw _ => False
  end.
Proof. simpl. split; [reflexivity | discriminate]. Qed.


Lemma C6_memo_keeps_reference_witness :
  let q1 := [("full", VStr "1"); ("foo", VStr "bar")] in
  let q2 := [("nav", VStr "0"); ("foo", VStr "bar"); ("panel", VStr "right")] in
  let i1 := mkUrlInput q1 (VStr "/") VUndefined VUndefined in
  let i2 := mkUrlInput q2 (VStr "/") VUndefined VUndefined in
  let kept := mkRef 0 [("foo", VStr "bar")] in
  let r1 := mkInitialState obj VUndefined
              (mkAdditions (Some true) None None None)
              VUndefined q1 (VStr "/") kept VUndefined in
  let r2 := mkInitialState obj VUndefined
              (mkAdditions None None (Some (VStr "right")) (Some false))
              VUndefined q2 (VStr "/") kept VUndefined in
  let st1 := mkParserState (Some kept) 1 in
  let st2 := mkParserState (Some kept) 2 in
  initialUrlSupport obj query_itself join_toId join_sanitize
    (mkParserState None 0) i1 = (Ok r1, st1)
  /\ initialUrlSupport obj query_itself join_toId join_sanitize st1 i2
     = (Ok r2, st2)
  /\ customQueryParams r2 = customQueryParams r1
  /\ addr (customQueryParams r2) = addr (customQueryParams r1)
  /\ prevParams st2 = Some (customQueryParams r2).
Proof.
  intros q1 q2 i1 i2 kept r1 r2 st1 st2.
  split; [reflexivity|]. split; [reflexivity|].
  exact (C6_memo_keeps_reference query_itself join_toId join_sanitize
           (mkParserState None 0) i1 r1 st1 i2 r2 st2 eq_refl eq_refl eq_refl).
Defined.

(** ** Property assignment *)

Lemma get_own_set_prop_eq (k : string) (v : value) (o : obj) :
  get_own k (set_prop k v o) = Some v.
Proof.
  induction o as [|[k' v'] o IH]; simpl.
  - now rewrite String.eqb_refl.
  - destruct (k' =? k)%string eqn:E; simpl; rewrite E; [reflexivity | exact IH].
Qed.

Lemma get_own_set_prop_ne (k k' : string) (v : value) (o : obj) :
  k <> k' -> get_own k' (set_prop k v o) = get_own k' o.
Proof.
  intros Hne. induction o as [|[k0 v0] o IH]; simpl.
  - apply String.eqb_neq in Hne. now rewrite Hne.
  - destruct (k0 =? k)%string eqn:E; simpl.
    + apply String.eqb_eq in E. subst.
      apply String.eqb_neq in Hne. now rewrite Hne.
    + now rewrite IH.
Qed.


Lemma set_prop_keys (k : string) (v : value) (o : obj) :
  map fst (set_prop k v o)
  = if has_own k o then map fst o else map fst o ++ [k].
Proof.
  induction o as [|[k' v'] o IH]; simpl; [reflexivity|].
  destruct (k' =? k)%string; simpl; [reflexivity|].
  rewrite IH. now destruct (has_own k o).
Qed.

Lemma set_prop_NoDup (k : string) (v : value) (o : obj) :
  List.NoDup (map fst o) -> List.NoDup (map fst (set_prop k v o)).
Proof.
  intros Hnd. rewrite set_prop_keys. destruct (has_own k o) eqn:E; [exact Hnd|].
  apply List.NoDup_app; [exact Hnd | | ].
  - repeat constructor. intros [].
  - intros x Hx [<-|[]]. apply has_own_In_keys in Hx. congruence.
Qed.


Lemma assign_all_cons (k : string) (v : value) (source target : obj) :
  assign_all target ((k, v) :: source) = assign_all (set_prop k v target) source.
Proof. reflexivity. Qed.

Lemma assign_all_NoDup (source target : obj) :
  List.NoDup (map fst target) -> List.NoDup (map fst (assign_all target source)).
Proof.
  revert target. induction source as [|[k v] source IH]; intros target H; [exact H|].
  rewrite assign_all_cons. apply IH. now apply set_prop_NoDup.
Qed.


Lemma assign_all_other (k : string) (source target : obj) :
  ~ In k (map fst source) ->
  get_own k (assign_all target source) = get_own k target.
Proof.
  revert target. induction source as [|[k' v] source IH]; intros target Hk; [reflexivity|].
  simpl in Hk. rewrite assign_all_cons, IH by tauto.
  apply get_own_set_prop_ne. tauto.
Qed.

Lemma assign_all_get (k : string) (v : value) (source target : obj) :
  List.NoDup (map fst source) -> In (k, v) source ->
  get_own k (assign_all target source) = Some v.
Proof.
  revert target. induction source as [|[k' v'] source IH]; intros target Hnd Hin;
    [contradiction|].
  inversion Hnd as [|? ? Hk Hnd']; subst. rewrite assign_all_cons.
  destruct Hin as [[= -> ->]|Hin].
  - rewrite assign_all_other by exact Hk. apply get_own_set_prop_eq.
  - now apply IH.
Qed.


(** Copying an object, [{...o}], gives its properties back. *)
Lemma assign_all_copy (o acc : obj) :
  List.NoDup (map fst o) ->
  (forall k, In k (map fst o) -> has_own k acc = false) ->
  assign_all acc o = acc ++ o.
Proof.
  revert acc. induction o as [|[k v] o IH]; intros acc Hnd Hfresh.
  - now rewrite app_nil_r.
  - inversion Hnd as [|? ? Hk Hnd']; subst. rewrite assign_all_cons.
    rewrite set_prop_fresh by (apply Hfresh; now left).
    rewrite IH; [now rewrite <- app_assoc | exact Hnd' |].
    intros k' Hin. rewrite has_own_app, (Hfresh k') by now right. simpl.
    destruct (k =? k')%string eqn:E; [|reflexivity].
    apply String.eqb_eq in E. subst. contradiction.
Qed.

Lemma spread_nil_r (o : obj) : List.NoDup (map fst o) -> spread o [] = o.
Proof. intros Hnd. unfold spread. simpl. now rewrite assign_all_copy. Qed.

Lemma wf_obj_iff (o : obj) :
  wf_obj o = true <->
  List.NoDup (map fst o) /\ Forall (fun kv => wf_value (snd kv) = true) o.
Proof.
  unfold wf_obj. simpl. rewrite andb_true_iff, nodup_keys_NoDup, forallb_forall,
    List.Forall_forall. reflexivity.
Qed.


(** ** Deep-equal objects, property by property *)

Lemma deepEqual_obj_keys (a b : obj) :
  deepEqual (VObj a) (VObj b) = true ->
  List.NoDup (map fst a) ->
  forall k, has_own k a = has_own k b.
Proof.
  rewrite deepEqual_obj. intros H Hnd k.
  apply andb_true_iff in H as [H _]. apply andb_true_iff in H as [Hlen Hkeys].
  apply Nat.eqb_eq in Hlen. rewrite forallb_forall in Hkeys.
  assert (Hincl : incl (map fst a) (map fst b)).
  { intros x Hx. apply in_map_iff in Hx as (kv & <- & Hin).
    apply has_own_In_keys. now apply Hkeys. }
  assert (Hback : incl (map fst b) (map fst a)).
  { apply List.NoDup_length_incl; [exact Hnd | | exact Hincl].
    rewrite !length_map. lia. }
  destruct (has_own k a) eqn:Ea, (has_own k b) eqn:Eb; try reflexivity.
  - apply has_own_In_keys, Hincl, has_own_In_keys in Ea. congruence.
  - apply has_own_In_keys, Hback, has_own_In_keys in Eb. congruence.
Qed.

Lemma prop_absent (k : string) (o : obj) :
  has_own k o = false -> prop k o = VUndefined.
Proof. rewrite has_own_get. unfold prop. now destruct (get_own k o). Qed.

Lemma deepEqual_obj_prop (a b : obj) :
  deepEqual (VObj a) (VObj b) = true ->
  List.NoDup (map fst a) ->
  forall k, deepEqual (prop k a) (prop k b) = true.
Proof.
  intros H Hnd k. pose proof (deepEqual_obj_keys a b H Hnd k) as Hk.
  rewrite deepEqual_obj in H. apply andb_true_iff in H as [_ Hv].
  rewrite forallb_forall in Hv.
  destruct (has_own k a) eqn:Ea.
  - apply (Hv (k, prop k a)). now apply has_own_prop_In.
  - now rewrite (prop_absent k a Ea), (prop_absent k b) by congruence.
Qed.

Lemma prop_of_get (k : string) (v : value) (o : obj) :
  get_own k o = Some v -> prop k o = v.
Proof. unfold prop. now intros ->. Qed.


(** ** fast-deep-equal on values without the names it gives a meaning to *)

Lemma strict_equal_primitive (a b : value) :
  is_primitive a = true -> strict_equal a b = deepEqual a b.
Proof. destruct a, b; try discriminate; reflexivity. Qed.

Lemma fast_deep_equal_primitive (a b : value) :
  is_primitive a = true -> fast_deep_equal a b = Ok (deepEqual a b).
Proof. destruct a, b; try discriminate; reflexivity. Qed.

Lemma fast_deep_equal_arr (xs ys : list value) :
  fast_deep_equal (VArr xs) (VArr ys)
  = if negb (length xs =? length ys)%nat then Ok false
    else equal_items fast_deep_equal xs ys.
Proof. reflexivity. Qed.

Lemma fast_deep_equal_obj (xs ys : obj) :
  fast_deep_equal (VObj xs) (VObj ys)
  = if negb (same_constructor xs ys) then Ok false
    else if has_own "valueOf" xs
         then Throw (TypeError "a.valueOf is not a function")
    else if has_own "toString" xs
         then Throw (TypeError "a.toString is not a function")
    else if negb (length xs =? length ys)%nat then Ok false
    else if negb (forallb (fun kv => has_own (fst kv) ys) xs) then Ok false
    else equal_props fast_deep_equal xs ys.
Proof. reflexivity. Qed.

Lemma equal_items_all2 (xs : list value) :
  Forall (fun x => forall y, fast_deep_equal x y = Ok (deepEqual x y)) xs ->
  forall ys, equal_items fast_deep_equal xs ys = Ok (all2 deepEqual xs ys).
Proof.
  induction 1 as [|x xs Hx _ IH]; intros [|y ys]; try reflexivity.
  cbn [equal_items all2]. rewrite IH, Hx.
  destruct (all2 deepEqual xs ys); [now rewrite andb_true_r | now rewrite andb_false_r].
Qed.

Lemma equal_props_forallb (xs ys : obj) :
  Forall (fun kv => forall y, fast_deep_equal (snd kv) y = Ok (deepEqual (snd kv) y)) xs ->
  equal_props fast_deep_equal xs ys
  = Ok (forallb (fun kv => deepEqual (snd kv) (prop (fst kv) ys)) xs).
Proof.
  induction 1 as [|kv xs Hx _ IH]; [reflexivity|].
  cbn [equal_props forallb]. rewrite IH, Hx.
  destruct (forallb _ xs); [now rewrite andb_true_r | now rewrite andb_false_r].
Qed.

Lemma plain_value_names (xs : obj) (n : string) :
  plain_value (VObj xs) = true -> In n compared_names -> has_own n xs = false.
Proof.
  intros Hp Hn. destruct (has_own n xs) eqn:E; [|reflexivity]. exfalso.
  apply has_own_In_keys in E. apply in_map_iff in E as ([k v] & <- & Hin).
  cbn [plain_value] in Hp. rewrite forallb_forall in Hp. specialize (Hp _ Hin).
  cbn [fst snd] in *. apply andb_true_iff in Hp as [Hk _]. apply negb_true_iff in Hk.
  assert (Hex : existsb (String.eqb k) compared_names = true).
  { apply existsb_exists. exists k. split; [exact Hn | apply String.eqb_refl]. }
  congruence.
Qed.

Lemma has_own_get_none (k : string) (o : obj) :
  has_own k o = false -> get_own k o = None.
Proof. rewrite has_own_get. now destruct (get_own k o). Qed.

(** An object that owns [constructor] is not deep-equal to one that does
    not. *)
Lemma deepEqual_obj_constructor (xs ys : obj) :
  List.NoDup (map fst xs) ->
  has_own "constructor" xs = negb (has_own "constructor" ys) ->
  deepEqual (VObj xs) (VObj ys) = false.
Proof.
  intros Hnd Hc. destruct (deepEqual (VObj xs) (VObj ys)) eqn:E; [|reflexivity].
  rewrite (deepEqual_obj_keys _ _ E Hnd) in Hc. now destruct (has_own "constructor" ys).
Qed.

(** On a well-formed value without own [constructor], [valueOf] or
    [toString] at any depth, fast-deep-equal neither throws nor departs
    from the comparison key by key. *)
Lemma fast_deep_equal_plain (a : value) :
  wf_value a = true -> plain_value a = true ->
  forall b, fast_deep_equal a b = Ok (deepEqual a b).
Proof.
  induction a as [ | | x | n | s | xs IH | kvs IH ] using value_ind;
    intros Hwf Hplain b; try (now apply fast_deep_equal_primitive).
  - destruct b as [ | | | | | ys | ]; try reflexivity.
    rewrite fast_deep_equal_arr, deepEqual_arr.
    simpl in Hwf, Hplain. rewrite forallb_forall in Hwf, Hplain.
    rewrite equal_items_all2.
    + now destruct (length xs =? length ys)%nat.
    + rewrite List.Forall_forall in *. intros x Hin. auto.
  - destruct b as [ | | | | | | ys ]; try reflexivity.
    rewrite fast_deep_equal_obj, deepEqual_obj.
    pose proof (plain_value_names kvs "constructor" Hplain ltac:(simpl; tauto)) as Hc.
    pose proof (plain_value_names kvs "valueOf" Hplain ltac:(simpl; tauto)) as Hv.
    pose proof (plain_value_names kvs "toString" Hplain ltac:(simpl; tauto)) as Ht.
    cbn [wf_value plain_value] in Hwf, Hplain. apply andb_true_iff in Hwf as [Hnd Hwf].
    apply nodup_keys_NoDup in Hnd.
    rewrite forallb_forall in Hwf, Hplain.
    rewrite Hv, Ht. unfold same_constructor. rewrite (has_own_get_none _ _ Hc).
    destruct (get_own "constructor" ys) as [y|] eqn:Ey; cbn [negb].
    + pose proof (deepEqual_obj_constructor kvs ys Hnd) as Hne.
      rewrite deepEqual_obj, Hc, has_own_get, Ey in Hne. now rewrite Hne.
    + rewrite equal_props_forallb.
      * destruct (length kvs =? length ys)%nat; [|reflexivity]. cbn [negb andb].
        now destruct (forallb (fun kv => has_own (fst kv) ys) kvs).
      * rewrite List.Forall_forall in *. intros kv Hin.
        specialize (Hplain kv Hin). apply andb_true_iff in Hplain as [_ Hplain]. auto.
Qed.




Lemma plain_map_entries (s : obj) :
  wf_obj s = true -> plain_map s = true ->
  List.NoDup (map fst s)
  /\ Forall (fun kv => forall y, fast_deep_equal (snd kv) y = Ok (deepEqual (snd kv) y)) s
  /\ is_primitive (prop "constructor" s) = true.
Proof.
  intros Hwf Hplain. apply wf_obj_iff in Hwf as [Hnd Hall].
  unfold plain_map in Hplain. rewrite forallb_forall in Hplain.
  rewrite List.Forall_forall in Hall.
  split; [exact Hnd|]. split.
  - apply List.Forall_forall. intros kv Hin. specialize (Hplain kv Hin).
    apply andb_true_iff in Hplain as [Hp _]. apply fast_deep_equal_plain; auto.
  - unfold prop. destruct (get_own "constructor" s) as [x|] eqn:E; [|reflexivity].
    specialize (Hplain _ (get_own_In _ _ _ E)). cbn [fst snd] in Hplain.
    apply andb_true_iff in Hplain as [_ Hc]. exact Hc.
Qed.

(** Two maps with plain values: apart from the test on the constructors
    and the exception on an own [valueOf] or [toString] of the first map,
    fast-deep-equal is the comparison key by key. *)
Lemma fast_deep_equal_map (s u : obj) :
  wf_obj s = true -> plain_map s = true ->
  fast_deep_equal (VObj s) (VObj u)
  = if negb (same_constructor s u) then Ok false
    else if has_own "valueOf" s
         then Throw (TypeError "a.valueOf is not a function")
    else if has_own "toString" s
         then Throw (TypeError "a.toString is not a function")
    else Ok (deepEqual (VObj s) (VObj u)).
Proof.
  intros Hwf Hplain. destruct (plain_map_entries s Hwf Hplain) as (_ & Hall & _).
  rewrite fast_deep_equal_obj, deepEqual_obj, (equal_props_forallb s u Hall).
  destruct (same_constructor s u); [|reflexivity].
  destruct (has_own "valueOf" s); [reflexivity|].
  destruct (has_own "toString" s); [reflexivity|].
  destruct (length s =? length u)%nat; [|reflexivity]. cbn [negb andb].
  now destruct (forallb (fun kv => has_own (fst kv) u) s).
Qed.

Lemma same_constructor_deepEqual (s u : obj) :
  wf_obj s = true -> plain_map s = true ->
  same_constructor s u = false -> deepEqual (VObj s) (VObj u) = false.
Proof.
  intros Hwf Hplain Hc. destruct (plain_map_entries s Hwf Hplain) as (Hnd & _ & Hprim).
  unfold same_constructor in Hc. unfold prop in Hprim.
  destruct (get_own "constructor" s) as [x|] eqn:Es;
    destruct (get_own "constructor" u) as [y|] eqn:Eu; try discriminate.
  - destruct (deepEqual (VObj s) (VObj u)) eqn:E; [|reflexivity].
    rewrite deepEqual_obj in E. apply andb_true_iff in E as [_ E].
    rewrite forallb_forall in E. specialize (E _ (get_own_In _ _ _ Es)).
    cbn [fst snd] in E. unfold prop in E. rewrite Eu in E.
    rewrite (strict_equal_primitive x y Hprim) in Hc. congruence.
  - apply deepEqual_obj_constructor; [exact Hnd|].
    now rewrite !has_own_get, Es, Eu.
  - apply deepEqual_obj_constructor; [exact Hnd|].
    now rewrite !has_own_get, Es, Eu.
Qed.

Lemma same_constructor_refl (s : obj) :
  is_primitive (prop "constructor" s) = true -> same_constructor s s = true.
Proof.
  unfold same_constructor, prop. destruct (get_own "constructor" s) as [x|]; [|reflexivity].
  destruct x; try discriminate; intros _; simpl;
    [reflexivity | reflexivity | apply Bool.eqb_reflx | apply Z.eqb_refl | apply String.eqb_refl].
Qed.

(** ** QueryParamStore *)

Lemma non_null_entries_filter (input : obj) :
  non_null_entries input
  = assign_all [] (List.filter (fun kv => negb (is_null (snd kv))) input).
Proof.
  unfold non_null_entries. generalize (@nil (string * value)) as acc.
  induction input as [|[k v] input IH]; intros acc; [reflexivity|].
  simpl. destruct v; simpl; rewrite IH; reflexivity.
Qed.

Lemma non_null_entries_all_null (input : obj) :
  forallb (fun kv => is_null (snd kv)) input = true -> non_null_entries input = [].
Proof.
  intros H. rewrite non_null_entries_filter.
  replace (List.filter _ input) with (@nil (string * value)); [reflexivity|].
  induction input as [|[k v] input IH]; [reflexivity|].
  destruct v; simpl in H |- *; try discriminate. now apply IH.
Qed.

Lemma filter_filter_same {A : Type} (f : A -> bool) (l : list A) :
  List.filter f (List.filter f l) = List.filter f l.
Proof.
  induction l as [|x l IH]; [reflexivity|]. simpl.
  destruct (f x) eqn:E; simpl; [rewrite E|]; now rewrite IH.
Qed.

Lemma non_null_entries_NoDup (input : obj) :
  List.NoDup (map fst (non_null_entries input)).
Proof. rewrite non_null_entries_filter. apply assign_all_NoDup. constructor. Qed.


Lemma non_null_entries_keys (k : string) (input : obj) :
  In k (map fst (non_null_entries input)) ->
  exists v, In (k, v) input /\ v <> VNull.
Proof.
  rewrite non_null_entries_filter.
  assert (Hgen : forall source target,
            In k (map fst (assign_all target source)) ->
            In k (map fst target) \/ In k (map fst source)).
  { induction source as [|[k' v'] source IH]; intros target Hin; [now left|].
    rewrite assign_all_cons in Hin. apply IH in Hin as [Hin|Hin]; [|right; now right].
    rewrite set_prop_keys in Hin. destruct (has_own k' target); [now left|].
    apply in_app_or in Hin as [Hin|[<-|[]]]; [now left | right; now left]. }
  intros Hin. apply Hgen in Hin as [[]|Hin].
  apply in_map_iff in Hin as ([k' v] & <- & Hin). apply filter_In in Hin as [Hin Hv].
  exists v. split; [exact Hin|]. intros ->. discriminate.
Qed.

Lemma has_own_set_prop (k k' : string) (v : value) (o : obj) :
  has_own k o = true -> has_own k (set_prop k' v o) = true.
Proof.
  rewrite !has_own_In_keys, set_prop_keys. intros H.
  destruct (has_own k' o); [exact H | apply in_or_app; now left].
Qed.

Lemma has_own_assign_all (k : string) (source target : obj) :
  has_own k target = true -> has_own k (assign_all target source) = true.
Proof.
  revert target. induction source as [|[k' v] source IH]; intros target H; [exact H|].
  rewrite assign_all_cons. apply IH. now apply has_own_set_prop.
Qed.

(** What a call does, by the answer of [deepEqual]. *)
Lemma setQueryParams_outcome (st : State) (input : obj) :
  setQueryParams st input
  = match fast_deep_equal (stored_value st)
            (VObj (spread (stored_entries st) (non_null_entries input))) with
    | Throw e => mkOutcome st [] (Some e)
    | Ok true => mkOutcome st [] None
    | Ok false =>
        mkOutcome
          (mkState (Some (spread (stored_entries st) (non_null_entries input)))
                   (store_path st) (initialArgs st))
          [SetState (spread (stored_entries st) (non_null_entries input))] None
    end.
Proof. unfold setQueryParams. now destruct (fast_deep_equal _ _) as [[|]|]. Qed.

(** On a stored map with plain values that owns neither [valueOf] nor
    [toString], the call commits unless the merged map is deep-equal to
    the stored one. *)
Lemma setQueryParams_plain (st : State) (input : obj) :
  wf_value (stored_value st) = true ->
  plain_map (stored_entries st) = true ->
  has_own "valueOf" (stored_entries st) = false ->
  has_own "toString" (stored_entries st) = false ->
  setQueryParams st input
  = if deepEqual (stored_value st)
         (VObj (spread (stored_entries st) (non_null_entries input)))
    then mkOutcome st [] None
    else mkOutcome
           (mkState (Some (spread (stored_entries st) (non_null_entries input)))
                    (store_path st) (initialArgs st))
           [SetState (spread (stored_entries st) (non_null_entries input))] None.
Proof.
  intros Hwf Hplain Hv Ht. rewrite setQueryParams_outcome.
  unfold stored_value, stored_entries in *.
  destruct (store_customQueryParams st) as [stored|]; [|reflexivity].
  rewrite (fast_deep_equal_map stored _ Hwf Hplain), Hv, Ht.
  destruct (same_constructor stored _) eqn:E; cbn [negb].
  - now destruct (deepEqual _ _).
  - now rewrite (same_constructor_deepEqual stored _ Hwf Hplain E).
Qed.

(** The stored map after a call: what the store holds in the state that
    the call leaves. *)
Lemma setQueryParams_stored (st : State) (stored input : obj) :
  store_customQueryParams st = Some stored -> wf_obj stored = true ->
  store_customQueryParams (out_state (setQueryParams st input)) = Some stored
  \/ store_customQueryParams (out_state (setQueryParams st input))
     = Some (assign_all stored (non_null_entries input)).
Proof.
  intros Hst Hwf. rewrite setQueryParams_outcome. unfold stored_entries, spread.
  rewrite Hst. apply wf_obj_iff in Hwf as [Hnd _].
  rewrite (assign_all_copy stored []) by auto. simpl app.
  destruct (fast_deep_equal _ _) as [[|]|]; simpl; auto.
Qed.

(** A stored map compared with itself: [deepEqual] answers [true], unless
    the map owns [valueOf] or [toString], on which it throws. *)
Lemma fast_deep_equal_same_map (s : obj) :
  wf_obj s = true -> plain_map s = true ->
  fast_deep_equal (VObj s) (VObj s)
  = if has_own "valueOf" s then Throw (TypeError "a.valueOf is not a function")
    else if has_own "toString" s then Throw (TypeError "a.toString is not a function")
    else Ok true.
Proof.
  intros Hwf Hplain. destruct (plain_map_entries s Hwf Hplain) as (_ & _ & Hprim).
  rewrite (fast_deep_equal_map s s Hwf Hplain), (same_constructor_refl s Hprim).
  now rewrite (deepEqual_refl (VObj s) Hwf).
Qed.

(** C7: a call whose input holds only [null] values leaves the stored map
    as it is and commits nothing.  (It returns normally unless the stored
    map owns a property [valueOf] or [toString]: on such a map
    [deepEqual] throws, before anything is committed.)  In any input the
    [null]-valued keys are skipped: the call does what it does without
    them, every stored key is still there afterwards, and a key that the
    input only sets to [null] keeps its stored value.  The values of the
    stored map are plain data. *)
Theorem C7_null_is_noop (st : State) (stored input : obj) :
  store_customQueryParams st = Some stored ->
  wf_obj stored = true ->
  plain_map stored = true ->
  (forallb (fun kv => is_null (snd kv)) input = true ->
   out_state (setQueryParams st input) = st
   /\ out_effects (setQueryParams st input) = []
   /\ (out_thrown (setQueryParams st input) = None
       <-> has_own "valueOf" stored = false /\ has_own "toString" stored = false))
  /\ setQueryParams st input
     = setQueryParams st (List.filter (fun kv => negb (is_null (snd kv))) input)
  /\ exists after,
       store_customQueryParams (out_state (setQueryParams st input)) = Some after
       /\ (forall k, has_own k stored = true -> has_own k after = true)
       /\ (forall k, (forall v, In (k, v) input -> v = VNull) ->
           get_own k after = get_own k stored).
Proof.
  intros Hst Hwf Hplain. split; [|split].
  - intros Hnull. rewrite setQueryParams_outcome. unfold stored_entries, stored_value.
    rewrite Hst, (non_null_entries_all_null _ Hnull).
    rewrite spread_nil_r by (now apply wf_obj_iff in Hwf as [? _]).
    rewrite (fast_deep_equal_same_map stored Hwf Hplain).
    destruct (has_own "valueOf" stored); cbn [out_state out_effects out_thrown].
    { split; [reflexivity|]. split; [reflexivity|].
      split; [discriminate | intros [? _]; discriminate]. }
    destruct (has_own "toString" stored); cbn [out_state out_effects out_thrown].
    { split; [reflexivity|]. split; [reflexivity|].
      split; [discriminate | intros [_ ?]; discriminate]. }
    split; [reflexivity|]. split; [reflexivity|]. split; auto.
  - unfold setQueryParams.
    now rewrite (non_null_entries_filter input), (non_null_entries_filter (List.filter _ _)),
      filter_filter_same.
  - destruct (setQueryParams_stored st stored input Hst Hwf) as [-> | ->].
    + exists stored. auto.
    + eexists. split; [reflexivity|]. split.
      * intros k Hk. now apply has_own_assign_all.
      * intros k Hk. apply assign_all_other. intros Hin.
        apply non_null_entries_keys in Hin as (v & Hin & Hv). auto.
Qed.

Lemma C7_null_is_noop_witness :
  let stored := [("theme", VStr "dark"); ("tags", VArr [VStr "a"; VStr "b"])] in
  let st := mkState (Some stored) "/story/a--b" ∅ in
  let input := [("x", VNull); ("theme", VNull)] in
  store_customQueryParams st = Some stored
  /\ wf_obj stored = true
  /\ plain_map stored = true
  /\ forallb (fun kv => is_null (snd kv)) input = true
  /\ out_state (setQueryParams st input) = st
  /\ out_effects (setQueryParams st input) = [].
Proof.
  intros stored st input.
  split; [reflexivity|]. split; [reflexivity|]. split; [reflexivity|].
  split; [reflexivity|].
  destruct (proj1 (C7_null_is_noop st stored input eq_refl eq_refl eq_refl) eq_refl)
    as (H1 & H2 & _).
  split; [exact H1 | exact H2].
Defined.

Lemma In_set_prop (kv : string * value) (k : string) (v : value) (o : obj) :
  In kv (set_prop k v o) -> In kv o \/ kv = (k, v).
Proof.
  induction o as [|[k' v'] o IH]; simpl.
  - intros [<-|[]]. now right.
  - destruct (k' =? k)%string eqn:E.
    + apply String.eqb_eq in E. subst k'.
      intros [<-|H]; [now right | left; now right].
    + intros [<-|H]; [left; now left|].
      apply IH in H as [H|H]; [left; now right | now right].
Qed.

Lemma In_assign_all (kv : string * value) (source target : obj) :
  In kv (assign_all target source) -> In kv target \/ In kv source.
Proof.
  revert target. induction source as [|[k v] source IH]; intros target H; [now left|].
  rewrite assign_all_cons in H. apply IH in H as [H|H]; [|right; now right].
  apply In_set_prop in H as [H|H]; [now left | right; now left].
Qed.

Lemma In_non_null_entries (k : string) (v : value) (input : obj) :
  In (k, v) (non_null_entries input) -> In (k, v) input /\ v <> VNull.
Proof.
  rewrite non_null_entries_filter. intros H.
  apply In_assign_all in H as [[]|H]. apply filter_In in H as [Hin Hv].
  split; [exact Hin|]. intros ->. discriminate.
Qed.




(** A map that owns [valueOf]: the call that stores it commits, and every
    later call throws out of [deepEqual], without committing. *)
Example store_owning_valueOf :
  let st := mkState (Some [("theme", VStr "dark")]) "/story/a--b" ∅ in
  let input := [("valueOf", VStr "x")] in
  let update := [("theme", VStr "dark"); ("valueOf", VStr "x")] in
  let st1 := mkState (Some update) "/story/a--b" ∅ in
  setQueryParams st input = mkOutcome st1 [SetState update] None
  /\ setQueryParams st1 input
     = mkOutcome st1 [] (Some (TypeError "a.valueOf is not a function"))
  /\ setQueryParams st1 [("x", VNull)]
     = mkOutcome st1 [] (Some (TypeError "a.valueOf is not a function")).
Proof. repeat split; vm_compute; reflexivity. Qed.

(** ** ArgsSyncEngine: baselines *)

Lemma navigate_with_target (st : State) (customizedArgs : obj) :
  navigate_with st customizedArgs
  = QueryNavigate (target_url (store_path st) (stringifyArgs customizedArgs)) true.
Proof.
  unfold navigate_with, target_url.
  destruct (stringifyArgs customizedArgs); simpl;
    [now rewrite append_nil_r | reflexivity].
Qed.

Lemma baseline_insert (st : State) (i j : string) (b : option obj) :
  baseline (mkState (store_customQueryParams st) (store_path st)
                    (<[i := b]> (initialArgs st))) j
  = if decide (j = i) then b else baseline st j.
Proof.
  unfold baseline. simpl. destruct (decide (j = i)) as [->|Hne].
  - now rewrite lookup_insert_eq.
  - now rewrite lookup_insert_ne by congruence.
Qed.

Lemma baseline_SET_STORIES (st : State) (data : Item) (i : string) :
  baseline (out_state (on_SET_STORIES st data)) i
  = if decide (i = id data) then storyArgs_of data else baseline st i.
Proof.
  rewrite <- baseline_insert. unfold on_SET_STORIES.
  destruct (if truthy _ then _ else _); reflexivity.
Qed.

Lemma state_SET_CURRENT_STORY (st : State) (data : Item) :
  out_state (on_SET_CURRENT_STORY st data)
  = mkState (store_customQueryParams st) (store_path st)
      (<[id data := match baseline st (id data) with
                     | Some b => Some b
                     | None => storyArgs_of data
                     end]> (initialArgs st)).
Proof.
  unfold on_SET_CURRENT_STORY.
  destruct (baseline st (id data)); [destruct (customized _ _ _)|]; reflexivity.
Qed.

Lemma baseline_SET_CURRENT_STORY (st : State) (data : Item) (i : string) :
  baseline (out_state (on_SET_CURRENT_STORY st data)) i
  = if decide (i = id data)
    then match baseline st i with Some b => Some b | None => storyArgs_of data end
    else baseline st i.
Proof.
  rewrite state_SET_CURRENT_STORY, baseline_insert.
  destruct (decide (i = id data)) as [->|]; reflexivity.
Qed.

Lemma state_STORY_ARGS_UPDATED (st : State) (storyId : string) (args : obj) :
  out_state (on_STORY_ARGS_UPDATED st storyId args) = st.
Proof. unfold on_STORY_ARGS_UPDATED. now destruct (customized _ _ _). Qed.

(** C3 (as amended): a baseline that has been captured for an item
    survives every sequence of events that holds no [SET_STORIES] for that
    item: [SET_CURRENT_STORY] writes a baseline only while there is none,
    and [STORY_ARGS_UPDATED] and [NAVIGATE_URL] write none.  A
    [SET_STORIES] event for the item sets its baseline to the args the
    item has then, whatever was captured before. *)
Theorem C3_baseline_lifetime (st : State) (es : list event) (i : string) (b : obj) :
  baseline st i = Some b ->
  (forall data, In (SET_STORIES data) es -> id data <> i) ->
  baseline (run st es) i = Some b
  /\ (forall data, id data = i ->
      baseline (out_state (on_SET_CURRENT_STORY (run st es) data)) i = Some b
      /\ baseline (out_state (on_SET_STORIES (run st es) data)) i
         = storyArgs_of data)
  /\ (forall st0 data, baseline st0 (id data) = None ->
      baseline (out_state (on_SET_CURRENT_STORY st0 data)) (id data)
      = storyArgs_of data).
Proof.
  intros Hb Hes.
  assert (Hrun : baseline (run st es) i = Some b).
  { revert st Hb. induction es as [|e es IH]; intros st Hb; [exact Hb|].
    change (run st (e :: es)) with (run (out_state (handle st e)) es).
    apply IH; [intros data Hin; apply Hes; now right|].
    destruct e as [url options | data | data | sid args]; simpl.
    - exact Hb.
    - rewrite baseline_SET_STORIES.
      destruct (decide (i = id data)) as [->|_]; [|exact Hb].
      exfalso. apply (Hes data); [now left | reflexivity].
    - rewrite baseline_SET_CURRENT_STORY, Hb. now destruct (decide (i = id data)).
    - now rewrite state_STORY_ARGS_UPDATED. }
  split; [exact Hrun|]. split.
  - intros data <-. rewrite baseline_SET_CURRENT_STORY, baseline_SET_STORIES, Hrun.
    destruct (decide (id data = id data)); [split; reflexivity | contradiction].
  - intros st0 data Hnone. rewrite baseline_SET_CURRENT_STORY, Hnone.
    destruct (decide (id data = id data)); [reflexivity | contradiction].
Qed.

Lemma C3_baseline_lifetime_witness :
  let first := [("a", VNum 1)] in
  let st := mkState (Some []) "/story/x" {[ "x" := Some first ]} in
  let es := [ SET_CURRENT_STORY (mkItem "x" true [("a", VNum 2)]);
              STORY_ARGS_UPDATED "x" [("a", VNum 3)];
              SET_STORIES (mkItem "y" true [("a", VNum 4)]);
              SET_CURRENT_STORY (mkItem "x" true [("a", VNum 5)]) ] in
  baseline st "x" = Some first
  /\ (forall data, In (SET_STORIES data) es -> id data <> "x")
  /\ baseline (run st es) "x" = Some first.
Proof.
  intros first st es.
  assert (Hes : forall data, In (SET_STORIES data) es -> id data <> "x").
  { intros data [H|[H|[H|[H|[]]]]]; try discriminate H.
    injection H as <-. discriminate. }
  split; [reflexivity|]. split; [exact Hes|].
  exact (proj1 (C3_baseline_lifetime st es "x" first eq_refl Hes)).
Defined.

(** C3 (as stated) fails: a second [SET_STORIES] for the same item
    overwrites the first snapshot, and the next diff is taken against the
    later one. *)
Lemma C3_SET_STORIES_overwrites_baseline :
  let st0 := mkState (Some []) "/story/x" ∅ in
  let st1 := out_state (on_SET_STORIES st0 (mkItem "x" true [("a", VNum 1)])) in
  let st2 := out_state (on_SET_STORIES st1 (mkItem "x" true [("a", VNum 2)])) in
  baseline st1 "x" = Some [("a", VNum 1)]
  /\ baseline st2 "x" = Some [("a", VNum 2)]
  /\ out_effects (on_STORY_ARGS_UPDATED st2 "x" [("a", VNum 2)])
     = [QueryNavigate "/story/x" true]
  /\ out_effects (on_STORY_ARGS_UPDATED st1 "x" [("a", VNum 2)])
     = [QueryNavigate "/story/x&args=a:2" true].
Proof. repeat split; vm_compute; reflexivity. Qed.

(** ** ArgsSyncEngine: diffs *)

(** C4: what the code does when the baseline of the event's item is
    missing: reading the first key from it throws, and no navigation is
    requested. *)
Theorem C4_missing_baseline_throws (st : State) (storyId key : string)
    (v : value) (args : obj) :
  baseline st storyId = None ->
  on_STORY_ARGS_UPDATED st storyId ((key, v) :: args)
  = mkOutcome st [] (Some (TypeError "Cannot read property of undefined")).
Proof. intros H. unfold on_STORY_ARGS_UPDATED. now rewrite H. Qed.

Lemma C4_missing_baseline_throws_witness :
  let st := mkState (Some []) "/story/x" ∅ in
  baseline st "x" = None
  /\ on_STORY_ARGS_UPDATED st "x" [("a", VNum 1)]
     = mkOutcome st [] (Some (TypeError "Cannot read property of undefined")).
Proof.
  intros st. split; [reflexivity|].
  exact (C4_missing_baseline_throws st "x" "a" (VNum 1) [] eq_refl).
Defined.

(** C10: when the current item is not a story, [SET_CURRENT_STORY] does
    not throw, encodes no args fragment, and still asks for a replacing
    navigation to the bare current path. *)
Theorem C10_non_story_navigates_to_bare_path (st : State) (data : Item) :
  isStory data = false ->
  out_thrown (on_SET_CURRENT_STORY st data) = None
  /\ out_effects (on_SET_CURRENT_STORY st data)
     = [QueryNavigate (store_path st) true]
  /\ stringifyArgs [] = "".
Proof.
  intros H. unfold on_SET_CURRENT_STORY, storyArgs_of. rewrite H.
  destruct (baseline st (id data)); cbn [customized];
    rewrite navigate_with_target; repeat split; reflexivity.
Qed.

Lemma C10_non_story_witness :
  let st := mkState (Some []) "/story/group" ∅ in
  let data := mkItem "group" false [] in
  isStory data = false
  /\ out_thrown (on_SET_CURRENT_STORY st data) = None
  /\ out_effects (on_SET_CURRENT_STORY st data)
     = [QueryNavigate "/story/group" true].
Proof.
  intros st data. split; [reflexivity|].
  destruct (C10_non_story_navigates_to_bare_path st data eq_refl) as (H1 & H2 & _).
  split; [exact H1 | exact H2].
Defined.

(** *** What [qs.stringify] prints *)













(** On plain values the reducer of the diffing handlers does not throw,
    and keeps exactly the entries that are not deep-equal to their
    baseline. *)
Lemma customized_filter (b : obj) (entries acc : obj) :
  Forall (fun kv => wf_value (snd kv) = true /\ plain_value (snd kv) = true) entries ->
  customized entries (Some b) acc
  = Ok (assign_all acc (List.filter (differs b) entries)).
Proof.
  intros Hall. revert acc.
  induction Hall as [|[k v] entries [Hwf Hp] _ IH]; intros acc; [reflexivity|].
  cbn [customized baseline_prop]. cbn [snd] in Hwf, Hp.
  rewrite (fast_deep_equal_plain v Hwf Hp), IH.
  cbn [List.filter]. unfold differs at 2. cbn [fst snd].
  now destruct (deepEqual v (prop k b)).
Qed.

Lemma plain_args_entries (args : obj) :
  wf_obj args = true -> plain_args args = true ->
  List.NoDup (map fst args)
  /\ Forall (fun kv => wf_value (snd kv) = true /\ plain_value (snd kv) = true) args.
Proof.
  intros Hwf Hp. apply wf_obj_iff in Hwf as [Hnd Hall]. split; [exact Hnd|].
  unfold plain_args in Hp. rewrite forallb_forall in Hp.
  rewrite List.Forall_forall in *. auto.
Qed.

Lemma filter_keys_NoDup (f : string * value -> bool) (o : obj) :
  List.NoDup (map fst o) -> List.NoDup (map fst (List.filter f o)).
Proof.
  induction o as [|kv o IH]; intros Hnd; [constructor|].
  inversion Hnd as [|? ? Hk Hnd']; subst. simpl.
  destruct (f kv); simpl; [|now apply IH].
  constructor; [|now apply IH].
  intros Hin. apply Hk. apply in_map_iff in Hin as (kv' & <- & Hin).
  apply filter_In in Hin as [Hin _]. now apply in_map.
Qed.

Lemma customized_entries (b : obj) (entries : obj) :
  wf_obj entries = true -> plain_args entries = true ->
  customized entries (Some b) [] = Ok (List.filter (differs b) entries).
Proof.
  intros Hwf Hp. destruct (plain_args_entries entries Hwf Hp) as [Hnd Hall].
  rewrite (customized_filter b entries [] Hall), assign_all_copy; auto.
  now apply filter_keys_NoDup.
Qed.







(** An arg whose value owns [toString]: [deepEqual] throws, and the
    handler leaves without a navigation. *)
Example args_owning_toString :
  let b := [("style", VObj [("color", VStr "red")])] in
  let current := [("style", VObj [("toString", VStr "x")])] in
  let st := mkState (Some []) "/story/x" {[ "x" := Some b ]} in
  on_STORY_ARGS_UPDATED st "x" current
  = mkOutcome st [] (Some (TypeError "a.toString is not a function")).
Proof. vm_compute. reflexivity. Qed.

(** ** Scenarios of the specification *)

(** [/?full=1&panel=right&nav=0]. *)
Example scenario_current_scheme :
  layout_of [("full", VStr "1"); ("panel", VStr "right"); ("nav", VStr "0")]
  = mkAdditions (Some true) None (Some (VStr "right")) (Some false).
Proof. reflexivity. Qed.

(** [?addons=0] and [?panel=0] give the same layout. *)
Example scenario_legacy_equivalence :
  layout_of [("addons", VStr "0")] = layout_of [("panel", VStr "0")]
  /\ showPanel (layout_of [("addons", VStr "0")]) = Some false.
Proof. split; reflexivity. Qed.

(** A second call whose passthrough map differs returns the new object,
    not the memoized one. *)
Example scenario_memo_miss :
  let parse := initialUrlSupport obj query_itself join_toId join_sanitize in
  let st1 := snd (parse (mkParserState None 0)
                    (mkUrlInput [("foo", VStr "bar")] (VStr "/") VUndefined VUndefined)) in
  let st2 := snd (parse st1
                    (mkUrlInput [("foo", VStr "baz")] (VStr "/") VUndefined VUndefined)) in
  prevParams st1 = Some (mkRef 0 [("foo", VStr "bar")])
  /\ prevParams st2 = Some (mkRef 1 [("foo", VStr "baz")]).
Proof. split; reflexivity. Qed.

(** [SET_CURRENT_STORY] for item [X] with args [{a: 1}] before any baseline
    exists: the baseline is captured, the diff is empty and the path is
    left as it is. *)
Example scenario_late_capture :
  let st := mkState (Some []) "/story/x" ∅ in
  let out := on_SET_CURRENT_STORY st (mkItem "x" true [("a", VNum 1)]) in
  baseline (out_state out) "x" = Some [("a", VNum 1)]
  /\ out_effects out = [QueryNavigate "/story/x" true]
  /\ out_thrown out = None.
Proof. repeat split; vm_compute; reflexivity. Qed.

(** A shared URL reproduces its args on load: the decoded fragment is
    merged over the args of the story and pushed. *)
Example scenario_args_from_url :
  let st := mkState (Some [("args", VStr "b:5;c:x")]) "/story/x" ∅ in
  out_effects (on_SET_STORIES st (mkItem "x" true [("a", VStr "1"); ("b", VStr "2")]))
  = [UpdateStoryArgs "x" [("a", VStr "1"); ("b", VStr "5"); ("c", VStr "x")]].
Proof. vm_compute. reflexivity. Qed.

(** Other ways in which the codec changes what it is given: a [+] in a
    value, a key named after a member of [Object.prototype]. *)
Example codec_plus_becomes_space :
  parseArgs (stringifyArgs [("a", VStr "x+y")]) = [("a", VStr "x y")].
Proof. vm_compute. reflexivity. Qed.

Example codec_drops_prototype_names :
  parseArgs (stringifyArgs [("toString", VStr "x"); ("b", VStr "y");
                            ("c", VObj [("valueOf", VStr "z")])])
  = [("b", VStr "y")].
Proof. vm_compute. reflexivity. Qed.

(** * Further properties *)

(** ** QueryParamStore: what was set can be read *)

Lemma non_null_entries_In (k : string) (v : value) (input : obj) :
  List.NoDup (map fst input) -> In (k, v) input -> v <> VNull ->
  In (k, v) (non_null_entries input).
Proof.
  intros Hnd Hin Hv. rewrite non_null_entries_filter.
  rewrite (assign_all_copy _ []); [| now apply filter_keys_NoDup | reflexivity].
  apply filter_In. split; [exact Hin|]. now destruct v.
Qed.

(** X1: what was set can be read: after [setQueryParams(input)],
    [getQueryParam(k)] returns a value deep-equal to the one that [input]
    gives to [k], for every key that [input] sets to something else than
    [null], whether or not the call committed.  The stored map holds
    plain values and owns neither [valueOf] nor [toString] (on such a map
    [deepEqual] throws and nothing is stored); the key is not
    [__proto__], which an assignment does not make a property. *)
Theorem X1_set_then_get (st : State) (input : obj) (k : string) (v : value) :
  wf_value (stored_value st) = true ->
  plain_map (stored_entries st) = true ->
  has_own "valueOf" (stored_entries st) = false ->
  has_own "toString" (stored_entries st) = false ->
  List.NoDup (map fst input) ->
  In (k, v) input -> v <> VNull -> wf_value v = true ->
  k <> "__proto__" ->
  deepEqual (getQueryParam (out_state (setQueryParams st input)) k) v = true.
Proof.
  intros Hwf Hplain Hvo Hts Hnd Hin Hv Hwfv _.
  pose proof (non_null_entries_In k v input Hnd Hin Hv) as Hnn.
  set (update := spread (stored_entries st) (non_null_entries input)).
  assert (Hupd : prop k update = v).
  { apply prop_of_get. unfold update, spread.
    apply assign_all_get; [apply non_null_entries_NoDup | exact Hnn]. }
  rewrite (setQueryParams_plain st input Hwf Hplain Hvo Hts). fold update.
  destruct (deepEqual (stored_value st) (VObj update)) eqn:E; simpl.
  - unfold getQueryParam. unfold stored_value in E, Hwf.
    destruct (store_customQueryParams st) as [stored|]; [|discriminate].
    rewrite <- Hupd. apply deepEqual_obj_prop; [exact E|].
    now apply wf_obj_iff in Hwf as [? _].
  - unfold getQueryParam. simpl. rewrite Hupd. now apply deepEqual_refl.
Qed.

Lemma X1_set_then_get_witness :
  let st := mkState (Some [("theme", VStr "dark")]) "/story/a--b" ∅ in
  let input := [("theme", VStr "light"); ("x", VNull); ("locale", VStr "fr")] in
  wf_value (stored_value st) = true
  /\ plain_map (stored_entries st) = true
  /\ has_own "valueOf" (stored_entries st) = false
  /\ has_own "toString" (stored_entries st) = false
  /\ List.NoDup (map fst input)
  /\ In ("locale", VStr "fr") input
  /\ VStr "fr" <> VNull
  /\ wf_value (VStr "fr") = true
  /\ "locale" <> "__proto__"
  /\ deepEqual (getQueryParam (out_state (setQueryParams st input)) "locale")
       (VStr "fr") = true.
Proof.
  intros st input.
  assert (Hnd : List.NoDup (map fst input)) by (apply nodup_keys_NoDup; reflexivity).
  assert (Hin : In ("locale", VStr "fr") input) by (simpl; tauto).
  assert (Hv : VStr "fr" <> VNull) by discriminate.
  assert (Hk : "locale" <> "__proto__") by discriminate.
  split; [reflexivity|]. split; [reflexivity|]. split; [reflexivity|].
  split; [reflexivity|]. split; [exact Hnd|]. split; [exact Hin|].
  split; [exact Hv|]. split; [reflexivity|]. split; [exact Hk|].
  exact (X1_set_then_get st input "locale" (VStr "fr")
           eq_refl eq_refl eq_refl eq_refl Hnd Hin Hv eq_refl Hk).
Defined.

(** ** QueryLocationParser: the passthrough map *)

Lemma get_own_rest_without (names : list string) (k : string) (o : obj) :
  get_own k (rest_without names o)
  = if existsb (String.eqb k) names then None else get_own k o.
Proof.
  unfold rest_without. destruct (existsb (String.eqb k) names) eqn:Ek.
  - induction o as [|[k' v] o IH]; simpl; [reflexivity|].
    destruct (existsb (String.eqb k') names) eqn:Ek'; simpl; [exact IH|].
    destruct (String.eqb_spec k' k) as [->|_]; [congruence | exact IH].
  - induction o as [|[k' v] o IH]; simpl; [reflexivity|].
    destruct (existsb (String.eqb k') names) eqn:Ek'; simpl.
    + destruct (String.eqb_spec k' k) as [->|_]; [congruence | exact IH].
    + now rewrite IH.
Qed.

Lemma has_own_rest_without (names : list string) (k : string) (o : obj) :
  In k names -> has_own k (rest_without names o) = false.
Proof.
  intros Hin. rewrite has_own_get, get_own_rest_without.
  apply existsb_eqb_In in Hin. now rewrite Hin.
Qed.

Lemma rest_without_wf (names : list string) (o : obj) :
  wf_obj o = true -> wf_obj (rest_without names o) = true.
Proof.
  rewrite !wf_obj_iff. intros [Hnd Hall]. split.
  - now apply filter_keys_NoDup.
  - apply List.Forall_forall. intros kv Hin. apply filter_In in Hin as [Hin _].
    rewrite List.Forall_forall in Hall. now apply Hall.
Qed.

Section PassthroughFacts.
Context {Location : Type}.
Variable queryFromLocation : Location -> obj.
Variable toId : value -> value -> result string.
Variable sanitize : value -> result string.

Local Abbreviation parse := (initialUrlSupport Location queryFromLocation toId sanitize).

Lemma initialUrlSupport_Throw st i e st' :
  parse st i = (Throw e, st') ->
  prevParams st' = prevParams st
  /\ resolve_storyId toId sanitize (in_storyId i)
       (prop "selectedKind" (queryFromLocation (in_location i)))
       (prop "selectedStory" (queryFromLocation (in_location i)))
     = Throw e.
Proof.
  unfold initialUrlSupport. simpl.
  destruct (resolve_storyId _ _ _ _ _) as [sid|e'] eqn:E; [discriminate|].
  intros [= <- <-]. simpl. auto.
Qed.

Lemma memoize_inv (prev : option objref) (n : nat) (other : obj) :
  match prev with
  | Some p => wf_obj (content p) = true
              /\ forall k, In k known_keys -> has_own k (content p) = false
  | None => True
  end ->
  wf_obj other = true ->
  (forall k, In k known_keys -> has_own k other = false) ->
  wf_obj (content (memoize prev (mkRef n other))) = true
  /\ (forall k, In k known_keys ->
      has_own k (content (memoize prev (mkRef n other))) = false)
  /\ deepEqual (VObj (content (memoize prev (mkRef n other)))) (VObj other) = true.
Proof.
  intros Hprev Hwf Hkeys. unfold memoize.
  destruct prev as [p|]; cbn [content].
  - destruct Hprev as [Hp1 Hp2].
    destruct (deepEqual (VObj (content p)) (VObj other)) eqn:E; cbn [content].
    + auto.
    + split; [exact Hwf|]. split; [exact Hkeys | now apply deepEqual_refl].
  - split; [exact Hwf|]. split; [exact Hkeys | now apply deepEqual_refl].
Qed.

(** X2: the passthrough map that the parser returns never holds one of the
    keys the parser recognises ([full], [panel], ..., [path]), and the memo
    slot keeps that property from call to call, whether the call returns
    or throws. *)
Theorem X2_passthrough_excludes_known_keys st i out st' :
  memo_inv st ->
  wf_obj (queryFromLocation (in_location i)) = true ->
  parse st i = (out, st') ->
  memo_inv st'
  /\ forall r, out = Ok r ->
     forall k, In k known_keys ->
     has_own k (content (customQueryParams r)) = false.
Proof.
  intros Hinv Hwf Hparse. destruct out as [r|e].
  - apply initialUrlSupport_Ok in Hparse as (_ & _ & Hr & Hst').
    destruct (memoize_inv (prevParams st) (next_addr st)
                (rest_without known_keys (queryFromLocation (in_location i)))
                Hinv (rest_without_wf _ _ Hwf)
                (fun k Hk => has_own_rest_without known_keys k _ Hk))
      as (H1 & H2 & _).
    rewrite <- Hr in H1, H2. split.
    + unfold memo_inv. rewrite Hst'. auto.
    + intros r' [= <-]. exact H2.
  - apply initialUrlSupport_Throw in Hparse as [Hst' _]. split.
    + unfold memo_inv in *. now rewrite Hst'.
    + discriminate.
Qed.

(** X3: memoization is transparent: the passthrough map that a call
    returns is deep-equal to the one extracted from the location of that
    call, so every key that the parser does not recognise is passed
    through with (a value deep-equal to) its value in the query. *)
Theorem X3_passthrough_follows_query st i r st' :
  memo_inv st ->
  wf_obj (queryFromLocation (in_location i)) = true ->
  parse st i = (Ok r, st') ->
  let query := queryFromLocation (in_location i) in
  deepEqual (VObj (content (customQueryParams r)))
            (VObj (rest_without known_keys query)) = true
  /\ forall k, ~ In k known_keys ->
     deepEqual (prop k (content (customQueryParams r))) (prop k query) = true.
Proof.
  intros Hinv Hwf Hparse. simpl.
  apply initialUrlSupport_Ok in Hparse as (_ & _ & Hr & _).
  destruct (memoize_inv (prevParams st) (next_addr st)
              (rest_without known_keys (queryFromLocation (in_location i)))
              Hinv (rest_without_wf _ _ Hwf)
              (fun k Hk => has_own_rest_without known_keys k _ Hk))
    as (H1 & _ & H3).
  rewrite <- Hr in H1, H3. split; [exact H3|].
  intros k Hk.
  replace (prop k (queryFromLocation (in_location i)))
    with (prop k (rest_without known_keys (queryFromLocation (in_location i)))).
  - apply deepEqual_obj_prop; [exact H3|]. now apply wf_obj_iff in H1 as [? _].
  - unfold prop. rewrite get_own_rest_without.
    destruct (existsb (String.eqb k) known_keys) eqn:E; [|reflexivity].
    apply existsb_eqb_In in E. contradiction.
Qed.

(** X4: the parser throws only out of [toId] or [sanitize]: the location
    then carries no identifier and a truthy [selectedKind], the exception
    is the one of [toId] (with a truthy [selectedStory]) or of [sanitize]
    (without), and the memo slot is left as it was. *)
Theorem X4_parser_throws_only_from_csf st i e st' :
  parse st i = (Throw e, st') ->
  let query := queryFromLocation (in_location i) in
  prevParams st' = prevParams st
  /\ truthy (in_storyId i) = false
  /\ truthy (prop "selectedKind" query) = true
  /\ (if truthy (prop "selectedStory" query)
      then toId (prop "selectedKind" query) (prop "selectedStory" query) = Throw e
      else sanitize (prop "selectedKind" query) = Throw e).
Proof.
  intros H. apply initialUrlSupport_Throw in H as [Hst H]. simpl.
  split; [exact Hst|]. unfold resolve_storyId in H.
  destruct (truthy (in_storyId i)); simpl in H; [discriminate|].
  destruct (truthy (prop "selectedKind" _)); simpl in H; [|discriminate].
  destruct (truthy (prop "selectedStory" _)); simpl in H.
  - destruct (toId _ _); [discriminate | now injection H as ->].
  - destruct (sanitize _); [discriminate | now injection H as ->].
Qed.

(** X5: with an identifier on the location the parser returns, without
    consulting [toId] or [sanitize], and with that identifier. *)
Theorem X5_explicit_identifier_never_throws st i :
  truthy (in_storyId i) = true ->
  exists r st', parse st i = (Ok r, st') /\ storyId r = in_storyId i.
Proof.
  intros H. unfold initialUrlSupport, resolve_storyId. simpl. rewrite H. simpl.
  eexists _, _. split; reflexivity.
Qed.

Lemma parse_all_hit (p : objref) :
  forall inputs st,
  prevParams st = Some p ->
  Forall (fun i => deepEqual (VObj (content p))
                     (VObj (rest_without known_keys (queryFromLocation (in_location i))))
                   = true) inputs ->
  Forall (fun out => forall r, out = Ok r -> customQueryParams r = p)
         (parse_all queryFromLocation toId sanitize st inputs).
Proof.
  induction inputs as [|i inputs IH]; intros st Hprev Hall; [constructor|].
  inversion Hall as [|? ? Hi Hall']; subst. simpl.
  destruct (parse st i) as [out st'] eqn:E. simpl. constructor.
  - intros r ->. apply initialUrlSupport_Ok in E as (_ & _ & Hr & _).
    rewrite Hr, Hprev. unfold memoize. cbn [content]. now rewrite Hi.
  - apply IH; [|exact Hall']. destruct out as [r|e].
    + apply initialUrlSupport_Ok in E as (_ & _ & Hr & Hst').
      rewrite Hst', Hr, Hprev. unfold memoize. cbn [content]. now rewrite Hi.
    + apply initialUrlSupport_Throw in E as [Hst' _]. congruence.
Qed.

(** X6: reference stability over any number of calls: after a call that
    returned, every later call whose extracted passthrough map is
    deep-equal to that of the first returns the very object the first
    returned, also when calls in between throw. *)
Theorem X6_reference_stable_over_calls st i0 r0 st0 inputs :
  parse st i0 = (Ok r0, st0) ->
  Forall (fun i => deepEqual
                     (VObj (rest_without known_keys (queryFromLocation (in_location i0))))
                     (VObj (rest_without known_keys (queryFromLocation (in_location i))))
                   = true) inputs ->
  Forall (fun out => forall r, out = Ok r ->
                     customQueryParams r = customQueryParams r0)
         (parse_all queryFromLocation toId sanitize st0 inputs).
Proof.
  intros H0 Hall. apply initialUrlSupport_Ok in H0 as (_ & _ & Hr & Hst0).
  apply parse_all_hit; [exact Hst0|].
  eapply List.Forall_impl; [|exact Hall]. intros i Hi. cbv beta in Hi |- *.
  rewrite Hr. unfold memoize.
  destruct (prevParams st) as [p|]; [|exact Hi].
  destruct (deepEqual (VObj (content p)) _) eqn:Hp; [|exact Hi].
  eapply deepEqual_trans; eassumption.
Qed.
End PassthroughFacts.

Lemma X2_passthrough_excludes_known_keys_witness :
  let query := [("full", VStr "1"); ("foo", VStr "bar"); ("path", VStr "/story/a")] in
  let i := mkUrlInput query (VStr "/") VUndefined VUndefined in
  let st := mkParserState None 0 in
  let kept := mkRef 0 [("foo", VStr "bar")] in
  let r := mkInitialState obj VUndefined (mkAdditions (Some true) None None None)
             VUndefined query (VStr "/") kept VUndefined in
  memo_inv st
  /\ wf_obj (query_itself (in_location i)) = true
  /\ initialUrlSupport obj query_itself join_toId join_sanitize st i
     = (Ok r, mkParserState (Some kept) 1)
  /\ forall k, In k known_keys -> has_own k (content (customQueryParams r)) = false.
Proof.
  intros query i st kept r.
  split; [exact I|]. split; [reflexivity|]. split; [reflexivity|].
  exact (proj2 (X2_passthrough_excludes_known_keys query_itself join_toId
                  join_sanitize st i (Ok r) _ I eq_refl eq_refl) r eq_refl).
Defined.

Lemma X3_passthrough_follows_query_witness :
  let kept := mkRef 0 [("foo", VStr "bar")] in
  let st := mkParserState (Some kept) 1 in
  let query := [("full", VStr "1"); ("foo", VStr "bar")] in
  let i := mkUrlInput query (VStr "/") VUndefined VUndefined in
  let r := mkInitialState obj VUndefined (mkAdditions (Some true) None None None)
             VUndefined query (VStr "/") kept VUndefined in
  memo_inv st
  /\ wf_obj (query_itself (in_location i)) = true
  /\ initialUrlSupport obj query_itself join_toId join_sanitize st i
     = (Ok r, mkParserState (Some kept) 2)
  /\ deepEqual (VObj (content (customQueryParams r)))
               (VObj (rest_without known_keys query)) = true.
Proof.
  intros kept st query i r.
  assert (Hinv : memo_inv st).
  { split; [reflexivity|]. intros k Hk. simpl in Hk.
    repeat (destruct Hk as [<-|Hk]; [reflexivity|]). contradiction. }
  split; [exact Hinv|]. split; [reflexivity|]. split; [reflexivity|].
  exact (proj1 (X3_passthrough_follows_query query_itself join_toId join_sanitize
                  st i r _ Hinv eq_refl eq_refl)).
Defined.

Lemma X4_parser_throws_witness :
  let query := [("selectedKind", VArr [VStr "a"; VStr "b"]);
                ("selectedStory", VStr "x")] in
  let i := mkUrlInput query (VStr "/") VUndefined VUndefined in
  let st := mkParserState (Some (mkRef 0 [])) 1 in
  let e := TypeError "string.toLowerCase is not a function" in
  initialUrlSupport obj query_itself join_toId join_sanitize st i
  = (Throw e, mkParserState (Some (mkRef 0 [])) 2)
  /\ prevParams (mkParserState (Some (mkRef 0 [])) 2) = prevParams st
  /\ truthy (in_storyId i) = false.
Proof.
  intros query i st e. split; [reflexivity|].
  destruct (X4_parser_throws_only_from_csf query_itself join_toId join_sanitize
              st i e _ eq_refl) as (H1 & H2 & _).
  split; [exact H1 | exact H2].
Defined.

Lemma X5_explicit_identifier_witness :
  let query := [("selectedKind", VArr [VStr "a"; VStr "b"])] in
  let i := mkUrlInput query (VStr "/story/a--b") (VStr "story") (VStr "a--b") in
  truthy (in_storyId i) = true
  /\ exists r st',
       initialUrlSupport obj query_itself join_toId join_sanitize
         (mkParserState None 0) i = (Ok r, st')
       /\ storyId r = in_storyId i.
Proof.
  intros query i. split; [reflexivity|].
  exact (X5_explicit_identifier_never_throws query_itself join_toId join_sanitize
           (mkParserState None 0) i eq_refl).
Defined.

Lemma X6_reference_stable_witness :
  let q0 := [("foo", VStr "bar")] in
  let i0 := mkUrlInput q0 (VStr "/") VUndefined VUndefined in
  let kept := mkRef 0 [("foo", VStr "bar")] in
  let r0 := mkInitialState obj VUndefined no_additions VUndefined q0 (VStr "/")
              kept VUndefined in
  let st0 := mkParserState (Some kept) 1 in
  let inputs :=
    [ mkUrlInput [("full", VStr "1"); ("foo", VStr "bar")] (VStr "/") VUndefined VUndefined;
      mkUrlInput [("foo", VStr "bar"); ("selectedKind", VArr [])] (VStr "/") VUndefined VUndefined;
      mkUrlInput [("foo", VStr "bar"); ("nav", VStr "0")] (VStr "/") VUndefined VUndefined ] in
  initialUrlSupport obj query_itself join_toId join_sanitize
    (mkParserState None 0) i0 = (Ok r0, st0)
  /\ Forall (fun i => deepEqual
                        (VObj (rest_without known_keys (query_itself (in_location i0))))
                        (VObj (rest_without known_keys (query_itself (in_location i))))
                      = true) inputs
  /\ Forall (fun out => forall r, out = Ok r ->
                        customQueryParams r = customQueryParams r0)
            (parse_all query_itself join_toId join_sanitize st0 inputs).
Proof.
  intros q0 i0 kept r0 st0 inputs.
  assert (Hall : Forall (fun i => deepEqual
                        (VObj (rest_without known_keys (query_itself (in_location i0))))
                        (VObj (rest_without known_keys (query_itself (in_location i))))
                      = true) inputs).
  { repeat constructor. }
  split; [reflexivity|]. split; [exact Hall|].
  exact (X6_reference_stable_over_calls query_itself join_toId join_sanitize
           (mkParserState None 0) i0 r0 st0 inputs eq_refl Hall).
Defined.

(** ** ArgsCodec: what comes back for primitives *)

Lemma codec_safe_printed (v : value) :
  codec_safe_value (printed v) = true ->
  forall k, stringify_value k (printed v) = stringify_value k v.
Proof. destruct v; simpl; try discriminate; reflexivity. Qed.

Lemma stringify_as_decoded (a : obj) :
  Forall safe_entry (as_decoded a) ->
  flat_map (fun kv => stringify_value (fst kv) (snd kv)) (as_decoded a)
  = flat_map (fun kv => stringify_value (fst kv) (snd kv)) a.
Proof.
  induction a as [|[k v] a IH]; intros H; [reflexivity|].
  inversion H as [|? ? [_ Hv] Ha]; subst. simpl in Hv |- *.
  now rewrite (codec_safe_printed v Hv), IH.
Qed.

(** X7: decoding an encoded flat map of primitives gives every value
    back as the string that was printed for it (a safe integer in decimal,
    a boolean as [true] or [false], [null] as the empty string), and
    encoding that result gives the same fragment again. *)
Theorem X7_primitives_come_back_as_strings (a : obj) :
  codec_safe (as_decoded a) = true ->
  forallb (fun kv => safe_numbers (snd kv)) a = true ->
  parseArgs (stringifyArgs a) = read_order (as_decoded a)
  /\ deepEqual (VObj (parseArgs (stringifyArgs a))) (VObj (as_decoded a)) = true
  /\ stringifyArgs (as_decoded a) = stringifyArgs a.
Proof.
  intros Hsafe _.
  assert (Hsame : stringifyArgs (as_decoded a) = stringifyArgs a).
  { unfold stringifyArgs, qs_stringify.
    rewrite stringify_as_decoded; [reflexivity|].
    now apply codec_safe_entries in Hsafe as (_ & _ & ?). }
  pose proof (parseArgs_stringifyArgs _ (codec_safe_args_flat _ Hsafe)) as Hback.
  rewrite Hsame in Hback. split; [exact Hback|]. split; [|exact Hsame].
  rewrite Hback. apply deepEqual_Permutation; [apply read_order_Permutation|].
  now apply codec_safe_wf.
Qed.

Lemma X7_primitives_witness :
  let a := [("count", VNum (-12)); ("on", VBool true); ("note", VNull);
            ("label", VStr "Hi")] in
  codec_safe (as_decoded a) = true
  /\ forallb (fun kv => safe_numbers (snd kv)) a = true
  /\ parseArgs (stringifyArgs a)
     = [("count", VStr "-12"); ("on", VStr "true"); ("note", VStr "");
        ("label", VStr "Hi")].
Proof.
  intros a. split; [reflexivity|]. split; [reflexivity|].
  exact (proj1 (X7_primitives_come_back_as_strings a eq_refl eq_refl)).
Defined.

(** ** Event handlers: exceptions and requests *)

Lemma getQueryParam_insert (st : State) (i : string) (b : option obj) (k : string) :
  getQueryParam (mkState (store_customQueryParams st) (store_path st)
                         (<[i := b]> (initialArgs st))) k
  = getQueryParam st k.
Proof. reflexivity. Qed.

Lemma customized_missing (entries acc : obj) :
  customized entries None acc
  = match entries with
    | [] => Ok acc
    | _ :: _ => Throw (TypeError "Cannot read property of undefined")
    end.
Proof. now destruct entries as [|[k v] entries]. Qed.

Lemma on_SET_CURRENT_STORY_outcome (st : State) (data : Item) :
  let st' :=
    mkState (store_customQueryParams st) (store_path st)
      (<[id data := match baseline st (id data) with
                     | Some b => Some b
                     | None => storyArgs_of data
                     end]> (initialArgs st)) in
  (exists customizedArgs,
     on_SET_CURRENT_STORY st data
     = mkOutcome st'
         [QueryNavigate (target_url (store_path st) (stringifyArgs customizedArgs)) true]
         None)
  \/ (exists e, on_SET_CURRENT_STORY st data = mkOutcome st' [] (Some e)).
Proof.
  unfold on_SET_CURRENT_STORY.
  destruct (baseline st (id data)); [destruct (customized _ _ _)|]; cbv zeta.
  - left. eexists. rewrite navigate_with_target. reflexivity.
  - right. eexists. reflexivity.
  - left. eexists. rewrite navigate_with_target. reflexivity.
Qed.

Lemma on_SET_CURRENT_STORY_returns (st : State) (data : Item) :
  is_prototype_name (id data) = false ->
  isStory data = false \/ baseline st (id data) = None
  \/ (wf_obj (args data) = true /\ plain_args (args data) = true) ->
  out_thrown (on_SET_CURRENT_STORY st data) = None.
Proof.
  intros _ H. unfold on_SET_CURRENT_STORY.
  destruct (baseline st (id data)) as [b|] eqn:Eb; [|reflexivity].
  rewrite baseline_insert.
  destruct (decide (id data = id data)) as [_|]; [|contradiction].
  unfold storyArgs_of. destruct (isStory data); [|reflexivity].
  destruct H as [H|[H|[Hwf Hp]]]; try discriminate.
  now rewrite (customized_entries b (args data) Hwf Hp).
Qed.

(** X8: which handlers throw, and when, for an identifier that names no
    member of [Object.prototype].  [NAVIGATE_URL] never does.
    [SET_CURRENT_STORY] does not for an item that is no story, nor on the
    first selection of an item, nor when the args are plain data.  For
    args that are plain data, [STORY_ARGS_UPDATED] throws exactly when the
    item has no baseline and the event carries at least one arg.
    [SET_STORIES] throws exactly when the [args] query parameter is truthy
    and not a string.  A handler that throws has made no call out of the
    module. *)
Theorem X8_when_handlers_throw (st : State) :
  (forall url options, out_thrown (handle st (NAVIGATE_URL url options)) = None)
  /\ (forall data,
      is_prototype_name (id data) = false ->
      isStory data = false \/ baseline st (id data) = None
      \/ (wf_obj (args data) = true /\ plain_args (args data) = true) ->
      out_thrown (on_SET_CURRENT_STORY st data) = None)
  /\ (forall storyId args,
      wf_obj args = true -> plain_args args = true ->
      is_prototype_name storyId = false ->
      (out_thrown (on_STORY_ARGS_UPDATED st storyId args) = None
       <-> (baseline st storyId <> None \/ args = [])))
  /\ (forall data,
      out_thrown (on_SET_STORIES st data) = None
      <-> (truthy (getQueryParam st "args") = false
           \/ exists s, getQueryParam st "args" = VStr s))
  /\ (forall e, out_thrown (handle st e) <> None -> out_effects (handle st e) = []).
Proof.
  assert (Hupd : forall storyId args,
            wf_obj args = true -> plain_args args = true ->
            is_prototype_name storyId = false ->
            (out_thrown (on_STORY_ARGS_UPDATED st storyId args) = None
             <-> (baseline st storyId <> None \/ args = []))).
  { intros storyId args Hwf Hp _. unfold on_STORY_ARGS_UPDATED.
    destruct (baseline st storyId) as [b|].
    - rewrite (customized_entries b args Hwf Hp). simpl.
      split; [left; discriminate | reflexivity].
    - rewrite customized_missing. destruct args as [|kv args]; simpl.
      + split; [now right | reflexivity].
      + split; [discriminate | intros [H|H]; [contradiction | discriminate]]. }
  assert (Hset : forall data,
            out_thrown (on_SET_STORIES st data) = None
            <-> (truthy (getQueryParam st "args") = false
                 \/ exists s, getQueryParam st "args" = VStr s)).
  { intros data. unfold on_SET_STORIES. rewrite getQueryParam_insert.
    destruct (getQueryParam st "args") as [ | | b | n | s | xs | kvs ] eqn:E; simpl;
      try (split; [intros _; now left | reflexivity]).
    - destruct b; simpl.
      + split; [discriminate | intros [H|[s H]]; discriminate].
      + split; [now left | reflexivity].
    - destruct (n =? 0)%Z; simpl.
      + split; [now left | reflexivity].
      + split; [discriminate | intros [H|[s H]]; discriminate].
    - destruct (s =? "")%string; simpl; (split; [intros _; right; now exists s | reflexivity]).
    - split; [discriminate | intros [H|[s H]]; discriminate].
    - split; [discriminate | intros [H|[s H]]; discriminate]. }
  split; [reflexivity|]. split; [apply on_SET_CURRENT_STORY_returns|].
  split; [exact Hupd|]. split; [exact Hset|].
  intros [url options | data | data | storyId args]; simpl.
  - intros H. now contradiction H.
  - unfold on_SET_STORIES.
    destruct (if truthy _ then _ else _); simpl; intros H;
      solve [reflexivity | now contradiction H].
  - destruct (on_SET_CURRENT_STORY_outcome st data) as [[c ->]|[e ->]]; simpl; intros H;
      [now contradiction H | reflexivity].
  - unfold on_STORY_ARGS_UPDATED. destruct (customized _ _ _); simpl; intros H;
      [now contradiction H | reflexivity].
Qed.

Lemma X8_handlers_throw_witness :
  let st := mkState (Some []) "/story/x" {[ "x" := Some [("a", VNum 1)] ]} in
  let args := [("a", VNum 2); ("style", VObj [("color", VStr "red")])] in
  wf_obj args = true
  /\ plain_args args = true
  /\ is_prototype_name "x" = false
  /\ is_prototype_name "y" = false
  /\ out_thrown (on_STORY_ARGS_UPDATED st "x" args) = None
  /\ out_thrown (on_STORY_ARGS_UPDATED st "y" args) <> None.
Proof.
  intros st args.
  destruct (X8_when_handlers_throw st) as (_ & _ & Hupd & _).
  split; [reflexivity|]. split; [reflexivity|]. split; [reflexivity|].
  split; [reflexivity|]. split.
  - apply (Hupd "x" args eq_refl eq_refl eq_refl). left. discriminate.
  - intros H. apply (Hupd "y" args eq_refl eq_refl eq_refl) in H.
    destruct H as [H|H]; [now apply H | discriminate H].
Defined.

(** X9: a handler leaves the query parameters and the path of the store
    as they are, and every navigation it asks of the router package is a
    replacing one, to the current path or to the current path followed by
    [&args=] and a non-empty fragment. *)
Theorem X9_handlers_only_replace (st : State) (e : event) :
  store_customQueryParams (out_state (handle st e)) = store_customQueryParams st
  /\ store_path (out_state (handle st e)) = store_path st
  /\ Forall (replaces_within (store_path st)) (out_effects (handle st e)).
Proof.
  assert (Htarget : forall c,
            replaces_within (store_path st)
              (QueryNavigate (target_url (store_path st) (stringifyArgs c)) true)).
  { intros c. split; [reflexivity|]. unfold target_url.
    destruct (String.eqb_spec (stringifyArgs c) "") as [_|Hne]; [now left|].
    right. now exists (stringifyArgs c). }
  destruct e as [url options | data | data | storyId args]; simpl.
  - repeat split. repeat constructor.
  - unfold on_SET_STORIES.
    destruct (if truthy _ then _ else _); simpl; repeat split; repeat constructor.
  - destruct (on_SET_CURRENT_STORY_outcome st data) as [[c ->]|[e ->]]; simpl.
    + repeat split. constructor; [apply Htarget | constructor].
    + repeat split. constructor.
  - unfold on_STORY_ARGS_UPDATED. destruct (customized _ _ _) as [c|]; simpl.
    + rewrite navigate_with_target. repeat split.
      constructor; [apply Htarget | constructor].
    + repeat split. constructor.
Qed.

(** ** Event handlers: baselines *)

(** X10: the handlers write the baseline of the current item only: over a
    whole session, the baseline of an item for which no [SET_STORIES] and
    no [SET_CURRENT_STORY] event ran is what it was at the start. *)
Theorem X10_other_baselines_untouched (st : State) (es : list event) (i : string) :
  (forall data, In (SET_STORIES data) es \/ In (SET_CURRENT_STORY data) es ->
                id data <> i) ->
  baseline (run st es) i = baseline st i.
Proof.
  revert st. induction es as [|e es IH]; intros st Hes; [reflexivity|].
  change (run st (e :: es)) with (run (out_state (handle st e)) es).
  rewrite IH by (intros data [H|H]; apply Hes; [left | right]; now right).
  destruct e as [url options | data | data | storyId args]; simpl.
  - reflexivity.
  - rewrite baseline_SET_STORIES.
    destruct (decide (i = id data)) as [->|_]; [|reflexivity].
    exfalso. apply (Hes data); [left; now left | reflexivity].
  - rewrite baseline_SET_CURRENT_STORY.
    destruct (decide (i = id data)) as [->|_]; [|reflexivity].
    exfalso. apply (Hes data); [right; now left | reflexivity].
  - now rewrite state_STORY_ARGS_UPDATED.
Qed.

Lemma X10_other_baselines_witness :
  let st := mkState (Some []) "/story/x" {[ "x" := Some [("a", VNum 1)] ]} in
  let es := [ SET_STORIES (mkItem "y" true [("a", VNum 4)]);
              STORY_ARGS_UPDATED "x" [("a", VNum 3)];
              SET_CURRENT_STORY (mkItem "z" false []) ] in
  (forall data, In (SET_STORIES data) es \/ In (SET_CURRENT_STORY data) es ->
                id data <> "x")
  /\ baseline (run st es) "x" = Some [("a", VNum 1)].
Proof.
  intros st es.
  assert (Hes : forall data,
            In (SET_STORIES data) es \/ In (SET_CURRENT_STORY data) es ->
            id data <> "x").
  { intros data [[H|[H|[H|[]]]]|[H|[H|[H|[]]]]]; try discriminate H;
      injection H as <-; discriminate. }
  split; [exact Hes|].
  exact (X10_other_baselines_untouched st es "x" Hes).
Defined.

(** X11: a baseline is always a snapshot of a story: whatever the session,
    a baseline that was not there at the start is the args that a story
    with that identifier had when a [SET_STORIES] or [SET_CURRENT_STORY]
    event of the session ran. *)
Theorem X11_baselines_are_story_args (st : State) (es : list event)
    (i : string) (b : obj) :
  baseline (run st es) i = Some b ->
  baseline st i = Some b
  \/ exists data,
       (In (SET_STORIES data) es \/ In (SET_CURRENT_STORY data) es)
       /\ id data = i /\ isStory data = true /\ args data = b.
Proof.
  revert st. induction es as [|e es IH]; intros st H; [now left|].
  change (run st (e :: es)) with (run (out_state (handle st e)) es) in H.
  apply IH in H as [H|(data & Hin & Hd)].
  - destruct e as [url options | data | data | storyId args]; simpl in H.
    + now left.
    + rewrite baseline_SET_STORIES in H.
      destruct (decide (i = id data)) as [->|_]; [|now left].
      right. exists data. split; [left; now left|].
      unfold storyArgs_of in H. destruct (isStory data); [|discriminate].
      injection H as <-. auto.
    + rewrite baseline_SET_CURRENT_STORY in H.
      destruct (decide (i = id data)) as [->|_]; [|now left].
      destruct (baseline st (id data)) as [b'|] eqn:Eb; [left; congruence|].
      right. exists data. split; [right; now left|].
      unfold storyArgs_of in H. destruct (isStory data); [|discriminate].
      injection H as <-. auto.
    + rewrite state_STORY_ARGS_UPDATED in H. now left.
  - right. exists data. split; [|exact Hd].
    destruct Hin as [Hin|Hin]; [left | right]; now right.
Qed.

Lemma X11_baselines_witness :
  let st := mkState (Some []) "/story/x" ∅ in
  let es := [ SET_CURRENT_STORY (mkItem "x" true [("a", VNum 1)]);
              STORY_ARGS_UPDATED "x" [("a", VNum 2)];
              SET_CURRENT_STORY (mkItem "x" true [("a", VNum 2)]) ] in
  baseline (run st es) "x" = Some [("a", VNum 1)]
  /\ (baseline st "x" = Some [("a", VNum 1)]
      \/ exists data,
           (In (SET_STORIES data) es \/ In (SET_CURRENT_STORY data) es)
           /\ id data = "x" /\ isStory data = true /\ args data = [("a", VNum 1)]).
Proof.
  intros st es.
  assert (H : baseline (run st es) "x" = Some [("a", VNum 1)]) by reflexivity.
  split; [exact H|].
  exact (X11_baselines_are_story_args st es "x" [("a", VNum 1)] H).
Defined.

(** ** Event handlers: diffs *)

Lemma filter_none {A : Type} (f : A -> bool) (l : list A) :
  (forall x, In x l -> f x = false) -> List.filter f l = [].
Proof.
  induction l as [|x l IH]; intros H; [reflexivity|]. simpl.
  rewrite (H x) by now left. apply IH. intros y Hy. apply H. now right.
Qed.

(** X12: args that are deep-equal to the baseline of their item leave
    nothing to encode: [STORY_ARGS_UPDATED] then replaces the location by
    the bare current path, so putting the args back to their first values
    takes the [args=] suffix away.  The args are plain data. *)
Theorem X12_baseline_args_clear_the_fragment
    (st : State) (storyId : string) (b current : obj) :
  baseline st storyId = Some b ->
  wf_obj current = true ->
  plain_args current = true ->
  deepEqual (VObj current) (VObj b) = true ->
  on_STORY_ARGS_UPDATED st storyId current
  = mkOutcome st [QueryNavigate (store_path st) true] None.
Proof.
  intros Hb Hwf Hp Heq. unfold on_STORY_ARGS_UPDATED.
  rewrite Hb, (customized_entries b current Hwf Hp), navigate_with_target.
  rewrite filter_none; [reflexivity|].
  intros kv Hin. rewrite deepEqual_obj in Heq.
  apply andb_true_iff in Heq as [_ Hv]. rewrite forallb_forall in Hv.
  unfold differs. now rewrite (Hv kv Hin).
Qed.

Lemma X12_baseline_args_witness :
  let b := [("a", VNum 1); ("b", VArr [VStr "x"])] in
  let current := [("b", VArr [VStr "x"]); ("a", VNum 1)] in
  let st := mkState (Some []) "/story/x" {[ "x" := Some b ]} in
  baseline st "x" = Some b
  /\ wf_obj current = true
  /\ plain_args current = true
  /\ deepEqual (VObj current) (VObj b) = true
  /\ on_STORY_ARGS_UPDATED st "x" current
     = mkOutcome st [QueryNavigate "/story/x" true] None.
Proof.
  intros b current st. split; [reflexivity|]. split; [reflexivity|].
  split; [reflexivity|]. split; [reflexivity|].
  exact (X12_baseline_args_clear_the_fragment st "x" b current
           eq_refl eq_refl eq_refl eq_refl).
Defined.

(** X13: the first selection of a story captures its args as baseline and
    replaces the location by the bare current path: selecting a story
    never puts args into the URL by itself. *)
Theorem X13_first_selection_is_bare (st : State) (data : Item) :
  baseline st (id data) = None ->
  isStory data = true ->
  wf_obj (args data) = true ->
  baseline (out_state (on_SET_CURRENT_STORY st data)) (id data) = Some (args data)
  /\ out_effects (on_SET_CURRENT_STORY st data)
     = [QueryNavigate (store_path st) true]
  /\ out_thrown (on_SET_CURRENT_STORY st data) = None.
Proof.
  intros Hb Hstory Hwf.
  split.
  { rewrite baseline_SET_CURRENT_STORY, Hb. unfold storyArgs_of. rewrite Hstory.
    destruct (decide (id data = id data)); [reflexivity | contradiction]. }
  unfold on_SET_CURRENT_STORY. rewrite Hb, navigate_with_target.
  split; reflexivity.
Qed.

Lemma X13_first_selection_witness :
  let st := mkState (Some []) "/story/x" ∅ in
  let data := mkItem "x" true [("a", VNum 1); ("b", VStr "y")] in
  baseline st (id data) = None
  /\ isStory data = true
  /\ wf_obj (args data) = true
  /\ out_effects (on_SET_CURRENT_STORY st data) = [QueryNavigate "/story/x" true].
Proof.
  intros st data. split; [reflexivity|]. split; [reflexivity|]. split; [reflexivity|].
  exact (proj1 (proj2 (X13_first_selection_is_bare st data eq_refl eq_refl eq_refl))).
Defined.

Lemma get_own_spread (a b : obj) (k : string) :
  List.NoDup (map fst a) -> List.NoDup (map fst b) ->
  get_own k (spread a b)
  = match get_own k b with Some v => Some v | None => get_own k a end.
Proof.
  intros Ha Hb. unfold spread. rewrite (assign_all_copy a []) by auto. simpl app.
  destruct (get_own k b) as [v|] eqn:E.
  - apply assign_all_get; [exact Hb | now apply get_own_In].
  - apply assign_all_other. intros Hin. apply has_own_In_keys in Hin.
    rewrite has_own_get, E in Hin. discriminate.
Qed.

Lemma get_own_filter (f : string * value -> bool) (o : obj) (k : string) :
  List.NoDup (map fst o) ->
  get_own k (List.filter f o)
  = match get_own k o with
    | Some v => if f (k, v) then Some v else None
    | None => None
    end.
Proof.
  intros Hnd. destruct (get_own k o) as [v|] eqn:E.
  - apply get_own_In in E as Hin. destruct (f (k, v)) eqn:Ef.
    + apply In_get_own; [now apply filter_keys_NoDup|]. apply filter_In. auto.
    + destruct (get_own k (List.filter f o)) as [v'|] eqn:E'; [|reflexivity].
      apply get_own_In, filter_In in E' as [Hin' Hf'].
      rewrite (In_get_own k v' o Hnd Hin') in E. congruence.
  - destruct (get_own k (List.filter f o)) as [v'|] eqn:E'; [|reflexivity].
    apply get_own_In, filter_In in E' as [Hin' _].
    rewrite (In_get_own k v' o Hnd Hin') in E. discriminate.
Qed.

(** The diff is enough to get the args back from the baseline. *)
Lemma diff_over_baseline (b current : obj) (k : string) :
  wf_obj b = true -> wf_obj current = true ->
  deepEqual (prop k (if has_own k current then current else b))
            (prop k (spread b (List.filter (differs b) current))) = true.
Proof.
  intros Hb Hc. apply wf_obj_iff in Hb as [Hndb Hallb].
  apply wf_obj_iff in Hc as [Hndc Hallc].
  rewrite List.Forall_forall in Hallb, Hallc.
  unfold prop at 2.
  rewrite get_own_spread by (auto; now apply filter_keys_NoDup).
  rewrite get_own_filter by exact Hndc. rewrite has_own_get.
  destruct (get_own k current) as [v|] eqn:E.
  - rewrite (prop_of_get k v current E).
    destruct (differs b (k, v)) eqn:Ed.
    + apply deepEqual_refl. apply (Hallc (k, v)). now apply get_own_In.
    + unfold differs in Ed. simpl in Ed. apply negb_false_iff in Ed. exact Ed.
  - apply deepEqual_refl. unfold prop.
    destruct (get_own k b) as [w|] eqn:Eb; [|reflexivity].
    apply (Hallb (k, w)). now apply get_own_In.
Qed.



(** ** [SET_STORIES]: args from the URL *)

Lemma merge_props_NoDup (rec : value -> value -> value) (skvs acc : obj) :
  List.NoDup (map fst acc) -> List.NoDup (map fst (merge_props rec skvs acc)).
Proof.
  revert acc. induction skvs as [|kv skvs IH]; intros acc H; [exact H|].
  cbn [merge_props]. apply IH. destruct (has_own (fst kv) acc); now apply set_prop_NoDup.
Qed.

Lemma merge_indices_NoDup (rec : value -> value -> value) (items : list value)
    (i : nat) (acc : obj) :
  List.NoDup (map fst acc) -> List.NoDup (map fst (merge_indices rec i items acc)).
Proof.
  revert i acc. induction items as [|item items IH]; intros i acc H; [exact H|].
  cbn [merge_indices]. apply IH. destruct (is_hole item); [exact H|].
  destruct (has_own (pretty i) acc); now apply set_prop_NoDup.
Qed.

(** Merging into an object gives an object, with unique keys. *)
Lemma merge_obj_NoDup (t : obj) (s : value) :
  List.NoDup (map fst t) ->
  exists t', merge (VObj t) s = VObj t' /\ List.NoDup (map fst t').
Proof.
  intros H. destruct s as [ | | b | n | s | items | skvs ]; cbn [merge truthy negb].
  - now exists t.
  - now exists t.
  - destruct b; cbn [negb]; [|now exists t].
    destruct (is_prototype_name _); eexists; split; try reflexivity; auto.
    now apply set_prop_NoDup.
  - destruct (n =? 0)%Z; cbn [negb]; [now exists t|].
    destruct (is_prototype_name _); eexists; split; try reflexivity; auto.
    now apply set_prop_NoDup.
  - destruct (s =? "")%string; cbn [negb]; [now exists t|].
    destruct (is_prototype_name _); eexists; split; try reflexivity; auto.
    now apply set_prop_NoDup.
  - eexists. split; [reflexivity|]. now apply merge_indices_NoDup.
  - eexists. split; [reflexivity|]. now apply merge_props_NoDup.
Qed.

(** The keys of a decoded map are unique. *)
Lemma parseArgs_NoDup (argsString : string) :
  List.NoDup (map fst (parseArgs argsString)).
Proof.
  unfold parseArgs, qs_parse.
  destruct (_ =? "")%string; [constructor|]. cbv zeta.
  generalize (own_keys_order (parse_values (firstn 1000 (split_on ";"
    (String.concat ";" (map (replace_first ":" "=") (split_on ";" argsString))))) []))
    as tmp.
  intros tmp.
  assert (Hfold : forall acc, List.NoDup (map fst acc) ->
            exists t', fold_left (fun obj kv => merge obj (parse_keys (fst kv) (snd kv)))
                         tmp (VObj acc) = VObj t'
                       /\ List.NoDup (map fst t')).
  { induction tmp as [|kv tmp IH]; intros acc Hacc; [now exists acc|].
    cbn [fold_left].
    destruct (merge_obj_NoDup acc (parse_keys (fst kv) (snd kv)) Hacc) as (t' & -> & Ht').
    now apply IH. }
  destruct (Hfold [] ltac:(constructor)) as (t' & -> & Ht').
  cbn [compact]. now rewrite map_map.
Qed.

(** X15: on [SET_STORIES] for a story, the args pushed to the story are
    its own args with the decoded [args] query parameter merged over
    them: a key of the decoded fragment takes the value of the fragment,
    every other key keeps the value of the story.  (An absent, [null] or
    empty parameter decodes as no args at all.)  The baseline recorded is
    the args of the story, not the merged ones. *)
Theorem X15_url_args_win_over_story_args
    (st : State) (data : Item) (argsString : string) :
  isStory data = true ->
  wf_obj (args data) = true ->
  (let q := getQueryParam st "args" in if truthy q then q else VStr "")
  = VStr argsString ->
  let decoded := parseArgs argsString in
  out_effects (on_SET_STORIES st data)
  = [UpdateStoryArgs (id data) (spread (args data) decoded)]
  /\ out_thrown (on_SET_STORIES st data) = None
  /\ baseline (out_state (on_SET_STORIES st data)) (id data) = Some (args data)
  /\ forall k,
       get_own k (spread (args data) decoded)
       = match get_own k decoded with
         | Some v => Some v
         | None => get_own k (args data)
         end.
Proof.
  intros Hstory Hwf Hq. cbv zeta in Hq |- *.
  assert (Hout : on_SET_STORIES st data
           = mkOutcome
               (mkState (store_customQueryParams st) (store_path st)
                  (<[id data := Some (args data)]> (initialArgs st)))
               [UpdateStoryArgs (id data) (spread (args data) (parseArgs argsString))]
               None).
  { unfold on_SET_STORIES, storyArgs_of. rewrite Hstory, getQueryParam_insert, Hq.
    reflexivity. }
  rewrite Hout. cbn [out_effects out_thrown out_state].
  split; [reflexivity|]. split; [reflexivity|]. split.
  - rewrite baseline_insert.
    destruct (decide (id data = id data)); [reflexivity | contradiction].
  - intros k. apply get_own_spread.
    + now apply wf_obj_iff in Hwf as [? _].
    + apply parseArgs_NoDup.
Qed.

Lemma X15_url_args_witness :
  let st := mkState (Some [("args", VStr "b:5;c.d:x;c.e[0]:100%25")]) "/story/x" ∅ in
  let data := mkItem "x" true [("a", VStr "1"); ("b", VStr "2")] in
  isStory data = true
  /\ wf_obj (args data) = true
  /\ (let q := getQueryParam st "args" in if truthy q then q else VStr "")
     = VStr "b:5;c.d:x;c.e[0]:100%25"
  /\ out_effects (on_SET_STORIES st data)
     = [UpdateStoryArgs "x"
          [("a", VStr "1"); ("b", VStr "5");
           ("c", VObj [("d", VStr "x"); ("e", VArr [VStr "100%"])])]].
Proof.
  intros st data. split; [reflexivity|]. split; [reflexivity|].
  split; [reflexivity|].
  exact (proj1 (X15_url_args_win_over_story_args st data "b:5;c.d:x;c.e[0]:100%25"
                  eq_refl eq_refl eq_refl)).
Defined.

Lemma get_own_Permutation (l l' : obj) (k : string) :
  Permutation l l' -> List.NoDup (map fst l) -> get_own k l = get_own k l'.
Proof.
  intros Hperm Hnd.
  assert (Hnd' : List.NoDup (map fst l'))
    by exact (Permutation_NoDup (Permutation_map fst Hperm) Hnd).
  destruct (get_own k l) as [v|] eqn:E.
  - symmetry. apply In_get_own; [exact Hnd'|].
    apply (Permutation_in _ Hperm). now apply get_own_In.
  - destruct (get_own k l') as [v|] eqn:E'; [|reflexivity].
    apply get_own_In in E'. apply (Permutation_in _ (Permutation_sym Hperm)) in E'.
    rewrite (In_get_own k v l Hnd E') in E. discriminate.
Qed.

(** X16: a URL written by a diffing handler reproduces the args on load:
    when the [args] query parameter holds the fragment that was encoded
    for args [current] against the baseline [b], and the customized args
    are strings that the codec round-trips, [SET_STORIES] for the story
    with args [b] pushes args that are deep-equal to [current] on every
    key of [current]. *)
Theorem X16_written_url_reproduces_args
    (st : State) (data : Item) (current : obj) :
  isStory data = true ->
  wf_obj (args data) = true -> wf_obj current = true ->
  codec_safe (List.filter (differs (args data)) current) = true ->
  (let q := getQueryParam st "args" in if truthy q then q else VStr "")
  = VStr (stringifyArgs (List.filter (differs (args data)) current)) ->
  exists pushed,
    out_effects (on_SET_STORIES st data) = [UpdateStoryArgs (id data) pushed]
    /\ forall k, has_own k current = true ->
       deepEqual (prop k current) (prop k pushed) = true.
Proof.
  intros Hstory Hb Hc Hsafe Hq.
  set (diff := List.filter (differs (args data)) current) in *.
  exists (spread (args data) (read_order diff)). split.
  - unfold on_SET_STORIES, storyArgs_of. cbv zeta in Hq.
    rewrite Hstory, getQueryParam_insert, Hq.
    now rewrite (parseArgs_stringifyArgs _ (codec_safe_args_flat _ Hsafe)).
  - intros k Hk.
    pose proof (diff_over_baseline (args data) current k Hb Hc) as H.
    rewrite Hk in H. fold diff in H.
    assert (Hnd : List.NoDup (map fst diff)).
    { apply filter_keys_NoDup. now apply wf_obj_iff in Hc as [? _]. }
    assert (Hnd' : List.NoDup (map fst (read_order diff))).
    { exact (Permutation_NoDup
               (Permutation_map fst (Permutation_sym (read_order_Permutation diff))) Hnd). }
    assert (Hsame : prop k (spread (args data) (read_order diff))
                    = prop k (spread (args data) diff)).
    { unfold prop. apply wf_obj_iff in Hb as [Hndb _].
      rewrite !get_own_spread by auto.
      now rewrite (get_own_Permutation _ _ k (read_order_Permutation diff) Hnd'). }
    now rewrite Hsame.
Qed.

Lemma X16_written_url_witness :
  let b := [("label", VStr "Hi"); ("size", VStr "small")] in
  let current := [("label", VStr "Hi"); ("size", VStr "large")] in
  let st := mkState (Some [("args", VStr "size:large")]) "/story/x" ∅ in
  let data := mkItem "x" true b in
  isStory data = true
  /\ wf_obj (args data) = true /\ wf_obj current = true
  /\ codec_safe (List.filter (differs (args data)) current) = true
  /\ (let q := getQueryParam st "args" in if truthy q then q else VStr "")
     = VStr (stringifyArgs (List.filter (differs (args data)) current))
  /\ exists pushed,
       out_effects (on_SET_STORIES st data) = [UpdateStoryArgs (id data) pushed]
       /\ forall k, has_own k current = true ->
          deepEqual (prop k current) (prop k pushed) = true.
Proof.
  intros b current st data. split; [reflexivity|]. split; [reflexivity|].
  split; [reflexivity|]. split; [reflexivity|]. split; [reflexivity|].
  exact (X16_written_url_reproduces_args st data current
           eq_refl eq_refl eq_refl eq_refl eq_refl).
Defined.

(** ** QueryParamStore: when a call commits *)

Lemma assign_all_present_keys (source target : obj) :
  (forall k, In k (map fst source) -> has_own k target = true) ->
  map fst (assign_all target source) = map fst target.
Proof.
  revert target. induction source as [|[k v] source IH]; intros target H; [reflexivity|].
  rewrite assign_all_cons.
  assert (Hk : map fst (set_prop k v target) = map fst target).
  { rewrite set_prop_keys, (H k) by now left. reflexivity. }
  rewrite IH, Hk; [reflexivity|].
  intros k' Hin. apply has_own_In_keys. rewrite Hk. apply has_own_In_keys.
  apply H. now right.
Qed.

(** X17: [setQueryParams] commits exactly when it changes something: the
    call is a no-op if and only if every key that the input sets to
    something else than [null] is already stored with a deep-equal
    value.  The stored map holds plain values and owns neither [valueOf]
    nor [toString]; the input does not own [__proto__], which an
    assignment does not make a property. *)
Theorem X17_commit_exactly_on_change (st : State) (stored input : obj) :
  store_customQueryParams st = Some stored ->
  wf_obj stored = true ->
  plain_map stored = true ->
  has_own "valueOf" stored = false ->
  has_own "toString" stored = false ->
  List.NoDup (map fst input) ->
  has_own "__proto__" input = false ->
  (setQueryParams st input = mkOutcome st [] None
   <-> forall k v, In (k, v) input -> v <> VNull ->
       has_own k stored = true /\ deepEqual (prop k stored) v = true).
Proof.
  intros Hst Hwf Hplain Hvo Hts Hnd _.
  pose proof Hwf as Hwf'. apply wf_obj_iff in Hwf' as [Hnds Halls].
  rewrite List.Forall_forall in Halls.
  set (nn := non_null_entries input).
  assert (Hupdate : spread stored nn = assign_all stored nn).
  { unfold spread. now rewrite (assign_all_copy stored []) by auto. }
  assert (Hcall : setQueryParams st input
            = if deepEqual (VObj stored) (VObj (assign_all stored nn))
              then mkOutcome st [] None
              else mkOutcome (mkState (Some (assign_all stored nn)) (store_path st)
                                      (initialArgs st))
                             [SetState (assign_all stored nn)] None).
  { rewrite setQueryParams_plain;
      unfold stored_entries, stored_value; rewrite Hst; try assumption.
    fold nn. rewrite Hupdate. reflexivity. }
  rewrite Hcall. split.
  - intros H k v Hin Hv.
    destruct (deepEqual (VObj stored) (VObj (assign_all stored nn))) eqn:E;
      [|discriminate].
    assert (Hget : get_own k (assign_all stored nn) = Some v).
    { apply assign_all_get; [apply non_null_entries_NoDup|].
      now apply non_null_entries_In. }
    split.
    + rewrite (deepEqual_obj_keys _ _ E Hnds), has_own_get, Hget. reflexivity.
    + rewrite <- (prop_of_get _ _ _ Hget). now apply deepEqual_obj_prop.
  - intros H.
    assert (Hnn : forall k v, In (k, v) nn ->
              has_own k stored = true /\ deepEqual (prop k stored) v = true).
    { intros k v Hin. apply In_non_null_entries in Hin as [Hin Hv]. now apply H. }
    assert (Hkeys : map fst (assign_all stored nn) = map fst stored).
    { apply assign_all_present_keys. intros k Hk.
      apply in_map_iff in Hk as ([k' v] & <- & Hin). now apply (Hnn k' v). }
    assert (E : deepEqual (VObj stored) (VObj (assign_all stored nn)) = true).
    { rewrite deepEqual_obj. repeat (apply andb_true_iff; split).
      - apply Nat.eqb_eq. rewrite <- (length_map fst stored), <- Hkeys.
        now rewrite length_map.
      - apply forallb_forall. intros [k x] Hin. simpl.
        apply has_own_In_keys. rewrite Hkeys. now apply in_map with (f := fst) in Hin.
      - apply forallb_forall. intros [k x] Hin. simpl.
        destruct (in_dec string_dec k (map fst nn)) as [Hk|Hk].
        + apply in_map_iff in Hk as ([k' v] & Hk' & Hv). simpl in Hk'. subst k'.
          rewrite (prop_of_get k v _
                     (assign_all_get k v nn stored (non_null_entries_NoDup input) Hv)).
          destruct (Hnn k v Hv) as [_ Hd].
          now rewrite (prop_of_get k x stored (In_get_own k x stored Hnds Hin)) in Hd.
        + unfold prop. rewrite assign_all_other by exact Hk.
          rewrite (In_get_own k x stored Hnds Hin).
          apply deepEqual_refl. apply (Halls (k, x) Hin). }
    now rewrite E.
Qed.

Lemma X17_commit_witness :
  let stored := [("theme", VStr "dark"); ("locale", VStr "fr")] in
  let st := mkState (Some stored) "/story/a--b" ∅ in
  let input := [("locale", VStr "fr"); ("x", VNull)] in
  store_customQueryParams st = Some stored
  /\ wf_obj stored = true
  /\ plain_map stored = true
  /\ has_own "valueOf" stored = false
  /\ has_own "toString" stored = false
  /\ List.NoDup (map fst input)
  /\ has_own "__proto__" input = false
  /\ (forall k v, In (k, v) input -> v <> VNull ->
      has_own k stored = true /\ deepEqual (prop k stored) v = true)
  /\ setQueryParams st input = mkOutcome st [] None.
Proof.
  intros stored st input.
  assert (Hnd : List.NoDup (map fst input)) by (apply nodup_keys_NoDup; reflexivity).
  assert (Hall : forall k v, In (k, v) input -> v <> VNull ->
            has_own k stored = true /\ deepEqual (prop k stored) v = true).
  { intros k v [[= <- <-]|[[= <- <-]|[]]] Hv; [split; reflexivity | contradiction]. }
  split; [reflexivity|]. split; [reflexivity|]. split; [reflexivity|].
  split; [reflexivity|]. split; [reflexivity|]. split; [exact Hnd|].
  split; [reflexivity|]. split; [exact Hall|].
  exact (proj2 (X17_commit_exactly_on_change st stored input
                  eq_refl eq_refl eq_refl eq_refl eq_refl Hnd eq_refl) Hall).
Defined.

(** ** QueryLocationParser: the layout *)

(** X18: the layout fields stay in their range whatever the query holds:
    [panelPosition] is unset, ["right"] or ["bottom"]; [isFullscreen] is
    [true] when [full] is the string ["1"] and unset otherwise, never
    [false]. *)
Theorem X18_layout_ranges (query : obj) :
  (panelPosition (layout_of query) = None
   \/ panelPosition (layout_of query) = Some (VStr "right")
   \/ panelPosition (layout_of query) = Some (VStr "bottom"))
  /\ isFullscreen (layout_of query)
     = (if is_str (prop "full" query) "1" then Some true else None).
Proof.
  split.
  - rewrite layout_of_panelPosition.
    destruct (is_str (prop "panelRight" query) "1"); [auto|].
    destruct (prop "panel" query) as [ | | b | n | s | xs | kvs ]; simpl; auto.
    destruct (String.eqb_spec s "right") as [->|_]; simpl; [auto|].
    destruct (String.eqb_spec s "bottom") as [->|_]; simpl; auto.
  - unfold layout_of. split_ifs; reflexivity.
Qed.

Lemma prop_rest_without_other (name k : string) (o : obj) :
  k <> name -> prop k (rest_without [name] o) = prop k o.
Proof.
  intros Hne. unfold prop. rewrite get_own_rest_without. simpl.
  apply String.eqb_neq in Hne. now rewrite Hne.
Qed.

Lemma prop_rest_without_same (name : string) (o : obj) :
  prop name (rest_without [name] o) = VUndefined.
Proof.
  unfold prop. rewrite get_own_rest_without. simpl. now rewrite String.eqb_refl.
Qed.

(** X19: a [panel] value that is none of [right], [bottom] and [0] (another
    string, or the array of a repeated key) is ignored: the layout is the
    one of the query without [panel]. *)
Theorem X19_unrecognised_panel_is_ignored (query : obj) :
  is_str (prop "panel" query) "right" = false ->
  is_str (prop "panel" query) "bottom" = false ->
  is_str (prop "panel" query) "0" = false ->
  layout_of query = layout_of (rest_without ["panel"] query).
Proof.
  intros H1 H2 H3. unfold layout_of. cbv zeta.
  rewrite prop_rest_without_same.
  rewrite (prop_rest_without_other "panel" "full"), (prop_rest_without_other "panel" "nav"),
    (prop_rest_without_other "panel" "addons"),
    (prop_rest_without_other "panel" "panelRight"),
    (prop_rest_without_other "panel" "stories") by discriminate.
  rewrite H1, H2, H3.
  destruct (truthy (prop "panel" query)),
           (is_str (prop "full" query) "1"), (is_str (prop "nav" query) "0"),
           (is_str (prop "addons" query) "0"), (is_str (prop "panelRight" query) "1"),
           (is_str (prop "stories" query) "0"); reflexivity.
Qed.

Lemma X19_unrecognised_panel_witness :
  let query := [("panel", VStr "left"); ("nav", VStr "0")] in
  is_str (prop "panel" query) "right" = false
  /\ is_str (prop "panel" query) "bottom" = false
  /\ is_str (prop "panel" query) "0" = false
  /\ layout_of query = layout_of [("nav", VStr "0")].
Proof.
  intros query. split; [reflexivity|]. split; [reflexivity|]. split; [reflexivity|].
  exact (X19_unrecognised_panel_is_ignored query eq_refl eq_refl eq_refl).
Defined.
